(** * The parallel file search of cmd/file_search.go

    A shallow embedding of [parallelWalk] and [walkInline]: the worker
    pool, the bounded directory queue, the two wait groups and the shared
    counters are a state machine whose steps are the shared-memory
    operations of the goroutines; a run of the search is a sequence of
    such steps chosen by a scheduler. *)

From Stdlib Require Import Bool Arith ZArith Lia List Ascii String.
From Stdlib Require Import Permutation Sorted Mergesort Orders.
Import ListNotations.

Local Open Scope string_scope.
Local Open Scope list_scope.

Set Implicit Arguments.
Set Warnings "-register-all".

(* ================================================================== *)
(** ** Library functions the search calls *)

Module GoStrings.

(** [strings.ToLower] on the bytes of a string.  Bytes 'A'..'Z' are
    mapped to 'a'..'z'; every other byte is kept, which is what Go does
    for a string made of ASCII bytes.  (For other strings Go lowers
    rune by rune with the Unicode tables; those are outside this
    model.) *)
Definition lowerByte (c : ascii) : ascii :=
  let n := N_of_ascii c in
  if ((65 <=? n) && (n <=? 90))%N then ascii_of_N (n + 32) else c.

Fixpoint ToLower (s : string) : string :=
  match s with
  | EmptyString => EmptyString
  | String c s' => String (lowerByte c) (ToLower s')
  end.

(** [strings.Contains s substr]: [substr] occurs in [s]. *)
Fixpoint Contains (s substr : string) : bool :=
  String.prefix substr s ||
  match s with
  | EmptyString => false
  | String _ s' => Contains s' substr
  end.

(** [nameLower[0] == '.'] guarded by [len(nameLower) > 0]. *)
Definition firstIsDot (s : string) : bool :=
  match s with
  | EmptyString => false
  | String c _ => Ascii.eqb c "."
  end.

End GoStrings.

Module GoPath.

(** Unix [filepath.Clean] and [filepath.Join] (separator '/').  The
    path is cut into its elements; empty and "." elements are dropped,
    ".." removes the element before it, stays at the front of a
    relative path and is dropped at the root. *)

Definition isSep (c : ascii) : bool := Ascii.eqb c "/".

(** Elements of a path, the current one accumulated in [cur]. *)
Fixpoint splitFrom (cur : string) (s : string) : list string :=
  match s with
  | EmptyString => [cur]
  | String c s' =>
      if isSep c then cur :: splitFrom EmptyString s'
      else splitFrom (cur ++ String c EmptyString) s'
  end.

Definition split (s : string) : list string := splitFrom EmptyString s.

(** One element against the output built so far ([out], last element
    first). *)
Definition cleanElem (rooted : bool) (out : list string) (el : string)
  : list string :=
  if String.eqb el "" then out
  else if String.eqb el "." then out
  else if String.eqb el ".." then
    match out with
    | top :: below =>
        if String.eqb top ".." then el :: out else below
    | [] => if rooted then out else [el]
    end
  else el :: out.

Fixpoint joinElems (els : list string) : string :=
  match els with
  | [] => ""
  | [e] => e
  | e :: rest => e ++ "/" ++ joinElems rest
  end.

Definition Clean (path : string) : string :=
  match path with
  | EmptyString => "."
  | String c _ =>
      let rooted := isSep c in
      let out := rev (fold_left (cleanElem rooted) (split path) []) in
      if rooted then "/" ++ joinElems out
      else match out with
           | [] => "."
           | _ => joinElems out
           end
  end.

(** [filepath.Join(dir, name)]: the non-empty arguments joined by the
    separator, then cleaned; "" when both are empty. *)
Definition Join (dir name : string) : string :=
  match dir, name with
  | EmptyString, EmptyString => ""
  | EmptyString, _ => Clean name
  | _, EmptyString => Clean dir
  | _, _ => Clean (dir ++ "/" ++ name)
  end.

End GoPath.

Module GoSort.

(** [sort.Strings]: the strings in increasing order, compared byte by
    byte as Go's [<] on strings does. *)
Module StringOrder <: TotalLeBool.
Definition t := string.
Definition leb := String.leb.
Definition leb_total :
  forall a1 a2, leb a1 a2 = true \/ leb a2 a1 = true := String.leb_total.
End StringOrder.

Module Import StringSort := Sort StringOrder.

Definition Strings (l : list string) : list string := sort l.

End GoSort.

Import GoStrings GoPath.

(* ================================================================== *)
(** ** The file system a search runs on *)

(** A directory entry as [os.ReadDir] reports it, together with what a
    later [os.ReadDir] of that entry returns in the same snapshot:
    [Some] of its entries, or [None] when the read fails (permission
    denied, vanished).  Whatever is not a directory ([IsDir() = false]:
    regular files, symbolic links, devices) is a [File]. *)
Inductive entry : Type :=
| File (name : string)
| Folder (name : string) (content : option (list entry)).

Definition Name (e : entry) : string :=
  match e with File n => n | Folder n _ => n end.

Definition IsDir (e : entry) : bool :=
  match e with File _ => false | Folder _ _ => true end.

(** [os.ReadDir] of the path of [e]; reading a non-directory fails. *)
Definition ReadDir (e : entry) : option (list entry) :=
  match e with File _ => None | Folder _ c => c end.

(** Induction over a tree of entries, through the listings. *)
Section EntryInd.
Variable P : entry -> Prop.
Hypothesis HFile : forall n, P (File n).
Hypothesis HUnread : forall n, P (Folder n None).
Hypothesis HFolder : forall n es, Forall P es -> P (Folder n (Some es)).

Fixpoint entry_tree_ind (e : entry) : P e :=
  match e with
  | File n => HFile n
  | Folder n None => HUnread n
  | Folder n (Some es) =>
      HFolder n
        ((fix all (l : list entry) : Forall P l :=
            match l with
            | [] => Forall_nil P
            | x :: l' => Forall_cons x (entry_tree_ind x) (all l')
            end) es)
  end.
End EntryInd.

(** [type SearchMode int] with its three constants. *)
Inductive SearchMode := ModeBoth | ModeFiles | ModeFolders.

(** [var skipDirs = map[string]bool{...}]; a lookup of a missing key
    yields [false]. *)
Definition skipDirs : list (string * bool) :=
  [ ("$recycle.bin", true); ("system volume information", true);
    ("windows", true); ("program files", true);
    ("program files (x86)", true); ("programdata", true);
    (".git", true); ("node_modules", true); (".cache", true);
    (".tmp", true); ("__pycache__", true); (".vs", true);
    (".idea", true); (".gradle", true); ("vendor", true);
    ("dist", true); ("obj", true); ("bin", true) ].

Fixpoint lookup (m : list (string * bool)) (k : string) : bool :=
  match m with
  | [] => false
  | (k', v) :: m' => if String.eqb k' k then v else lookup m' k
  end.

(** The name of a directory that is not skipped when
    [skipSystemDirs] is set. *)
Definition keptName (name : string) : Prop :=
  lookup skipDirs (ToLower name) = false /\ firstIsDot (ToLower name) = false.

Definition maxResults : Z := 10000.
Definition numWorkers : nat := 16.
(** Capacity of [dirQueue = make(chan string, 4096)]. *)
Definition queueCap : nat := 4096.

(** Two's-complement wrap-around of an [int64]. *)
Definition wrap64 (z : Z) : Z := (z + 2 ^ 63) mod 2 ^ 64 - 2 ^ 63.

(** [atomic.AddInt64(&x, delta)]. *)
Definition AddInt64 (x delta : Z) : Z := wrap64 (x + delta).

(* ================================================================== *)
(** ** Shared memory and goroutines of one call of [parallelWalk] *)

(** An element of [dirQueue]: the path sent on the channel, and what
    [os.ReadDir] returns for that path in the snapshot. *)
Record dirref := { dpath : string; dlist : option (list entry) }.

(** The variables of [parallelWalk] captured by its goroutines. *)
Record shared := {
  scanned : Z;               (* int64, atomic *)
  found : Z;                 (* int64, atomic *)
  matched : list string;     (* under mu *)
  pending : Z;               (* counter of the [pending] wait group *)
  wg : Z;                    (* counter of the [wg] wait group *)
  dirQueue : list dirref;    (* buffered values of the channel, oldest first *)
  closed : bool              (* close(dirQueue) has run *)
}.

Definition setScanned (v : Z) (m : shared) : shared :=
  {| scanned := v; found := found m; matched := matched m; pending := pending m;
     wg := wg m; dirQueue := dirQueue m; closed := closed m |}.
Definition setFound (v : Z) (m : shared) : shared :=
  {| scanned := scanned m; found := v; matched := matched m; pending := pending m;
     wg := wg m; dirQueue := dirQueue m; closed := closed m |}.
Definition setMatched (v : list string) (m : shared) : shared :=
  {| scanned := scanned m; found := found m; matched := v; pending := pending m;
     wg := wg m; dirQueue := dirQueue m; closed := closed m |}.
Definition setPending (v : Z) (m : shared) : shared :=
  {| scanned := scanned m; found := found m; matched := matched m; pending := v;
     wg := wg m; dirQueue := dirQueue m; closed := closed m |}.
Definition setWg (v : Z) (m : shared) : shared :=
  {| scanned := scanned m; found := found m; matched := matched m; pending := pending m;
     wg := v; dirQueue := dirQueue m; closed := closed m |}.
Definition setQueue (v : list dirref) (m : shared) : shared :=
  {| scanned := scanned m; found := found m; matched := matched m; pending := pending m;
     wg := wg m; dirQueue := v; closed := closed m |}.
Definition setClosed (v : bool) (m : shared) : shared :=
  {| scanned := scanned m; found := found m; matched := matched m; pending := pending m;
     wg := wg m; dirQueue := dirQueue m; closed := v |}.

(** What one step of a goroutine does: it cannot move now ([Blocked]:
    waiting on the channel or a wait group, or ended), it panics (negative
    wait-group counter, send on or close of a closed channel), or it moves
    on; for a goroutine [t] is its next place with the shared memory it
    leaves. *)
Inductive result (T : Type) : Type :=
| Blocked
| Panic
| Next (t : T).
Arguments Blocked {T}.
Arguments Panic {T}.

(** [WaitGroup.Add(delta)]. *)
Definition wgAdd (counter delta : Z) : option Z :=
  if (counter + delta <? 0)%Z then None else Some (counter + delta)%Z.

(** Places in the body of the [for _, entry := range entries] loop, the
    same in the worker and in [walkInline]. *)
Inductive loc :=
| AtScan     (* atomic.AddInt64(scanned, 1), then the skip test *)
| AtDir      (* if entry.IsDir() { ... } with a directory *)
| AtAppend   (* mu.Lock(); matched = append(matched, fullPath); mu.Unlock() *)
| AtFound.   (* atomic.AddInt64(found, 1) *)

(** An activation of the loop over the entries of [dir]: at the loop
    head with [es] still to visit, or at [l] in the body for [e] with
    [rest] after it. *)
Inductive frame :=
| Head (dir : string) (es : list entry)
| Body (l : loc) (dir : string) (e : entry) (rest : list entry).

(** Outcome of a step inside the loop. *)
Inductive after :=
| Continue (f : frame)                               (* still in this loop *)
| LoopExit                                           (* loop over, break or return *)
| SubDir (dir : string) (e : entry) (rest : list entry).  (* entry is a directory to descend *)

(** A worker goroutine. *)
Inductive worker :=
| Recv                                   (* for dir := range dirQueue *)
| Got (d : dirref)                       (* cap test and os.ReadDir(dir) *)
| Run (f : frame)                        (* in the loop over the entries of dir *)
| Send (dir : string) (e : entry) (rest : list entry)      (* the select statement *)
| Inline (calls : list frame) (dir : string) (e : entry) (rest : list entry)
    (* in walkInline for [e], innermost activation first; no activation
       left: pending.Done() after the call *)
| Fin                                    (* pending.Done() for the received dir *)
| Leave                                  (* the deferred wg.Done() *)
| Exit.                                  (* goroutine ended *)

(** What [parallelWalk] returns. *)
Inductive error := ReadDirError (path : string).

Record answer := {
  matches : list string;
  scannedCount : Z;
  err : option error
}.

(** The goroutine that called [parallelWalk]. *)
Inductive mainG :=
| MAddRoot                               (* enqueue(root): pending.Add(1) *)
| MSendRoot                              (* enqueue(root): dirQueue <- root *)
| MAdd (e : entry) (rest : list entry)   (* enqueue(child): pending.Add(1) *)
| MSend (e : entry) (rest : list entry)  (* enqueue(child): dirQueue <- child *)
| MGo                                    (* go func() { pending.Wait(); close(dirQueue) }() *)
| MWait                                  (* wg.Wait(), then sort and return *)
| MRet (a : answer).

(** The goroutine that closes the queue. *)
Inductive closerG :=
| CNotStarted
| CWait                                  (* pending.Wait() *)
| CClose                                 (* close(dirQueue) *)
| CEnd.

Record state := {
  mem : shared;
  caller : mainG;
  closer : closerG;
  workers : list worker
}.

(** Goroutine chosen by the scheduler for the next step. *)
Inductive tid := TMain | TCloser | TWorker (i : nat).

Fixpoint setNth {A} (i : nat) (x : A) (l : list A) : list A :=
  match l, i with
  | [], _ => []
  | _ :: l', O => x :: l'
  | y :: l', S i' => y :: setNth i' x l'
  end.

(** Occurrences of a path in a list. *)
Definition occ (x : string) (l : list string) : nat := count_occ string_dec l x.
Arguments occ : simpl never.

(** Equality of 64-bit counters up to wrap-around. *)
Definition cong64 (a b : Z) : Prop := exists k : Z, (a = b + k * 2 ^ 64)%Z.

(** The worker waits on the channel or has ended. *)
Definition idle (w : worker) : bool :=
  match w with Recv | Exit => true | _ => false end.

(* ================================================================== *)
(** ** Directory trees and schedules used in the examples *)

Definition digits : list string :=
  ["0"; "1"; "2"; "3"; "4"; "5"; "6"; "7"; "8"; "9"].

(** The 10000 names [prefix0000] .. [prefix9999], in increasing order. *)
Definition names4 (prefix : string) : list string :=
  flat_map (fun a : string =>
    flat_map (fun b : string =>
      flat_map (fun c : string =>
        map (fun d : string => (prefix ++ a ++ b ++ c ++ d)%string) digits)
        digits) digits) digits.

(** The tree of the scenario of the specification, below [root/]. *)
Definition scenario : list entry :=
  [ Folder ".git" (Some [File "config"]);
    Folder "ABC123" (Some []);
    Folder "abc" (Some [File "report.txt"]);
    Folder "node_modules" (Some [Folder "pkg" (Some [File "index.js"])]) ].

(** One directory with one file. *)
Definition nested : list entry :=
  [ Folder "abc" (Some [File "report.txt"]) ].

(** One directory [d] with the 5001 files [f0000] .. [f5000]. *)
Definition deep : list entry :=
  [ Folder "d" (Some (map File (firstn (N.to_nat 5001) (names4 "f")))) ].

(** A directory that cannot be read beside one that can. *)
Definition locked : list entry :=
  [ Folder "abc" None; Folder "abcd" (Some [File "abc.txt"]) ].

(** A hidden file and a file named like a skipped directory. *)
Definition dotfile : list entry := [ File ".env"; File "bin" ].

(** A directory [d] holding the file [f], next to the 10000 files
    [f0000] .. [f9999]. *)
Definition crowded : list entry :=
  Folder "d" (Some [File "f"]) :: map File (names4 "f").

(** The 10000 files [f0000] .. [f9999] and the empty directory [fz]. *)
Definition mixed : list entry :=
  map File (names4 "f") ++ [Folder "fz" (Some [])].

(** A schedule on [crowded]: the caller sends the root and [d] and
    starts the closing goroutine; worker 0 takes the root, sends [d]
    again, records [f0000] .. [f9998] and passes the cap test for
    [f9999]; workers 1 and 2 each take one of the two [d] from the
    queue and pass the cap test for [d/f]. *)
Definition race : list tid :=
  repeat TMain 5
  ++ repeat (TWorker 0) (N.to_nat (6 + 4 * 9999 + 2))
  ++ repeat (TWorker 1) 4
  ++ repeat (TWorker 2) 4.

(* ================================================================== *)
(** ** The terminal interface around the search *)

(** The messages [Update] distinguishes: a key, named as
    [tea.KeyMsg.String()] names it; a tick of the spinner; the result of
    a search ([searchResultMsg]: paths, scanned count, error, elapsed
    nanoseconds); anything else. *)
Inductive msg :=
| KeyMsg (key : string)
| TickMsg
| ResultMsg (matched : list string) (scanned : Z) (err : option error) (elapsed : Z)
| OtherMsg.

(** The command a component returns from its [Update], as far as the
    program can tell: [nil], [tea.Quit] (the list returns it on the key
    q), or another command of the component. *)
Inductive widgetCmd :=
| WNone
| WQuit
| WOther.

(** The components of the bubbles library the model is built from, as
    far as [Update] and [runSearch] use them: the two text inputs, the
    list of results and the spinner.  The [Update] of a component gives
    the new component and a command. *)
Record Widgets := {
  input : Type;
  inValue : input -> string;               (* textinput.Model.Value *)
  inFocus : input -> input;                (* Focus *)
  inBlur : input -> input;                 (* Blur *)
  inUpdate : input -> msg -> input;        (* Update, the component *)
  inCmd : input -> msg -> widgetCmd;       (* Update, the command *)
  resultList : Type;
  listSelected : resultList -> option string;       (* SelectedItem().(item) *)
  listSetItems : resultList -> list string -> resultList;
  listUpdate : resultList -> msg -> resultList;
  listCmd : resultList -> msg -> widgetCmd;
  spinnerT : Type;
  spinUpdate : spinnerT -> spinnerT;
  spinCmd : spinnerT -> widgetCmd;
  newQuery : input;                        (* textinput.New(), focused *)
  newRoot : input;
  newList : resultList;
  newSpinner : spinnerT
}.

(** Which text the status line holds (the texts themselves are not
    modelled). *)
Inductive status :=
| StatusHelp
| StatusSkipOn
| StatusSkipOff
| StatusSearching
| StatusOpened (path : string)
| StatusFound (count : nat) (scanned : Z) (elapsed : Z).

(** The constants of [Focus] and [SearchMode]. *)
Definition FocusQuery : Z := 0.
Definition FocusRoot : Z := 1.
Definition FocusMode : Z := 2.
Definition FocusResults : Z := 3.

Definition modeOf (m : Z) : option SearchMode :=
  if (m =? 0)%Z then Some ModeBoth
  else if (m =? 1)%Z then Some ModeFiles
  else if (m =? 2)%Z then Some ModeFolders
  else None.

(** [SearchMode.String]: the index into the array of the three names;
    [None] for the panic of an index out of range. *)
Definition modeString (m : Z) : option string :=
  if (m <? 0)%Z then None
  else nth_error ["Both"; "Files"; "Folders"]%string (Z.to_nat m).

(** [fileSearchModel]; [mode] and [focus] are the [int] values. *)
Record fileSearchModel (W : Widgets) := {
  queryInput : input W;
  rootInput : input W;
  mode : Z;
  focus : Z;
  results : resultList W;
  spinner : spinnerT W;
  searching : bool;
  statusLine : status;
  scannedItems : Z;
  lastTime : Z;
  skipSystemDirs : bool;
  lastQuery : string
}.
Arguments queryInput {W}.
Arguments rootInput {W}.
Arguments mode {W}.
Arguments focus {W}.
Arguments results {W}.
Arguments spinner {W}.
Arguments searching {W}.
Arguments statusLine {W}.
Arguments scannedItems {W}.
Arguments lastTime {W}.
Arguments skipSystemDirs {W}.
Arguments lastQuery {W}.

Definition initialModel (W : Widgets) : fileSearchModel W :=
  {| queryInput := newQuery W; rootInput := newRoot W;
     mode := 0; focus := FocusQuery;
     results := newList W; spinner := newSpinner W;
     searching := false; statusLine := StatusHelp;
     scannedItems := 0; lastTime := 0;
     skipSystemDirs := true; lastQuery := "" |}.

(** [getRootPath], for the value [goos] of [runtime.GOOS]. *)
Definition getRootPath (goos : string) : string :=
  if String.eqb goos "windows" then "C:\" else "/".

(** The call [parallelWalk(root, query, m.mode, m.skipSystemDirs)] that
    [runSearch] makes. *)
Record searchCall := {
  callRoot : string;
  callQuery : string;
  callMode : Z;
  callSkip : bool
}.

Definition runSearch {W : Widgets} (goos : string) (m : fileSearchModel W)
  : searchCall :=
  let query := ToLower (inValue W (queryInput m)) in
  let root := inValue W (rootInput m) in
  {| callRoot := if String.eqb root "" then getRootPath goos else root;
     callQuery := query;
     callMode := mode m;
     callSkip := skipSystemDirs m |}.

(** The command [Update] returns. *)
Inductive cmd :=
| CmdNone                       (* nil *)
| CmdQuit                       (* tea.Quit *)
| CmdSearch (c : searchCall)    (* tea.Batch(m.spinner.Tick, m.runSearch()) *)
| CmdOther.                     (* another command of a component *)

(** The command of a component, returned as it is. *)
Definition ofWidget (w : widgetCmd) : cmd :=
  match w with
  | WNone => CmdNone
  | WQuit => CmdQuit
  | WOther => CmdOther
  end.

(** The last part of [Update]: the message goes to the focused
    component. *)
Definition updateFocused {W : Widgets} (m : fileSearchModel W) (ms : msg)
  : fileSearchModel W * cmd :=
  if (focus m =? FocusQuery)%Z then
    ({| queryInput := inUpdate W (queryInput m) ms; rootInput := rootInput m;
        mode := mode m; focus := focus m; results := results m;
        spinner := spinner m; searching := searching m;
        statusLine := statusLine m; scannedItems := scannedItems m;
        lastTime := lastTime m; skipSystemDirs := skipSystemDirs m;
        lastQuery := lastQuery m |}, ofWidget (inCmd W (queryInput m) ms))
  else if (focus m =? FocusRoot)%Z then
    ({| queryInput := queryInput m; rootInput := inUpdate W (rootInput m) ms;
        mode := mode m; focus := focus m; results := results m;
        spinner := spinner m; searching := searching m;
        statusLine := statusLine m; scannedItems := scannedItems m;
        lastTime := lastTime m; skipSystemDirs := skipSystemDirs m;
        lastQuery := lastQuery m |}, ofWidget (inCmd W (rootInput m) ms))
  else if (focus m =? FocusResults)%Z then
    ({| queryInput := queryInput m; rootInput := rootInput m;
        mode := mode m; focus := focus m;
        results := listUpdate W (results m) ms;
        spinner := spinner m; searching := searching m;
        statusLine := statusLine m; scannedItems := scannedItems m;
        lastTime := lastTime m; skipSystemDirs := skipSystemDirs m;
        lastQuery := lastQuery m |}, ofWidget (listCmd W (results m) ms))
  else (m, CmdNone).

(** The cases of the key switch that go on to [updateFocused]. *)
Definition keyF2 {W : Widgets} (m : fileSearchModel W) : fileSearchModel W :=
  let skip := negb (skipSystemDirs m) in
  {| queryInput := queryInput m; rootInput := rootInput m;
     mode := mode m; focus := focus m; results := results m;
     spinner := spinner m; searching := searching m;
     statusLine := if skip then StatusSkipOn else StatusSkipOff;
     scannedItems := scannedItems m; lastTime := lastTime m;
     skipSystemDirs := skip; lastQuery := lastQuery m |}.

Definition keyTab {W : Widgets} (m : fileSearchModel W) : fileSearchModel W :=
  let f := Z.rem (wrap64 (focus m + 1)) 4 in
  let q := inBlur W (queryInput m) in
  let r := inBlur W (rootInput m) in
  {| queryInput := if (f =? FocusQuery)%Z then inFocus W q else q;
     rootInput := if (f =? FocusQuery)%Z then r
                  else if (f =? FocusRoot)%Z then inFocus W r else r;
     mode := mode m; focus := f; results := results m;
     spinner := spinner m; searching := searching m;
     statusLine := statusLine m; scannedItems := scannedItems m;
     lastTime := lastTime m; skipSystemDirs := skipSystemDirs m;
     lastQuery := lastQuery m |}.

Definition setMode {W : Widgets} (v : Z) (m : fileSearchModel W) : fileSearchModel W :=
  {| queryInput := queryInput m; rootInput := rootInput m;
     mode := v; focus := focus m; results := results m;
     spinner := spinner m; searching := searching m;
     statusLine := statusLine m; scannedItems := scannedItems m;
     lastTime := lastTime m; skipSystemDirs := skipSystemDirs m;
     lastQuery := lastQuery m |}.

Definition keyLeftRight {W : Widgets} (left : bool) (m : fileSearchModel W)
  : fileSearchModel W :=
  if (focus m =? FocusMode)%Z then
    if left then setMode (Z.rem (wrap64 (mode m + 2)) 3) m
    else setMode (Z.rem (wrap64 (mode m + 1)) 3) m
  else m.

Definition setStatus {W : Widgets} (st : status) (searchingNow : bool)
  (m : fileSearchModel W) : fileSearchModel W :=
  {| queryInput := queryInput m; rootInput := rootInput m;
     mode := mode m; focus := focus m; results := results m;
     spinner := spinner m; searching := searchingNow;
     statusLine := st; scannedItems := scannedItems m;
     lastTime := lastTime m; skipSystemDirs := skipSystemDirs m;
     lastQuery := lastQuery m |}.

(** What one call of [Update] gives: the new model, the command, and
    the path handed to [openExplorer] if it was called. *)
Record updated (W : Widgets) := {
  newModel : fileSearchModel W;
  command : cmd;
  opened : option string
}.
Arguments newModel {W}.
Arguments command {W}.
Arguments opened {W}.

Definition thenFocused {W : Widgets} (m : fileSearchModel W) (ms : msg)
  (op : option string) : updated W :=
  let (m', c) := updateFocused m ms in
  {| newModel := m'; command := c; opened := op |}.

Definition Update {W : Widgets} (goos : string) (m : fileSearchModel W) (ms : msg)
  : updated W :=
  match ms with
  | KeyMsg key =>
      if String.eqb key "ctrl+c" || String.eqb key "esc" then
        {| newModel := m; command := CmdQuit; opened := None |}
      else if String.eqb key "f2" then thenFocused (keyF2 m) ms None
      else if String.eqb key "tab" then thenFocused (keyTab m) ms None
      else if String.eqb key "left" || String.eqb key "right" then
        thenFocused (keyLeftRight (String.eqb key "left") m) ms None
      else if String.eqb key "enter" then
        if (focus m =? FocusResults)%Z then
          match listSelected W (results m) with
          | Some i =>
              thenFocused (setStatus (StatusOpened i) (searching m) m) ms (Some i)
          | None => thenFocused m ms None
          end
        else if negb (String.eqb (inValue W (queryInput m)) "") then
          let m' := setStatus StatusSearching true m in
          {| newModel := m'; command := CmdSearch (runSearch goos m');
             opened := None |}
        else thenFocused m ms None
      else thenFocused m ms None
  | TickMsg =>
      {| newModel :=
           {| queryInput := queryInput m; rootInput := rootInput m;
              mode := mode m; focus := focus m; results := results m;
              spinner := spinUpdate W (spinner m); searching := searching m;
              statusLine := statusLine m; scannedItems := scannedItems m;
              lastTime := lastTime m; skipSystemDirs := skipSystemDirs m;
              lastQuery := lastQuery m |};
         command := ofWidget (spinCmd W (spinner m)); opened := None |}
  | ResultMsg matched scanned _ elapsed =>
      thenFocused
        {| queryInput := queryInput m; rootInput := rootInput m;
           mode := mode m; focus := focus m;
           results := listSetItems W (results m) matched;
           spinner := spinner m; searching := false;
           statusLine := StatusFound (List.length matched) scanned elapsed;
           scannedItems := scanned; lastTime := elapsed;
           skipSystemDirs := skipSystemDirs m; lastQuery := lastQuery m |}
        ms None
  | OtherMsg => thenFocused m ms None
  end.

(** The models the program can be in: the initial one and what [Update]
    makes of them. *)
Inductive reachable (W : Widgets) (goos : string) : fileSearchModel W -> Prop :=
| reach_initial : reachable goos (initialModel W)
| reach_update m ms :
    reachable goos m -> reachable goos (newModel (Update goos m ms)).

(** The model after a sequence of keys. *)
Definition afterKeys {W : Widgets} (goos : string) (m : fileSearchModel W)
  (keys : list string) : fileSearchModel W :=
  fold_left (fun m' key => newModel (Update goos m' (KeyMsg key))) keys m.

(** Components that keep only what the model reads from them: an input
    is its text, to which a key of one character is added; the list is
    its items, the first one selected, and quits on the key q; the
    spinner counts its ticks. *)
Definition plainWidgets : Widgets :=
  {| input := string;
     inValue := fun i => i;
     inFocus := fun i => i;
     inBlur := fun i => i;
     inUpdate := fun i ms =>
       match ms with
       | KeyMsg (String c EmptyString) => (i ++ String c EmptyString)%string
       | _ => i
       end;
     inCmd := fun _ _ => WNone;
     resultList := list string;
     listSelected := fun l => hd_error l;
     listSetItems := fun _ items => items;
     listUpdate := fun l _ => l;
     listCmd := fun _ ms =>
       match ms with
       | KeyMsg key => if String.eqb key "q" then WQuit else WNone
       | _ => WNone
       end;
     spinnerT := nat;
     spinUpdate := S;
     spinCmd := fun _ => WOther;
     newQuery := "";
     newRoot := "";
     newList := [];
     newSpinner := 0 |}.
(* ================================================================== *)
(** ** The code of the goroutines *)

Section Search.

(** The arguments of the call, and the snapshot: what [os.ReadDir(root)]
    returns. *)
Variable root : string.
Variable rootList : option (list entry).
Variable query : string.
Variable mode : SearchMode.
Variable skipSystemDirs : bool.

(** The skip test on an entry:
    [entry.IsDir() && skipSystemDirs] and then
    [skipDirs[nameLower] || (len(nameLower) > 0 && nameLower[0] == '.')]. *)
Definition skipped (e : entry) : bool :=
  let nameLower := ToLower (Name e) in
  IsDir e && skipSystemDirs && (lookup skipDirs nameLower || firstIsDot nameLower).

(** [strings.Contains(nameLower, query) ||
     strings.Contains(strings.ToLower(fullPath), query)]. *)
Definition textMatch (dir : string) (e : entry) : bool :=
  Contains (ToLower (Name e)) query || Contains (ToLower (Join dir (Name e))) query.

(** The [switch mode] that sets [isMatch]. *)
Definition modeMatch (e : entry) : bool :=
  match mode with
  | ModeBoth => true
  | ModeFiles => negb (IsDir e)
  | ModeFolders => IsDir e
  end.

Definition isMatch (dir : string) (e : entry) : bool :=
  textMatch dir e && modeMatch e.

(** From the match test to the next shared operation of the loop. *)
Definition matchNext (dir : string) (e : entry) (rest : list entry) : frame :=
  if isMatch dir e then Body AtAppend dir e rest else Head dir rest.

(** After the scan counter: skip test ([continue]), directory test,
    match test. *)
Definition classify (dir : string) (e : entry) (rest : list entry) : frame :=
  if skipped e then Head dir rest
  else if IsDir e then Body AtDir dir e rest
  else matchNext dir e rest.

(** One step of the loop body, common to the worker and [walkInline]. *)
Definition stepFrame (f : frame) (m : shared) : after * shared :=
  match f with
  | Head dir [] => (LoopExit, m)
  | Head dir (e :: rest) =>
      if (maxResults <=? found m)%Z then (LoopExit, m)
      else (Continue (Body AtScan dir e rest), m)
  | Body AtScan dir e rest =>
      (Continue (classify dir e rest), setScanned (AddInt64 (scanned m) 1) m)
  | Body AtDir dir e rest => (SubDir dir e rest, m)
  | Body AtAppend dir e rest =>
      (Continue (Body AtFound dir e rest),
       setMatched (matched m ++ [Join dir (Name e)]) m)
  | Body AtFound dir e rest =>
      (Continue (Head dir rest), setFound (AddInt64 (found m) 1) m)
  end.

(** What is sent for the subdirectory [e] of [dir]: its [fullPath]. *)
Definition childRef (dir : string) (e : entry) : dirref :=
  {| dpath := Join dir (Name e); dlist := ReadDir e |}.

(** A call [walkInline(Join(dir, Name e), ...)] pushes the activation of
    its loop, or returns at once when the read fails. *)
Definition callInline (dir : string) (e : entry) (calls : list frame) : list frame :=
  match ReadDir e with
  | None => calls
  | Some es => Head (Join dir (Name e)) es :: calls
  end.

(** [pending.Done()] and on to [w]. *)
Definition pendingDone (w : worker) (m : shared) : result (worker * shared) :=
  match wgAdd (pending m) (-1) with
  | None => Panic
  | Some c => Next (w, setPending c m)
  end.

Definition stepWorker (w : worker) (m : shared) : result (worker * shared) :=
  match w with
  | Recv =>
      match dirQueue m with
      | d :: q => Next (Got d, setQueue q m)
      | [] => if closed m then Next (Leave, m) else Blocked
      end
  | Got d =>
      if (maxResults <=? found m)%Z then Next (Fin, m)
      else match dlist d with
           | None => Next (Fin, m)
           | Some es => Next (Run (Head (dpath d) es), m)
           end
  | Run f =>
      match stepFrame f m with
      | (Continue f', m') => Next (Run f', m')
      | (LoopExit, m') => Next (Fin, m')
      | (SubDir dir e rest, m') =>
          match wgAdd (pending m') 1 with
          | None => Panic
          | Some c => Next (Send dir e rest, setPending c m')
          end
      end
  | Send dir e rest =>
      if closed m then Panic
      else if (List.length (dirQueue m) <? queueCap)%nat then
        Next (Run (matchNext dir e rest),
              setQueue (dirQueue m ++ [childRef dir e]) m)
      else Next (Inline (callInline dir e []) dir e rest, m)
  | Inline [] dir e rest => pendingDone (Run (matchNext dir e rest)) m
  | Inline (f :: calls) dir e rest =>
      match stepFrame f m with
      | (Continue f', m') => Next (Inline (f' :: calls) dir e rest, m')
      | (LoopExit, m') => Next (Inline calls dir e rest, m')
      | (SubDir dir' e' rest', m') =>
          Next (Inline (callInline dir' e' (matchNext dir' e' rest' :: calls)) dir e rest, m')
      end
  | Fin => pendingDone Recv m
  | Leave =>
      match wgAdd (wg m) (-1) with
      | None => Panic
      | Some c => Next (Exit, setWg c m)
      end
  | Exit => Blocked
  end.

(** The loop over [topEntries] up to its next [enqueue]. *)
Fixpoint seedNext (es : list entry) : mainG :=
  match es with
  | [] => MGo
  | e :: rest =>
      if IsDir e && negb (skipped e) then MAdd e rest else seedNext rest
  end.

(** [dirQueue <- d], blocking while the buffer is full. *)
Definition sendBlocking (d : dirref) (next : mainG) (m : shared) : result (mainG * shared) :=
  if closed m then Panic
  else if (List.length (dirQueue m) <? queueCap)%nat then
    Next (next, setQueue (dirQueue m ++ [d]) m)
  else Blocked.

Definition rootErr : option error :=
  match rootList with
  | None => Some (ReadDirError root)
  | Some _ => None
  end.

(** The caller, except for its [go] statement. *)
Definition stepMain (c : mainG) (m : shared) : result (mainG * shared) :=
  match c with
  | MAddRoot =>
      match wgAdd (pending m) 1 with
      | None => Panic
      | Some p => Next (MSendRoot, setPending p m)
      end
  | MSendRoot =>
      sendBlocking {| dpath := root; dlist := rootList |}
        (match rootList with
         | None => MGo
         | Some topEntries => seedNext topEntries
         end) m
  | MAdd e rest =>
      match wgAdd (pending m) 1 with
      | None => Panic
      | Some p => Next (MSend e rest, setPending p m)
      end
  | MSend e rest =>
      sendBlocking (childRef root e) (seedNext rest) m
  | MGo => Next (MWait, m)
  | MWait =>
      if (wg m =? 0)%Z then
        Next (MRet {| matches := GoSort.Strings (matched m);
                      scannedCount := scanned m;
                      err := rootErr |}, m)
      else Blocked
  | MRet _ => Blocked
  end.

Definition stepCloser (c : closerG) (m : shared) : result (closerG * shared) :=
  match c with
  | CNotStarted => Blocked
  | CWait => if (pending m =? 0)%Z then Next (CClose, m) else Blocked
  | CClose => if closed m then Panic else Next (CEnd, setClosed true m)
  | CEnd => Blocked
  end.

(** One step of the goroutine [t] in the state [s]. *)
Definition step (t : tid) (s : state) : result state :=
  match t with
  | TMain =>
      match stepMain (caller s) (mem s) with
      | Next (c, m) =>
          Next {| mem := m; caller := c;
                  closer := match caller s with MGo => CWait | _ => closer s end;
                  workers := workers s |}
      | Blocked => Blocked
      | Panic => Panic
      end
  | TCloser =>
      match stepCloser (closer s) (mem s) with
      | Next (c, m) =>
          Next {| mem := m; caller := caller s; closer := c; workers := workers s |}
      | Blocked => Blocked
      | Panic => Panic
      end
  | TWorker i =>
      match nth_error (workers s) i with
      | None => Blocked
      | Some w =>
          match stepWorker w (mem s) with
          | Next (w', m) =>
              Next {| mem := m; caller := caller s; closer := closer s;
                      workers := setNth i w' (workers s) |}
          | Blocked => Blocked
          | Panic => Panic
          end
      end
  end.

(** The state when the workers have been started: [n] goroutines at
    their [range dirQueue], [wg.Add(1)] done for each. *)
Definition start (n : nat) : state :=
  {| mem := {| scanned := 0; found := 0; matched := []; pending := 0;
               wg := Z.of_nat n; dirQueue := []; closed := false |};
     caller := MAddRoot;
     closer := CNotStarted;
     workers := repeat Recv n |}.

(** Runs of the search. *)
Inductive steps : state -> state -> Prop :=
| steps_refl s : steps s s
| steps_next t s s' s'' :
    step t s = Next s' -> steps s' s'' -> steps s s''.

(** The run in which the scheduler picks the goroutines of [sched] in
    turn; [None] when the picked goroutine cannot move or panics. *)
Fixpoint run (sched : list tid) (s : state) : option state :=
  match sched with
  | [] => Some s
  | t :: sched' =>
      match step t s with
      | Next s' => run sched' s'
      | _ => None
      end
  end.

(** [parallelWalk] with [n] workers can return [a]. *)
Definition returns (n : nat) (a : answer) : Prop :=
  exists s, steps (start n) s /\ caller s = MRet a.

(** The goroutines of a state. *)
Definition threads (s : state) : list tid :=
  TMain :: TCloser :: map TWorker (seq 0 (List.length (workers s))).

(** The step of the first goroutine of [ts] that can move. *)
Fixpoint pick (ts : list tid) (s : state) : option state :=
  match ts with
  | [] => None
  | t :: ts' =>
      match step t s with
      | Next s' => Some s'
      | _ => pick ts' s
      end
  end.

(** At most [fuel] steps, each by the first goroutine that can move. *)
Fixpoint exec (fuel : nat) (s : state) : state :=
  match fuel with
  | O => s
  | S fuel' =>
      match pick (threads s) s with
      | Some s' => exec fuel' s'
      | None => s
      end
  end.

(* ------------------------------------------------------------------ *)
(** *** The traversal without the cap *)

(** The paths a complete visit of the entry [e] of [dir] records: those
    of the directory below it, then its own. *)
Fixpoint walkEntry (dir : string) (e : entry) : list string :=
  if skipped e then []
  else
    (match e with
     | Folder n (Some es) => flat_map (walkEntry (Join dir n)) es
     | _ => []
     end) ++ (if isMatch dir e then [Join dir (Name e)] else []).

Definition walkEntries (dir : string) (es : list entry) : list string :=
  flat_map (walkEntry dir) es.

(** The paths a complete processing of the queued directory [d] records. *)
Definition walkDir (d : dirref) : list string :=
  match dlist d with
  | None => []
  | Some es => walkEntries (dpath d) es
  end.

(** The directories the caller sends after the root. *)
Definition seeds (es : list entry) : list dirref :=
  map (childRef root) (filter (fun e => IsDir e && negb (skipped e)) es).

(** Every directory the caller sends. *)
Definition sent : list dirref :=
  {| dpath := root; dlist := rootList |}
  :: match rootList with None => [] | Some es => seeds es end.

(** All paths recorded when no directory is cut short by the cap. *)
Definition traversal : list string := flat_map walkDir sent.

(** The number of entries a complete visit of [e] scans. *)
Fixpoint scanEntry (e : entry) : nat :=
  1 + (if skipped e then 0
       else match e with
            | Folder _ (Some es) => list_sum (map scanEntry es)
            | _ => 0
            end).

Definition scanEntries (es : list entry) : nat := list_sum (map scanEntry es).

Definition scanDir (d : dirref) : nat :=
  match dlist d with
  | None => 0
  | Some es => scanEntries es
  end.

Definition scans : nat := list_sum (map scanDir sent).

(* ------------------------------------------------------------------ *)
(** *** What a state still has to do *)

(** The paths below the directory [e] of [dir], and the path of [e]
    itself when it is a match. *)
Definition subWalk (dir : string) (e : entry) : list string :=
  walkDir (childRef dir e).

Definition ownMatch (dir : string) (e : entry) : list string :=
  if isMatch dir e then [Join dir (Name e)] else [].

(** The paths an activation of the loop records when it runs to its
    end. *)
Definition todoF (f : frame) : list string :=
  match f with
  | Head dir es => walkEntries dir es
  | Body AtScan dir e rest => walkEntry dir e ++ walkEntries dir rest
  | Body AtDir dir e rest => subWalk dir e ++ ownMatch dir e ++ walkEntries dir rest
  | Body AtAppend dir e rest => [Join dir (Name e)] ++ walkEntries dir rest
  | Body AtFound dir e rest => walkEntries dir rest
  end.

Definition todoW (w : worker) : list string :=
  match w with
  | Got d => walkDir d
  | Run f => todoF f
  | Send dir e rest => subWalk dir e ++ ownMatch dir e ++ walkEntries dir rest
  | Inline calls dir e rest =>
      flat_map todoF calls ++ ownMatch dir e ++ walkEntries dir rest
  | Recv | Fin | Leave | Exit => []
  end.

Definition todoM (c : mainG) : list string :=
  match c with
  | MAddRoot | MSendRoot => traversal
  | MAdd e rest | MSend e rest => flat_map walkDir (childRef root e :: seeds rest)
  | MGo | MWait | MRet _ => []
  end.

Definition todo (s : state) : list string :=
  todoM (caller s) ++ flat_map walkDir (dirQueue (mem s)) ++ flat_map todoW (workers s).

(** The same for the number of entries still to scan. *)
Definition subScan (e : entry) : nat :=
  match ReadDir e with
  | None => 0
  | Some es => scanEntries es
  end.

Definition scanF (f : frame) : nat :=
  match f with
  | Head _ es => scanEntries es
  | Body AtScan _ e rest => scanEntry e + scanEntries rest
  | Body AtDir _ e rest => subScan e + scanEntries rest
  | Body AtAppend _ _ rest | Body AtFound _ _ rest => scanEntries rest
  end.

Definition scanW (w : worker) : nat :=
  match w with
  | Got d => scanDir d
  | Run f => scanF f
  | Send _ e rest => subScan e + scanEntries rest
  | Inline calls _ _ rest => list_sum (map scanF calls) + scanEntries rest
  | Recv | Fin | Leave | Exit => 0
  end.

Definition scanM (c : mainG) : nat :=
  match c with
  | MAddRoot | MSendRoot => scans
  | MAdd e rest | MSend e rest => list_sum (map scanDir (childRef root e :: seeds rest))
  | MGo | MWait | MRet _ => 0
  end.

Definition scanTodo (s : state) : nat :=
  scanM (caller s) + list_sum (map scanDir (dirQueue (mem s)))
  + list_sum (map scanW (workers s)).

(** Activations between the append and the increment of [found]. *)
Definition atFoundF (f : frame) : nat :=
  match f with Body AtFound _ _ _ => 1 | _ => 0 end.

Definition atFoundW (w : worker) : nat :=
  match w with
  | Run f => atFoundF f
  | Inline calls _ _ _ => list_sum (map atFoundF calls)
  | _ => 0
  end.

(** Units of [pending] a goroutine has added and not yet passed on (to
    the queue) or given back (by [Done]). *)
Definition holdsW (w : worker) : nat :=
  match w with
  | Got _ | Run _ | Fin => 1
  | Send _ _ _ | Inline _ _ _ _ => 2
  | Recv | Leave | Exit => 0
  end.

Definition holdsM (c : mainG) : nat :=
  match c with
  | MSendRoot | MSend _ _ => 1
  | _ => 0
  end.

(** Workers that have not called [wg.Done()]. *)
Definition liveW (w : worker) : nat :=
  match w with Exit => 0 | _ => 1 end.

(* ------------------------------------------------------------------ *)
(** *** A bound on the steps a state can still take *)

Fixpoint wSub (e : entry) : nat :=
  match e with
  | Folder _ (Some es) => list_sum (map (fun x => 12 + wSub x) es)
  | _ => 0
  end.

Definition wEntries (es : list entry) : nat :=
  list_sum (map (fun x => 12 + wSub x) es).

Definition wList (l : option (list entry)) : nat :=
  match l with None => 0 | Some es => 1 + wEntries es end.

Definition wLoc (l : loc) (e : entry) : nat :=
  match l with
  | AtScan => 10 + wSub e
  | AtDir => 8 + wSub e
  | AtAppend => 2
  | AtFound => 1
  end.

Definition wF (f : frame) : nat :=
  match f with
  | Head _ es => 1 + wEntries es
  | Body l _ e rest => wLoc l e + (1 + wEntries rest)
  end.

Definition wQ (d : dirref) : nat := 3 + wList (dlist d).

Definition wW (w : worker) : nat :=
  match w with
  | Recv => 2
  | Got d => 4 + wList (dlist d)
  | Run f => wF f + 3
  | Send _ e rest => 10 + wSub e + (1 + wEntries rest)
  | Inline calls _ _ rest => list_sum (map wF calls) + 6 + (1 + wEntries rest)
  | Fin => 3
  | Leave => 1
  | Exit => 0
  end.

Definition wSeeds (es : list entry) : nat :=
  list_sum (map (fun x => 7 + wSub x) es) + 4.

Definition wM (c : mainG) : nat :=
  match c with
  | MAddRoot => 5 + wList rootList + wSeeds (match rootList with Some es => es | None => [] end)
  | MSendRoot => 4 + wList rootList + wSeeds (match rootList with Some es => es | None => [] end)
  | MAdd e rest => 6 + wSub e + wSeeds rest
  | MSend e rest => 5 + wSub e + wSeeds rest
  | MGo => 4
  | MWait => 1
  | MRet _ => 0
  end.

Definition wC (c : closerG) : nat :=
  match c with
  | CNotStarted | CWait => 2
  | CClose => 1
  | CEnd => 0
  end.

Definition weight (s : state) : nat :=
  wM (caller s) + wC (closer s) + list_sum (map wQ (dirQueue (mem s)))
  + list_sum (map wW (workers s)).


(** What is left to do after a step inside the loop. *)
Definition todoA (a : after) : list string :=
  match a with
  | Continue f => todoF f
  | LoopExit => []
  | SubDir dir e rest => todoF (Body AtDir dir e rest)
  end.

Definition scanA (a : after) : nat :=
  match a with
  | Continue f => scanF f
  | LoopExit => 0
  | SubDir dir e rest => scanF (Body AtDir dir e rest)
  end.

Definition atFoundA (a : after) : nat :=
  match a with
  | Continue f => atFoundF f
  | _ => 0
  end.

Definition wA (a : after) : nat :=
  match a with
  | Continue f => wF f
  | LoopExit => 0
  | SubDir dir e rest => wF (Body AtDir dir e rest)
  end.

(* ------------------------------------------------------------------ *)
(** *** Invariants of the two wait groups and the channel *)

(** The worker has left its [range] loop. *)
Definition exited (w : worker) : bool :=
  match w with Leave | Exit => true | _ => false end.

(** The caller has passed its [go] statement. *)
Definition started (c : mainG) : bool :=
  match c with MWait | MRet _ => true | _ => false end.

Record inv (s : state) : Prop := {
  (* [pending] counts the queued directories and the units held *)
  inv_pending :
    pending (mem s)
    = Z.of_nat (List.length (dirQueue (mem s)) + holdsM (caller s)
                + list_sum (map holdsW (workers s)));
  (* [wg] counts the workers that have not ended *)
  inv_wg : wg (mem s) = Z.of_nat (list_sum (map liveW (workers s)));
  (* the closing goroutine exists once the caller has started it *)
  inv_closer : closer s = CNotStarted <-> started (caller s) = false;
  (* past [pending.Wait()] the counter is zero *)
  inv_drained : closer s = CClose \/ closer s = CEnd -> pending (mem s) = 0%Z;
  inv_closed : closed (mem s) = true <-> closer s = CEnd;
  (* a worker leaves its loop only on the closed channel *)
  inv_exited : forall w, In w (workers s) -> exited w = true -> closed (mem s) = true;
  (* the caller returns after all workers *)
  inv_ret : forall a, caller s = MRet a -> forall w, In w (workers s) -> w = Exit
}.

(** The answer built from the shared memory at the return. *)
Definition answerOf (m : shared) : answer :=
  {| matches := GoSort.Strings (matched m);
     scannedCount := scanned m;
     err := rootErr |}.

(** A state in which no directory was cut short by the cap. *)
Record uncut (s : state) : Prop := {
  uncut_paths :
    forall x, occ x (matched (mem s)) + occ x (todo s) = occ x traversal;
  uncut_found :
    (0 <= found (mem s))%Z /\
    (found (mem s) + Z.of_nat (list_sum (map atFoundW (workers s)))
     = Z.of_nat (List.length (matched (mem s))))%Z;
  uncut_scans :
    cong64 (scanned (mem s) + Z.of_nat (scanTodo s)) (Z.of_nat scans)
}.

(* ------------------------------------------------------------------ *)
(** *** The part of the tree a search looks at *)

(** The directories that are listed: the root, and in a listed
    directory every entry that is not skipped and can be read.  [trail]
    holds the entries walked from the root, the last one first. *)
Inductive listed : list entry -> string -> list entry -> Prop :=
| listed_root es :
    rootList = Some es -> listed [] root es
| listed_sub trail dir es e es' :
    listed trail dir es -> In e es -> skipped e = false ->
    ReadDir e = Some es' ->
    listed (e :: trail) (Join dir (Name e)) es'.

(** The entry [e] is visited under the path [p]: it is an entry of a
    listed directory and is not skipped; [trail] leads to it. *)
Definition visits (trail : list entry) (p : string) (e : entry) : Prop :=
  exists dir es,
    listed trail dir es /\ In e es /\ skipped e = false /\ p = Join dir (Name e).

(** The match test of the loop in terms of the name and the path. *)
Definition textMatches (name path : string) : bool :=
  Contains (ToLower name) query || Contains (ToLower path) query.

(** The path reached from [root] along the names of a trail. *)
Definition pathOf (trail : list entry) : string :=
  fold_right (fun e dir => Join dir (Name e)) root trail.

(** The state reached by the run that follows [sched] and then lets the
    first goroutine that can move take each of at most [fuel] further
    steps, and the answer when the caller has returned in it. *)
Definition endState (n : nat) (sched : list tid) (fuel : nat) : option state :=
  option_map (exec fuel) (run sched (start n)).

Definition outcome (n : nat) (sched : list tid) (fuel : nat) : option answer :=
  match endState n sched fuel with
  | Some s =>
      match caller s with
      | MRet a => Some a
      | _ => None
      end
  | None => None
  end.

(* ------------------------------------------------------------------ *)
(** *** Sizes *)

(** The number of entries of a tree, the entry itself included. *)
Fixpoint entryCount (e : entry) : nat :=
  1 + match e with
      | Folder _ (Some es) => list_sum (map entryCount es)
      | _ => 0
      end.

(** The number of entries below the root. *)
Definition treeCount : nat :=
  match rootList with
  | None => 0
  | Some es => list_sum (map entryCount es)
  end.

(** The tree in which every directory that cannot be read is empty. *)
Fixpoint emptied (e : entry) : entry :=
  match e with
  | File n => File n
  | Folder n None => Folder n (Some [])
  | Folder n (Some es) => Folder n (Some (map emptied es))
  end.

(** An upper-case ASCII letter. *)
Definition isUpper (c : ascii) : bool :=
  let n := N_of_ascii c in ((65 <=? n) && (n <=? 90))%N.

Definition hasUpper (s : string) : bool :=
  existsb isUpper (list_ascii_of_string s).

(** The accounting of the recorded paths in a state of a run: nothing
    is recorded that the traversal does not record, [found] counts the
    recorded paths but for those whose increment is still to come, and
    as long as [found] is below the cap nothing of the traversal is
    lost. *)
Record counted (s : state) : Prop := {
  cnt_sound :
    forall x, occ x (matched (mem s)) + occ x (todo s) <= occ x traversal;
  cnt_found :
    (0 <= found (mem s))%Z /\
    (found (mem s) + Z.of_nat (list_sum (map atFoundW (workers s)))
     = Z.of_nat (List.length (matched (mem s))))%Z;
  cnt_cut :
    (forall x, occ x (matched (mem s)) + occ x (todo s) = occ x traversal)
    \/ (maxResults <= found (mem s))%Z
}.

(* ------------------------------------------------------------------ *)
(** *** A worker recording a run of files *)

(** The state after worker [i], at the head of its loop over
    [files ++ rest] in [dir], has scanned and recorded each of [files]
    while no other goroutine moved. *)
Definition recorded (i : nat) (dir : string) (files rest : list entry)
  (s : state) : state :=
  {| mem :=
       {| scanned := scanned (mem s) + Z.of_nat (List.length files);
          found := found (mem s) + Z.of_nat (List.length files);
          matched := matched (mem s) ++ map (fun e => Join dir (Name e)) files;
          pending := pending (mem s);
          wg := wg (mem s);
          dirQueue := dirQueue (mem s);
          closed := closed (mem s) |};
     caller := caller s;
     closer := closer s;
     workers := setNth i (Run (Head dir rest)) (workers s) |}.

(** The state after the schedule [sched], when every goroutine of it can
    move at its turn. *)
Definition runs (sched : list tid) (s : state) : bool :=
  match run sched s with Some _ => true | None => false end.

Definition afterRun (sched : list tid) (s : state) : state :=
  match run sched s with Some s' => s' | None => s end.

Definition isRet (c : mainG) : bool :=
  match c with MRet _ => true | _ => false end.

(* ------------------------------------------------------------------ *)
(** *** How far the cap can be passed *)

(** The levels of readable directories in an entry: 0 for a file or a
    directory that cannot be read. *)
Fixpoint height (e : entry) : nat :=
  match e with
  | Folder _ (Some es) => 1 + list_max (map height es)
  | _ => 0
  end.

Definition heights (es : list entry) : nat := list_max (map height es).

(** The same for a listing that may have failed. *)
Definition depth (l : option (list entry)) : nat :=
  match l with
  | None => 0
  | Some es => heights es
  end.

(** The entries an activation of the loop still holds. *)
Definition entriesF (f : frame) : list entry :=
  match f with
  | Head _ es => es
  | Body _ _ e rest => e :: rest
  end.

(** The activations of [walkInline] on top of each other, the innermost
    first, fit below a directory of [h] levels. *)
Fixpoint stacked (h : nat) (calls : list frame) : Prop :=
  match calls with
  | [] => True
  | f :: calls' =>
      heights (entriesF f) + List.length calls <= h /\ stacked h calls'
  end.

(** No goroutine holds an entry of more than [h] levels, and the calls
    of [walkInline] of a worker are nested in the directory it walks. *)
Definition tallW (h : nat) (w : worker) : Prop :=
  match w with
  | Got d => depth (dlist d) <= h
  | Run f => heights (entriesF f) <= h
  | Send _ e rest => heights (e :: rest) <= h
  | Inline calls _ e rest => heights (e :: rest) <= h /\ stacked (height e) calls
  | Recv | Fin | Leave | Exit => True
  end.

Definition tallM (h : nat) (c : mainG) : Prop :=
  match c with
  | MAddRoot | MSendRoot => depth rootList <= h
  | MAdd e rest | MSend e rest => heights (e :: rest) <= h
  | MGo | MWait | MRet _ => True
  end.

Record tall (h : nat) (s : state) : Prop := {
  tall_caller : tallM h (caller s);
  tall_queue : forall d, In d (dirQueue (mem s)) -> depth (dlist d) <= h;
  tall_workers : forall w, In w (workers s) -> tallW h w
}.

(** Entries that have passed the cap test at the head of the loop and
    may still be recorded and counted. *)
Definition aheadF (f : frame) : nat :=
  match f with
  | Body _ _ _ _ => 1
  | Head _ _ => 0
  end.

Definition aheadW (w : worker) : nat :=
  match w with
  | Run f => aheadF f
  | Send _ _ _ => 1
  | Inline calls _ _ _ => list_sum (map aheadF calls) + 1
  | Got _ | Recv | Fin | Leave | Exit => 0
  end.

(** Entries that are counted in [scanned] and may still be recorded. *)
Definition scannedF (f : frame) : nat :=
  match f with
  | Body AtDir _ _ _ | Body AtAppend _ _ _ => 1
  | _ => 0
  end.

Definition scannedW (w : worker) : nat :=
  match w with
  | Run f => scannedF f
  | Send _ _ _ => 1
  | Inline calls _ _ _ => list_sum (map scannedF calls) + 1
  | Got _ | Recv | Fin | Leave | Exit => 0
  end.

Definition aheadA (a : after) : nat :=
  match a with
  | Continue f => aheadF f
  | LoopExit => 0
  | SubDir _ _ _ => 1
  end.

Definition scannedA (a : after) : nat :=
  match a with
  | Continue f => scannedF f
  | LoopExit => 0
  | SubDir _ _ _ => 1
  end.

(** [found], with the entries that have passed the cap test, stays
    below the cap plus what [n] workers can hold in a tree of [h]
    levels. *)
Definition capped (n h : nat) (s : state) : Prop :=
  (found (mem s) + Z.of_nat (list_sum (map aheadW (workers s)))
   <= maxResults - 1 + Z.of_nat (n * (1 + h)))%Z.

(** The scan counter between the recorded paths and the entries of the
    complete traversal. *)
Record metered (s : state) : Prop := {
  met_upper :
    (scanned (mem s) + Z.of_nat (scanTodo s) <= Z.of_nat scans)%Z;
  met_lower :
    (Z.of_nat (List.length (matched (mem s))
               + list_sum (map scannedW (workers s)))
     <= scanned (mem s))%Z
}.

(* ================================================================== *)
(** ** The library functions on examples *)

Example Join_plain : GoPath.Join "root" "abc" = "root/abc".
Proof. reflexivity. Qed.

Example Join_root : GoPath.Join "/" "etc" = "/etc".
Proof. reflexivity. Qed.

Example Join_trailing : GoPath.Join "/home/u/" "x.txt" = "/home/u/x.txt".
Proof. reflexivity. Qed.

Example Join_dots : GoPath.Join "a/./b/../c" "d" = "a/c/d".
Proof. reflexivity. Qed.

Example Join_updir : GoPath.Join "../.." "d" = "../../d".
Proof. reflexivity. Qed.

Example Join_here : GoPath.Join "." "d" = "d".
Proof. reflexivity. Qed.

Example Clean_rooted_up : GoPath.Clean "/../a//b/" = "/a/b".
Proof. reflexivity. Qed.

Example Clean_to_dot : GoPath.Clean "a/b/../.." = ".".
Proof. reflexivity. Qed.

Example Clean_above : GoPath.Clean "../a/../.." = "../..".
Proof. reflexivity. Qed.

Example ToLower_mixed : GoStrings.ToLower "Program Files (x86)" = "program files (x86)".
Proof. reflexivity. Qed.

Example Contains_inner : GoStrings.Contains "root/abc/report.txt" "abc" = true.
Proof. reflexivity. Qed.

Example Contains_not : GoStrings.Contains "report.txt" "abc" = false.
Proof. reflexivity. Qed.

Example Strings_bytes :
  GoSort.Strings ["root/abc"; "root/ABC123"; "root"] = ["root"; "root/ABC123"; "root/abc"].
Proof. reflexivity. Qed.

(* ================================================================== *)
(** ** Lists of goroutines *)

Lemma nth_error_setNth_same {A} (l : list A) i x y :
  nth_error l i = Some y -> nth_error (setNth i x l) i = Some x.
Proof.
  revert i; induction l as [|a l IH]; intros [|i] H; simpl in *;
    try discriminate; auto.
Qed.

Lemma nth_error_setNth_other {A} (l : list A) i j x :
  i <> j -> nth_error (setNth i x l) j = nth_error l j.
Proof.
  revert i j; induction l as [|a l IH]; intros [|i] [|j] H; simpl; auto.
  congruence.
Qed.

Lemma length_setNth {A} (l : list A) i x :
  List.length (setNth i x l) = List.length l.
Proof.
  revert i; induction l as [|a l IH]; intros [|i]; simpl; auto.
Qed.

Lemma In_setNth {A} (l : list A) i x y :
  In y (setNth i x l) -> y = x \/ In y l.
Proof.
  revert i; induction l as [|a l IH]; intros [|i]; simpl; auto.
  - intros [H|H]; auto.
  - intros [H|H]; auto. destruct (IH _ H); auto.
Qed.

Lemma In_setNth_new {A} (l : list A) i x y :
  nth_error l i = Some y -> In x (setNth i x l).
Proof.
  revert i; induction l as [|a l IH]; intros [|i] H; simpl in *;
    try discriminate; eauto.
Qed.

(** Replacing the [i]-th goroutine changes a sum over the goroutines by
    the difference at [i]. *)
Lemma sum_setNth {A} (g : A -> nat) (l : list A) i x y :
  nth_error l i = Some y ->
  list_sum (map g (setNth i x l)) + g y = list_sum (map g l) + g x.
Proof.
  revert i; induction l as [|a l IH]; intros [|i] H; simpl in *;
    try discriminate.
  - inversion H; subst. lia.
  - specialize (IH _ H). lia.
Qed.

Lemma list_sum_zero {A} (g : A -> nat) (l : list A) :
  list_sum (map g l) = 0 <-> (forall x, In x l -> g x = 0).
Proof.
  induction l as [|a l IH]; simpl.
  - split; [intros _ x [] | auto].
  - split.
    + intros H x [<-|Hx]; [lia|]. apply IH; [lia | assumption].
    + intros H. rewrite (H a) by auto. apply IH. auto.
Qed.

Lemma list_sum_In_le {A} (g : A -> nat) (l : list A) x :
  In x l -> g x <= list_sum (map g l).
Proof.
  induction l as [|a l IH]; simpl; [intros []|].
  intros [<-|H]; [lia|]. specialize (IH H). lia.
Qed.


Lemma occ_nil x : occ x [] = 0.
Proof. reflexivity. Qed.

Lemma occ_app x l1 l2 : occ x (l1 ++ l2) = occ x l1 + occ x l2.
Proof. apply count_occ_app. Qed.

Lemma occ_cons x p l : occ x (p :: l) = occ x [p] + occ x l.
Proof. unfold occ; simpl. destruct (string_dec p x); reflexivity. Qed.

Lemma occ_flat_map {A} x (f : A -> list string) (l : list A) :
  occ x (flat_map f l) = list_sum (map (fun a => occ x (f a)) l).
Proof.
  induction l as [|a l IH]; simpl; [reflexivity|].
  rewrite occ_app, IH. reflexivity.
Qed.

Lemma occ_In x l : In x l <-> 0 < occ x l.
Proof. unfold occ. rewrite (count_occ_In string_dec). lia. Qed.

Lemma occ_Permutation l1 l2 :
  Permutation l1 l2 <-> (forall x, occ x l1 = occ x l2).
Proof. apply (Permutation_count_occ string_dec). Qed.

Lemma occ_length_le l1 l2 :
  (forall x, occ x l1 <= occ x l2) -> List.length l1 <= List.length l2.
Proof.
  revert l2; induction l1 as [|a l1 IH]; intros l2 H; simpl; [lia|].
  assert (Ha : In a l2).
  { apply occ_In. specialize (H a). rewrite occ_cons in H.
    unfold occ at 1 in H. simpl in H. destruct (string_dec a a); [lia|congruence]. }
  destruct (in_split _ _ Ha) as (u & v & ->).
  rewrite length_app. simpl.
  enough (List.length l1 <= List.length (u ++ v)) by (rewrite length_app in *; lia).
  apply IH. intros x. specialize (H x).
  rewrite occ_cons, !occ_app, (occ_cons x a v) in H. rewrite occ_app. lia.
Qed.

(* ================================================================== *)
(** ** One step inside the loop *)

Lemma walkEntry_eq dir e :
  walkEntry dir e = if skipped e then [] else subWalk dir e ++ ownMatch dir e.
Proof.
  unfold subWalk, ownMatch, walkDir, childRef.
  destruct e as [n|n [es|]]; simpl; reflexivity.
Qed.

Lemma scanEntry_eq e :
  scanEntry e = 1 + if skipped e then 0 else subScan e.
Proof. destruct e as [n|n [es|]]; reflexivity. Qed.

Lemma wSub_eq e : wSub e = match ReadDir e with None => 0 | Some es => wEntries es end.
Proof. destruct e as [n|n [es|]]; reflexivity. Qed.

Lemma stepFrame_mem f m a m' :
  stepFrame f m = (a, m') ->
  pending m' = pending m /\ wg m' = wg m /\ dirQueue m' = dirQueue m
  /\ closed m' = closed m.
Proof.
  destruct f as [dir [|e rest]|[] dir e rest]; simpl;
    try destruct (maxResults <=? found m)%Z;
    intros H; inversion H; subst; simpl; auto.
Qed.

Lemma walkEntries_cons dir e rest :
  walkEntries dir (e :: rest) = walkEntry dir e ++ walkEntries dir rest.
Proof. reflexivity. Qed.

Lemma scanEntries_cons e rest :
  scanEntries (e :: rest) = scanEntry e + scanEntries rest.
Proof. reflexivity. Qed.

Lemma wEntries_cons e rest :
  wEntries (e :: rest) = 12 + wSub e + wEntries rest.
Proof. reflexivity. Qed.


Lemma wrap64_cong z : cong64 (wrap64 z) z.
Proof.
  unfold cong64, wrap64. exists (- ((z + 2 ^ 63) / 2 ^ 64))%Z.
  pose proof (Z.div_mod (z + 2 ^ 63) (2 ^ 64) ltac:(lia)). lia.
Qed.

Lemma wrap64_small z : (- 2 ^ 63 <= z < 2 ^ 63)%Z -> wrap64 z = z.
Proof.
  intros H. unfold wrap64. rewrite Z.mod_small; lia.
Qed.

Lemma wrap64_range z : (- 2 ^ 63 <= wrap64 z < 2 ^ 63)%Z.
Proof.
  unfold wrap64. pose proof (Z.mod_pos_bound (z + 2 ^ 63) (2 ^ 64) ltac:(lia)). lia.
Qed.

Lemma cong64_wrap a b : cong64 a b -> wrap64 a = wrap64 b.
Proof.
  intros [k ->]. unfold wrap64.
  replace (b + k * 2 ^ 64 + 2 ^ 63)%Z with (b + 2 ^ 63 + k * 2 ^ 64)%Z by lia.
  rewrite Z.mod_add by lia. reflexivity.
Qed.

Lemma subWalk_file dir e : IsDir e = false -> subWalk dir e = [].
Proof. destruct e; [reflexivity | discriminate]. Qed.

Lemma subScan_file e : IsDir e = false -> subScan e = 0.
Proof. destruct e; [reflexivity | discriminate]. Qed.

Ltac split_ifs :=
  repeat match goal with
    | |- context [if ?c then _ else _] => destruct c eqn:?
    end.

Ltac use_eqs :=
  repeat match goal with
    | H : ?c = true |- context [?c] => rewrite H
    | H : ?c = false |- context [?c] => rewrite H
    end.

Ltac occ_conses :=
  repeat match goal with
    | |- context [occ ?x (?p :: ?l)] =>
        lazymatch l with
        | nil => fail
        | _ => rewrite (occ_cons x p l)
        end
    end.

Ltac frame_cases H :=
  inversion H; subst; clear H;
  unfold classify, matchNext in *; split_ifs;
  cbn [todoA todoF scanA scanF atFoundA atFoundF wA wF wLoc
       matched scanned found setMatched setScanned setFound];
  rewrite ?walkEntries_cons, ?scanEntries_cons, ?wEntries_cons;
  rewrite ?walkEntry_eq, ?scanEntry_eq; unfold ownMatch; use_eqs;
  repeat match goal with
    | H : IsDir ?e = false |- _ =>
        rewrite ?(subWalk_file _ _ H), ?(subScan_file _ H)
    end;
  rewrite ?occ_app, ?occ_nil; occ_conses; rewrite ?occ_app, ?occ_nil.

Lemma stepFrame_occ f m a m' x :
  stepFrame f m = (a, m') ->
  occ x (matched m') + occ x (todoA a) <= occ x (matched m) + occ x (todoF f)
  /\ ((found m < maxResults)%Z ->
      occ x (matched m') + occ x (todoA a) = occ x (matched m) + occ x (todoF f)).
Proof.
  destruct f as [dir [|e rest]|[] dir e rest]; simpl;
    try destruct (maxResults <=? found m)%Z eqn:Hcap;
    intros H; frame_cases H; try lia.
Qed.


Lemma stepFrame_scan f m a m' :
  stepFrame f m = (a, m') ->
  (scanned m' = scanned m \/ scanned m' = AddInt64 (scanned m) 1)
  /\ ((found m < maxResults)%Z ->
      cong64 (scanned m' + Z.of_nat (scanA a)) (scanned m + Z.of_nat (scanF f))).
Proof.
  destruct f as [dir [|e rest]|[] dir e rest]; simpl;
    try destruct (maxResults <=? found m)%Z eqn:Hcap;
    intros H; frame_cases H.
  all: split; [ try (left; reflexivity); right; reflexivity | intros Hlt ].
  all: try (exists 0%Z; lia).
  all: unfold AddInt64; destruct (wrap64_cong (scanned m + 1)) as [k Hk];
    rewrite Hk; exists k; lia.
Qed.

Lemma stepFrame_found f m a m' :
  stepFrame f m = (a, m') ->
  (0 <= found m < maxResults)%Z ->
  (0 <= found m')%Z /\
  (Z.of_nat (List.length (matched m')) - found m' - Z.of_nat (atFoundA a)
   = Z.of_nat (List.length (matched m)) - found m - Z.of_nat (atFoundF f))%Z.
Proof.
  destruct f as [dir [|e rest]|[] dir e rest]; simpl;
    try destruct (maxResults <=? found m)%Z eqn:Hcap;
    intros H; frame_cases H; intros Hf; rewrite ?length_app; simpl;
    unfold AddInt64; rewrite ?wrap64_small; unfold maxResults in *; lia.
Qed.

Lemma stepFrame_weight f m a m' :
  stepFrame f m = (a, m') ->
  match a with
  | SubDir dir e rest => f = Body AtDir dir e rest
  | _ => wA a < wF f
  end.
Proof.
  destruct f as [dir [|e rest]|[] dir e rest]; simpl;
    try destruct (maxResults <=? found m)%Z eqn:Hcap;
    intros H; frame_cases H; try reflexivity; lia.
Qed.

(* ================================================================== *)
(** ** One step of a worker *)

Lemma wgAdd_Some c d c' : wgAdd c d = Some c' -> (c' = c + d /\ 0 <= c + d)%Z.
Proof.
  unfold wgAdd. destruct (c + d <? 0)%Z eqn:E; intros H; inversion H.
  apply Z.ltb_ge in E. lia.
Qed.

Lemma wgAdd_None c d : wgAdd c d = None -> (c + d < 0)%Z.
Proof.
  unfold wgAdd. destruct (c + d <? 0)%Z eqn:E; intros H; inversion H.
  apply Z.ltb_lt in E. lia.
Qed.

Ltac worker_cases H :=
  match type of H with
  | stepWorker ?w ?m = _ =>
      destruct w as [ | d | f | dir e rest | [|f calls] dir e rest | | | ];
      simpl in H; unfold pendingDone in H;
      repeat match type of H with
        | context [stepFrame ?f ?m] =>
            let a := fresh "a" in
            let m1 := fresh "m1" in
            let Hf := fresh "Hf" in
            destruct (stepFrame f m) as [a m1] eqn:Hf; destruct a
        | context [wgAdd ?c ?d] =>
            let Hw := fresh "Hw" in
            destruct (wgAdd c d) eqn:Hw;
            [apply wgAdd_Some in Hw | apply wgAdd_None in Hw]
        | context [match dirQueue ?m with _ => _ end] =>
            let Hq := fresh "Hq" in destruct (dirQueue m) eqn:Hq
        | context [match dlist ?d with _ => _ end] =>
            let Hl := fresh "Hl" in destruct (dlist d) eqn:Hl
        | context [if ?c then _ else _] =>
            let Hc := fresh "Hc" in destruct c eqn:Hc
        end;
      try discriminate; inversion H; subst; clear H
  end.

Ltac frame_mem :=
  try match goal with
    | Hf : stepFrame _ _ = _ |- _ =>
        let Hp := fresh "Hp" in
        let Hw := fresh "Hw" in
        let Hq := fresh "Hq" in
        let Hc := fresh "Hc" in
        destruct (stepFrame_mem _ _ Hf) as (Hp & Hw & Hq & Hc);
        rewrite ?Hp, ?Hw, ?Hq, ?Hc in *
    end.

Lemma stepWorker_ctl w m w' m' :
  stepWorker w m = Next (w', m') ->
  (pending m' - Z.of_nat (List.length (dirQueue m') + holdsW w')
   = pending m - Z.of_nat (List.length (dirQueue m) + holdsW w))%Z
  /\ (wg m' - Z.of_nat (liveW w') = wg m - Z.of_nat (liveW w))%Z
  /\ closed m' = closed m
  /\ (exited w' = true -> exited w = true \/ closed m = true)
  /\ (dirQueue m = [] -> holdsW w = 0 -> pending m' = pending m).
Proof.
  intros H. worker_cases H; frame_mem; simpl;
    rewrite ?length_app;
    repeat match goal with H : dirQueue _ = _ |- _ => rewrite H end;
    simpl; repeat split; auto; try congruence; try lia.
Qed.

Lemma stepWorker_safe w m :
  (Z.of_nat (holdsW w) <= pending m)%Z ->
  (Z.of_nat (liveW w) <= wg m)%Z ->
  (closed m = true -> holdsW w = 0) ->
  stepWorker w m <> Panic.
Proof.
  intros Hp Hw Hc H. worker_cases H; frame_mem; simpl in *; lia.
Qed.

Lemma stepWorker_blocked w m :
  stepWorker w m = Blocked ->
  (w = Recv /\ dirQueue m = [] /\ closed m = false) \/ w = Exit.
Proof.
  intros H. worker_cases H; auto.
Qed.

Lemma walkDir_childRef dir e : walkDir (childRef dir e) = subWalk dir e.
Proof. reflexivity. Qed.

Lemma subWalk_callInline dir e calls :
  flat_map todoF (callInline dir e calls) = subWalk dir e ++ flat_map todoF calls.
Proof.
  unfold callInline, subWalk, walkDir, childRef; simpl.
  destruct (ReadDir e); reflexivity.
Qed.

Lemma todoF_matchNext dir e rest :
  todoF (matchNext dir e rest) = ownMatch dir e ++ walkEntries dir rest.
Proof.
  unfold matchNext, ownMatch. destruct (isMatch dir e); reflexivity.
Qed.

Lemma walkDir_Some d es : dlist d = Some es -> walkDir d = walkEntries (dpath d) es.
Proof. unfold walkDir. intros ->. reflexivity. Qed.

Lemma walkDir_None d : dlist d = None -> walkDir d = [].
Proof. unfold walkDir. intros ->. reflexivity. Qed.

Ltac occ_simpl :=
  cbn [todoW todoA todoF matched dirQueue found setQueue setPending setWg
       flat_map];
  rewrite ?flat_map_app; cbn [flat_map];
  rewrite ?walkDir_childRef, ?subWalk_callInline, ?todoF_matchNext,
    ?app_nil_r;
  cbn [flat_map];
  rewrite ?occ_app, ?occ_nil; occ_conses; rewrite ?occ_app, ?occ_nil.

Ltac mem_eqs :=
  repeat match goal with
    | H : dirQueue _ = _ |- _ => rewrite H
    | H : pending _ = _ |- _ => rewrite H
    | H : dlist _ = Some _ |- _ => rewrite (walkDir_Some _ H)
    | H : dlist _ = None |- _ => rewrite (walkDir_None _ H)
    end.

Lemma stepWorker_occ w m w' m' x :
  stepWorker w m = Next (w', m') ->
  occ x (matched m') + occ x (flat_map walkDir (dirQueue m')) + occ x (todoW w')
  <= occ x (matched m) + occ x (flat_map walkDir (dirQueue m)) + occ x (todoW w)
  /\ ((found m < maxResults)%Z ->
      occ x (matched m') + occ x (flat_map walkDir (dirQueue m')) + occ x (todoW w')
      = occ x (matched m) + occ x (flat_map walkDir (dirQueue m)) + occ x (todoW w)).
Proof.
  intros H. worker_cases H;
    try match goal with
      | Hf : stepFrame _ _ = _ |- _ =>
          pose proof (stepFrame_occ _ _ x Hf) as [Hle Heq];
          pose proof (stepFrame_weight _ _ Hf) as Hsub;
          cbn beta iota in Hsub; try (subst f);
          destruct (stepFrame_mem _ _ Hf) as (_ & _ & Hq1 & _);
          revert Hle Heq
      end;
    occ_simpl; mem_eqs; occ_simpl.
  all: try (split; [lia | intros; lia]).
  all: intros; split; [lia | intros Hlt; specialize (Heq Hlt); lia].
Qed.

Lemma scanDir_childRef dir e : scanDir (childRef dir e) = subScan e.
Proof. reflexivity. Qed.

Lemma scanDir_Some d es : dlist d = Some es -> scanDir d = scanEntries es.
Proof. unfold scanDir. intros ->. reflexivity. Qed.

Lemma scanDir_None d : dlist d = None -> scanDir d = 0.
Proof. unfold scanDir. intros ->. reflexivity. Qed.

Lemma scanF_callInline dir e calls :
  list_sum (map scanF (callInline dir e calls))
  = subScan e + list_sum (map scanF calls).
Proof.
  unfold callInline, subScan. destruct (ReadDir e); reflexivity.
Qed.

Lemma scanF_matchNext dir e rest : scanF (matchNext dir e rest) = scanEntries rest.
Proof. unfold matchNext. destruct (isMatch dir e); reflexivity. Qed.

Lemma atFoundF_matchNext dir e rest : atFoundF (matchNext dir e rest) = 0.
Proof. unfold matchNext. destruct (isMatch dir e); reflexivity. Qed.

Lemma atFoundF_callInline dir e calls :
  list_sum (map atFoundF (callInline dir e calls)) = list_sum (map atFoundF calls).
Proof. unfold callInline. destruct (ReadDir e); reflexivity. Qed.

Lemma wF_matchNext dir e rest : wF (matchNext dir e rest) <= 3 + wEntries rest.
Proof. unfold matchNext. destruct (isMatch dir e); simpl; lia. Qed.

Lemma wF_callInline dir e calls :
  list_sum (map wF (callInline dir e calls)) <= 1 + wSub e + list_sum (map wF calls).
Proof.
  unfold callInline. rewrite wSub_eq. destruct (ReadDir e); simpl; lia.
Qed.

Lemma wQ_childRef dir e : wQ (childRef dir e) <= 4 + wSub e.
Proof.
  unfold wQ, childRef, wList; simpl. rewrite wSub_eq. destruct (ReadDir e); lia.
Qed.

Lemma list_sum_snoc {A} (g : A -> nat) l x :
  list_sum (map g (l ++ [x])) = list_sum (map g l) + g x.
Proof. rewrite map_app, list_sum_app. simpl. lia. Qed.

Lemma list_sum_cons_eq a l : list_sum (a :: l) = a + list_sum l.
Proof. reflexivity. Qed.

Lemma list_sum_nil_eq : list_sum [] = 0.
Proof. reflexivity. Qed.

Ltac sums :=
  cbn [map]; rewrite ?list_sum_snoc, ?list_sum_cons_eq, ?list_sum_nil_eq.

Ltac sum_simpl :=
  repeat progress
    (cbn [scanW scanA scanF atFoundW atFoundA atFoundF
          matched dirQueue found scanned setQueue setPending setWg];
     sums;
     rewrite ?scanDir_childRef, ?scanF_callInline,
       ?scanF_matchNext, ?atFoundF_matchNext, ?atFoundF_callInline).

Lemma stepWorker_scan w m w' m' :
  stepWorker w m = Next (w', m') ->
  (scanned m' = scanned m \/ scanned m' = AddInt64 (scanned m) 1)
  /\ ((found m < maxResults)%Z ->
      cong64 (scanned m' + Z.of_nat (list_sum (map scanDir (dirQueue m')) + scanW w'))
             (scanned m + Z.of_nat (list_sum (map scanDir (dirQueue m)) + scanW w))).
Proof.
  intros H. worker_cases H;
    try match goal with
      | Hf : stepFrame _ _ = _ |- _ =>
          pose proof (stepFrame_scan _ _ Hf) as [Hor Heq];
          pose proof (stepFrame_weight _ _ Hf) as Hsub;
          cbn beta iota in Hsub; try (subst f);
          destruct (stepFrame_mem _ _ Hf) as (_ & _ & Hq1 & _);
          revert Hor Heq
      end;
    sum_simpl;
    repeat match goal with
      | H : dirQueue _ = _ |- _ => rewrite H
      | H : dlist _ = Some _ |- _ => rewrite (scanDir_Some _ H)
      | H : dlist _ = None |- _ => rewrite (scanDir_None _ H)
      end; sum_simpl.
  all: try (split; [left; reflexivity | intros; exists 0%Z; lia]).
  all: try (apply Z.leb_le in Hc; lia).
  all: intros Hor Heq; split; [exact Hor | intros Hlt; destruct (Heq Hlt) as [k Hk]; exists k; lia].
Qed.

Lemma stepWorker_found w m w' m' :
  stepWorker w m = Next (w', m') ->
  (0 <= found m < maxResults)%Z ->
  (0 <= found m')%Z /\
  (Z.of_nat (List.length (matched m')) - found m' - Z.of_nat (atFoundW w')
   = Z.of_nat (List.length (matched m)) - found m - Z.of_nat (atFoundW w))%Z.
Proof.
  intros H Hr. worker_cases H;
    try match goal with
      | Hf : stepFrame _ _ = _ |- _ =>
          pose proof (stepFrame_found _ _ Hf Hr) as [Hpos Heq];
          pose proof (stepFrame_weight _ _ Hf) as Hsub;
          cbn beta iota in Hsub; try (subst f);
          revert Hpos Heq
      end;
    sum_simpl; intros; lia.
Qed.

Ltac weigh :=
  repeat match goal with
    | |- context [callInline ?d ?e ?c] =>
        generalize (wF_callInline d e c);
        generalize (list_sum (map wF (callInline d e c))); intros ?; sums
    end;
  repeat match goal with
    | |- context [matchNext ?d ?e ?r] =>
        generalize (wF_matchNext d e r);
        generalize (wF (matchNext d e r)); intros ?
    end;
  repeat match goal with
    | |- context [childRef ?d ?e] =>
        generalize (wQ_childRef d e);
        generalize (wQ (childRef d e)); intros ?
    end;
  cbn [wA wF wLoc wList wQ wW]; intros.

Lemma stepWorker_weight w m w' m' :
  stepWorker w m = Next (w', m') ->
  list_sum (map wQ (dirQueue m')) + wW w' < list_sum (map wQ (dirQueue m)) + wW w.
Proof.
  intros H. worker_cases H;
    try match goal with
      | Hf : stepFrame _ _ = _ |- _ =>
          pose proof (stepFrame_weight _ _ Hf) as Hsub;
          cbn beta iota in Hsub;
          destruct (stepFrame_mem _ _ Hf) as (_ & _ & Hq1 & _);
          first [subst f | revert Hsub]
      end;
    cbn [wW dirQueue setQueue setPending setWg]; sums;
    repeat match goal with
      | H : dirQueue _ = _ |- _ => rewrite H
      end;
    sums; weigh;
    repeat match goal with
      | H : dlist _ = _ |- _ => rewrite H
      end;
    cbn [wList]; unfold wQ; lia.
Qed.

(* ================================================================== *)
(** ** One step of the caller and of the closing goroutine *)

Lemma seedNext_spec es :
  match seedNext es with
  | MAdd e rest => seeds es = childRef root e :: seeds rest
                   /\ wSeeds rest + 7 + wSub e <= wSeeds es
  | MGo => seeds es = []
  | _ => False
  end.
Proof.
  unfold seeds, wSeeds. induction es as [|e es IH];
    cbn [seedNext filter map]; [reflexivity|].
  destruct (IsDir e && negb (skipped e)); cbn [map]; sums.
  - split; [reflexivity | lia].
  - destruct (seedNext es); try contradiction; try assumption.
    destruct IH as [IH1 IH2]. split; [assumption | lia].
Qed.

Ltac main_cases H :=
  match type of H with
  | stepMain ?c ?m = _ =>
      destruct c as [ | | e rest | e rest | | | a ];
      simpl in H; unfold sendBlocking in H;
      repeat match type of H with
        | context [wgAdd ?c ?d] =>
            let Hw := fresh "Hw" in
            destruct (wgAdd c d) eqn:Hw;
            [apply wgAdd_Some in Hw | apply wgAdd_None in Hw]
        | context [if ?c then _ else _] =>
            let Hc := fresh "Hc" in destruct c eqn:Hc
        end;
      try discriminate; inversion H; subst; clear H
  end.

Lemma stepMain_ctl c m c' m' :
  stepMain c m = Next (c', m') ->
  (pending m' - Z.of_nat (List.length (dirQueue m') + holdsM c')
   = pending m - Z.of_nat (List.length (dirQueue m) + holdsM c))%Z
  /\ wg m' = wg m /\ closed m' = closed m
  /\ matched m' = matched m /\ scanned m' = scanned m /\ found m' = found m
  /\ (started c = true -> pending m' = pending m).
Proof.
  intros H. main_cases H; simpl; rewrite ?length_app; simpl;
    repeat match goal with
      | |- context [seedNext ?es] =>
          let Hs := fresh "Hs" in
          pose proof (seedNext_spec es) as Hs;
          destruct (seedNext es); try contradiction
      | |- context [match rootList with _ => _ end] => destruct rootList
      end; simpl;
    repeat split; auto; try (intros; discriminate); lia.
Qed.

Lemma stepMain_started c m c' m' :
  stepMain c m = Next (c', m') ->
  (c = MGo /\ c' = MWait)
  \/ (c = MWait /\ wg m = 0%Z /\ exists a, c' = MRet a)
  \/ (c <> MGo /\ started c = false /\ started c' = false).
Proof.
  intros H. main_cases H; auto.
  all: try (right; right; repeat split; try discriminate;
            repeat match goal with
              | |- context [seedNext ?es] =>
                  let Hs := fresh "Hs" in
                  pose proof (seedNext_spec es) as Hs;
                  destruct (seedNext es); try contradiction
              | |- context [match rootList with _ => _ end] => destruct rootList
              end; reflexivity).
  right; left. apply Z.eqb_eq in Hc. eauto.
Qed.

Lemma stepMain_safe c m :
  (0 <= pending m)%Z ->
  (closed m = true -> started c = true) ->
  stepMain c m <> Panic.
Proof.
  intros Hp Hc H. main_cases H; try lia;
    specialize (Hc eq_refl); discriminate.
Qed.

Lemma stepMain_blocked c m :
  stepMain c m = Blocked ->
  (holdsM c = 1 /\ queueCap <= List.length (dirQueue m))
  \/ (c = MWait /\ wg m <> 0%Z)
  \/ (exists a, c = MRet a).
Proof.
  intros H. main_cases H; eauto.
  - left. apply Nat.ltb_ge in Hc0. auto.
  - left. apply Nat.ltb_ge in Hc0. auto.
  - right; left. apply Z.eqb_neq in Hc. auto.
Qed.

Lemma todoM_seedNext es : todoM (seedNext es) = flat_map walkDir (seeds es).
Proof.
  pose proof (seedNext_spec es) as H.
  destruct (seedNext es); try contradiction.
  - destruct H as [-> _]. reflexivity.
  - rewrite H. reflexivity.
Qed.

Lemma scanM_seedNext es : scanM (seedNext es) = list_sum (map scanDir (seeds es)).
Proof.
  pose proof (seedNext_spec es) as H.
  destruct (seedNext es); try contradiction.
  - destruct H as [-> _]. reflexivity.
  - rewrite H. reflexivity.
Qed.

Lemma wM_seedNext es : wM (seedNext es) <= wSeeds es.
Proof.
  pose proof (seedNext_spec es) as H.
  destruct (seedNext es); try contradiction.
  - destruct H as [_ H]. simpl. lia.
  - simpl. unfold wSeeds. lia.
Qed.

Lemma stepMain_occ c m c' m' x :
  stepMain c m = Next (c', m') ->
  occ x (flat_map walkDir (dirQueue m')) + occ x (todoM c')
  = occ x (flat_map walkDir (dirQueue m)) + occ x (todoM c).
Proof.
  intros H. main_cases H; cbn [dirQueue setQueue setPending];
    rewrite ?flat_map_app, ?occ_app, ?todoM_seedNext; cbn [flat_map todoM];
    rewrite ?app_nil_r, ?occ_app, ?occ_nil; try lia.
  - unfold traversal, sent. destruct rootList as [es|]; cbn [flat_map todoM];
      rewrite ?todoM_seedNext, ?occ_app, ?occ_nil; simpl; lia.
Qed.

Lemma stepMain_scan c m c' m' :
  stepMain c m = Next (c', m') ->
  list_sum (map scanDir (dirQueue m')) + scanM c'
  = list_sum (map scanDir (dirQueue m)) + scanM c.
Proof.
  intros H. main_cases H; cbn [dirQueue setQueue setPending];
    rewrite ?list_sum_snoc, ?scanM_seedNext; cbn [scanM]; sums; try lia.
  - unfold scans, sent. destruct rootList as [es|]; cbn [scanM]; sums;
      rewrite ?scanM_seedNext; sums; lia.
Qed.

Lemma stepMain_weight c m c' m' :
  stepMain c m = Next (c', m') ->
  list_sum (map wQ (dirQueue m')) + wM c' + match c with MGo => 2 | _ => 0 end
  < list_sum (map wQ (dirQueue m)) + wM c.
Proof.
  intros H. main_cases H; cbn [dirQueue setQueue setPending];
    rewrite ?list_sum_snoc; cbn [wM];
    repeat match goal with
      | |- context [seedNext ?es] =>
          generalize (wM_seedNext es); generalize (wM (seedNext es)); intros ? ?
      end;
    repeat match goal with
      | |- context [childRef ?d ?e] =>
          generalize (wQ_childRef d e); generalize (wQ (childRef d e)); intros ? ?
      end;
    try lia.
  all: unfold wQ; cbn [dlist]; destruct rootList as [es|]; cbn [wList wM wSeeds];
    try pose proof (wM_seedNext es);
    unfold wSeeds in *; sums; lia.
Qed.

Lemma stepCloser_spec c m c' m' :
  stepCloser c m = Next (c', m') ->
  (c = CWait /\ c' = CClose /\ pending m = 0%Z /\ m' = m)
  \/ (c = CClose /\ c' = CEnd /\ closed m = false /\ m' = setClosed true m).
Proof.
  destruct c; simpl; try discriminate.
  - destruct (pending m =? 0)%Z eqn:E; intros H; inversion H; subst.
    apply Z.eqb_eq in E. auto.
  - destruct (closed m) eqn:E; intros H; inversion H; subst. auto.
Qed.

(* ================================================================== *)
(** ** The invariants hold in every state of a run *)

Lemma step_cases t s s' :
  step t s = Next s' ->
  (t = TMain /\ exists c m,
      stepMain (caller s) (mem s) = Next (c, m)
      /\ s' = {| mem := m; caller := c;
                 closer := match caller s with MGo => CWait | _ => closer s end;
                 workers := workers s |})
  \/ (t = TCloser /\ exists c m,
      stepCloser (closer s) (mem s) = Next (c, m)
      /\ s' = {| mem := m; caller := caller s; closer := c; workers := workers s |})
  \/ (exists i w w' m,
      t = TWorker i /\ nth_error (workers s) i = Some w
      /\ stepWorker w (mem s) = Next (w', m)
      /\ s' = {| mem := m; caller := caller s; closer := closer s;
                 workers := setNth i w' (workers s) |}).
Proof.
  destruct t as [| |i]; simpl.
  - destruct (stepMain (caller s) (mem s)) as [| |[c m]] eqn:E; try discriminate.
    intros H; inversion H; subst. left. eauto.
  - destruct (stepCloser (closer s) (mem s)) as [| |[c m]] eqn:E; try discriminate.
    intros H; inversion H; subst. right; left. eauto.
  - destruct (nth_error (workers s) i) as [w|] eqn:Hw; try discriminate.
    destruct (stepWorker w (mem s)) as [| |[w' m]] eqn:E; try discriminate.
    intros H; inversion H; subst. right; right. exists i, w, w', m. auto.
Qed.

Lemma inv_start n : inv (start n).
Proof.
  assert (Hh : list_sum (map holdsW (repeat Recv n)) = 0).
  { apply list_sum_zero. intros x Hx. apply repeat_spec in Hx. subst. reflexivity. }
  assert (Hl : list_sum (map liveW (repeat Recv n)) = n).
  { induction n; simpl; auto. }
  constructor; simpl.
  - rewrite Hh. reflexivity.
  - rewrite Hl. reflexivity.
  - split; reflexivity.
  - intros [H|H]; discriminate.
  - split; discriminate.
  - intros w Hw. apply repeat_spec in Hw. subst. discriminate.
  - discriminate.
Qed.

Lemma inv_holds_zero s :
  inv s -> pending (mem s) = 0%Z ->
  dirQueue (mem s) = [] /\ holdsM (caller s) = 0
  /\ forall w, In w (workers s) -> holdsW w = 0.
Proof.
  intros I H. rewrite (inv_pending I) in H.
  repeat split.
  - destruct (dirQueue (mem s)); [reflexivity | simpl in H; lia].
  - lia.
  - apply list_sum_zero. lia.
Qed.

Lemma inv_step t s s' : inv s -> step t s = Next s' -> inv s'.
Proof.
  intros I H. apply step_cases in H.
  destruct H as [(-> & c & m & Hs & ->) | [(-> & c & m & Hs & ->) | (i & w & w' & m & -> & Hw & Hs & ->)]].
  - (* the caller *)
    destruct (stepMain_ctl _ _ Hs) as (Hp & Hg & Hc & _ & _ & _ & Hst).
    pose proof (stepMain_started _ _ Hs) as Hk.
    constructor; simpl.
    + rewrite (inv_pending I) in Hp. lia.
    + rewrite Hg. apply (inv_wg I).
    + destruct Hk as [(E & ->) | [(E & _ & a & ->) | (Hn & E1 & E2)]].
      * rewrite E. split; discriminate.
      * rewrite E. rewrite (inv_closer I), E. split; discriminate.
      * rewrite E2. apply (inv_closer I) in E1.
        destruct (caller s); try congruence; tauto.
    + intros Hd.
      assert (Hd' : closer s = CClose \/ closer s = CEnd).
      { destruct (caller s); auto. destruct Hd; discriminate. }
      assert (Hs' : started (caller s) = true).
      { destruct (started (caller s)) eqn:E; auto.
        apply (inv_closer I) in E. destruct Hd'; congruence. }
      rewrite (Hst Hs'). apply (inv_drained I Hd').
    + rewrite Hc, (inv_closed I).
      destruct (caller s) eqn:E; try tauto.
      assert (closer s = CNotStarted) by (apply (inv_closer I); rewrite E; reflexivity).
      split; intros; congruence.
    + intros w0 Hin He. rewrite Hc. eapply (inv_exited I); eauto.
    + intros a Ha w0 Hin.
      destruct Hk as [(_ & ->) | [(E & Hz & _) | (_ & _ & E2)]];
        [discriminate | | rewrite Ha in E2; discriminate].
      rewrite (inv_wg I) in Hz.
      assert (Hl : liveW w0 = 0).
      { apply (proj1 (list_sum_zero liveW (workers s))); [lia | assumption]. }
      destruct w0; simpl in Hl; try discriminate. reflexivity.
  - (* the closing goroutine *)
    apply stepCloser_spec in Hs.
    destruct Hs as [(Ec & -> & Hp & ->) | (Ec & -> & Hcl & ->)].
    + constructor; simpl; try apply I.
      * rewrite <- (inv_closer I), Ec. split; discriminate.
      * auto.
      * rewrite (inv_closed I), Ec. split; discriminate.
    + constructor; simpl; try apply I.
      * rewrite <- (inv_closer I), Ec. split; discriminate.
      * intros _. apply (inv_drained I). auto.
      * tauto.
      * auto.
  - (* a worker *)
    destruct (stepWorker_ctl _ _ Hs) as (Hp & Hg & Hc & He & Hz).
    pose proof (sum_setNth holdsW (workers s) i w' Hw) as Hsh.
    pose proof (sum_setNth liveW (workers s) i w' Hw) as Hsl.
    constructor; simpl.
    + rewrite (inv_pending I) in Hp. lia.
    + rewrite (inv_wg I) in Hg. lia.
    + apply (inv_closer I).
    + intros Hd. pose proof (inv_drained I Hd) as H0.
      destruct (inv_holds_zero I H0) as (Hq & _ & Hall).
      rewrite (Hz Hq); [assumption|]. apply Hall. eapply nth_error_In; eauto.
    + rewrite Hc. apply (inv_closed I).
    + intros w0 Hin Hex. rewrite Hc. apply In_setNth in Hin.
      destruct Hin as [->|Hin]; [|eapply (inv_exited I); eauto].
      destruct (He Hex) as [Hw0|Hcl]; [|assumption].
      eapply (inv_exited I); eauto. eapply nth_error_In; eauto.
    + intros a Ha w0 Hin.
      pose proof (inv_ret I Ha w (nth_error_In _ _ Hw)) as E. subst w.
      simpl in Hs. discriminate.
Qed.

Lemma inv_steps s s' : steps s s' -> inv s -> inv s'.
Proof.
  induction 1; intros I; [assumption|]. eauto using inv_step.
Qed.

Lemma steps_trans s1 s2 s3 : steps s1 s2 -> steps s2 s3 -> steps s1 s3.
Proof.
  induction 1; intros; [assumption|]. econstructor; eauto.
Qed.

Lemma steps_one t s s' : step t s = Next s' -> steps s s'.
Proof. intros. econstructor; [eassumption | constructor]. Qed.

(** No step of a run panics. *)
Lemma step_no_panic t s : inv s -> step t s <> Panic.
Proof.
  intros I. destruct t as [| |i]; simpl.
  - pose proof (@stepMain_safe (caller s) (mem s)) as Hsafe.
    destruct (stepMain (caller s) (mem s)) as [| |[c m]]; try discriminate.
    exfalso. apply Hsafe; auto.
    + rewrite (inv_pending I). lia.
    + intros Hc. apply (inv_closed I) in Hc.
      destruct (started (caller s)) eqn:E; auto.
      apply (inv_closer I) in E. congruence.
  - destruct (closer s) eqn:Ec; simpl; try discriminate.
    + destruct (pending (mem s) =? 0)%Z; discriminate.
    + destruct (closed (mem s)) eqn:Hc; [|discriminate].
      apply (inv_closed I) in Hc. congruence.
  - destruct (nth_error (workers s) i) as [w|] eqn:Hw; [|discriminate].
    pose proof (@stepWorker_safe w (mem s)) as Hsafe.
    destruct (stepWorker w (mem s)) as [| |[w' m]]; try discriminate.
    exfalso. apply Hsafe; auto.
    + rewrite (inv_pending I).
      pose proof (list_sum_In_le holdsW _ _ (nth_error_In _ _ Hw)). lia.
    + rewrite (inv_wg I).
      pose proof (list_sum_In_le liveW _ _ (nth_error_In _ _ Hw)). lia.
    + intros Hc. apply (inv_closed I) in Hc.
      assert (H0 : pending (mem s) = 0%Z) by (apply (inv_drained I); auto).
      apply (inv_holds_zero I H0). eapply nth_error_In; eauto.
Qed.

(* ================================================================== *)
(** ** Every run ends, and a run can always go on until the return *)

Lemma step_weight t s s' : step t s = Next s' -> weight s' < weight s.
Proof.
  intros H. apply step_cases in H. unfold weight.
  destruct H as [(-> & c & m & Hs & ->) | [(-> & c & m & Hs & ->) | (i & w & w' & m & -> & Hw & Hs & ->)]];
    simpl.
  - pose proof (stepMain_weight _ _ Hs).
    destruct (caller s); simpl in *; lia.
  - apply stepCloser_spec in Hs.
    destruct Hs as [(-> & -> & _ & ->) | (-> & -> & _ & ->)]; simpl; lia.
  - pose proof (stepWorker_weight _ _ Hs).
    pose proof (sum_setNth wW (workers s) i w' Hw). lia.
Qed.

Lemma run_steps sched s s' : run sched s = Some s' -> steps s s'.
Proof.
  revert s; induction sched as [|t sched IH]; simpl; intros s H.
  - inversion H; constructor.
  - destruct (step t s) as [| |s1] eqn:E; try discriminate.
    econstructor; eauto.
Qed.

Lemma steps_run s s' : steps s s' -> exists sched, run sched s = Some s'.
Proof.
  induction 1 as [s|t s s1 s2 Hs _ [sched IH]].
  - exists []. reflexivity.
  - exists (t :: sched). simpl. rewrite Hs. assumption.
Qed.

(** A run takes at most [weight s] steps. *)
Lemma run_length sched s s' :
  run sched s = Some s' -> List.length sched + weight s' <= weight s.
Proof.
  revert s; induction sched as [|t sched IH]; simpl; intros s H.
  - inversion H; lia.
  - destruct (step t s) as [| |s1] eqn:E; try discriminate.
    apply step_weight in E. apply IH in H. lia.
Qed.


Lemma busy_or_idle (ws : list worker) :
  (exists i w, nth_error ws i = Some w /\ idle w = false)
  \/ (forall w, In w ws -> idle w = true).
Proof.
  induction ws as [|a ws IH].
  - right. intros w [].
  - destruct (idle a) eqn:Ea.
    + destruct IH as [(i & w & Hi & Hw)|IH].
      * left. exists (S i), w. auto.
      * right. intros w [<-|Hw]; auto.
    + left. exists 0, a. auto.
Qed.

Lemma thread_worker s i w :
  nth_error (workers s) i = Some w -> In (TWorker i) (threads s).
Proof.
  intros H. unfold threads. right; right. apply in_map, in_seq.
  assert (i < List.length (workers s)) by (apply nth_error_Some; congruence).
  lia.
Qed.

Lemma worker_moves s i w :
  inv s -> nth_error (workers s) i = Some w ->
  stepWorker w (mem s) <> Blocked ->
  exists s', step (TWorker i) s = Next s'.
Proof.
  intros I Hw Hb. pose proof (@step_no_panic (TWorker i) s I) as Hp.
  simpl in *. rewrite Hw in *.
  destruct (stepWorker w (mem s)) as [| |[w' m]]; try congruence. eauto.
Qed.

Lemma main_moves s :
  inv s -> stepMain (caller s) (mem s) <> Blocked ->
  exists s', step TMain s = Next s'.
Proof.
  intros I Hb. pose proof (@step_no_panic TMain s I) as Hp. simpl in *.
  destruct (stepMain (caller s) (mem s)) as [| |[c m]]; try congruence. eauto.
Qed.

Lemma closer_moves s :
  inv s -> stepCloser (closer s) (mem s) <> Blocked ->
  exists s', step TCloser s = Next s'.
Proof.
  intros I Hb. pose proof (@step_no_panic TCloser s I) as Hp. simpl in *.
  destruct (stepCloser (closer s) (mem s)) as [| |[c m]]; try congruence. eauto.
Qed.

Lemma queueCap_pos : 0 < queueCap.
Proof. unfold queueCap. lia. Qed.

(** Before the return some goroutine can move. *)
Lemma progress s :
  inv s -> workers s <> [] -> (forall a, caller s <> MRet a) ->
  exists t s', In t (threads s) /\ step t s = Next s'.
Proof.
  intros I Hne Hret.
  destruct (busy_or_idle (workers s)) as [(i & w & Hi & Hw)|Hidle].
  { (* a worker that is not waiting *)
    destruct (@worker_moves s i w I Hi) as [s' Hs].
    - intros Hb. apply stepWorker_blocked in Hb.
      destruct Hb as [(-> & _)| ->]; discriminate.
    - exists (TWorker i), s'. split; [eapply thread_worker; eauto | assumption]. }
  assert (Hh0 : list_sum (map holdsW (workers s)) = 0).
  { apply list_sum_zero. intros w Hw. specialize (Hidle w Hw).
    destruct w; simpl in *; try discriminate; reflexivity. }
  destruct (stepMain (caller s) (mem s)) as [| |[c m]] eqn:Hm.
  2: { exfalso. pose proof (@step_no_panic TMain s I) as Hp. simpl in Hp.
       rewrite Hm in Hp. congruence. }
  2: { destruct (@main_moves s I) as [s' Hs]; [congruence|].
       exists TMain, s'. split; [left; reflexivity | assumption]. }
  apply stepMain_blocked in Hm.
  destruct Hm as [(Hh & Hfull) | [(Hc & Hg) | (a & Ha)]]; [| |exfalso; eapply Hret; eauto].
  - (* the caller waits for room in the queue: a worker receives *)
    destruct (workers s) as [|w ws] eqn:Hws; [congruence|].
    assert (Hw : idle w = true) by (apply Hidle; left; reflexivity).
    assert (Hclosed : closed (mem s) = false).
    { destruct (closed (mem s)) eqn:Hc; auto.
      apply (inv_closed I) in Hc.
      assert (started (caller s) = true).
      { destruct (started (caller s)) eqn:E; auto.
        apply (inv_closer I) in E. congruence. }
      destruct (caller s); simpl in *; discriminate. }
    assert (w = Recv).
    { destruct w; simpl in Hw; try discriminate; auto.
      assert (closed (mem s) = true).
      { apply (inv_exited I) with (w := Exit); [rewrite Hws; left|]; reflexivity. }
      congruence. }
    subst w.
    destruct (@worker_moves s 0 Recv I) as [s' Hs].
    + rewrite Hws. reflexivity.
    + simpl. pose proof queueCap_pos.
      destruct (dirQueue (mem s)); simpl in *; [lia | discriminate].
    + exists (TWorker 0), s'. split; [|assumption].
      eapply thread_worker. rewrite Hws. reflexivity.
  - (* the caller waits for the workers *)
    assert (Hlive : list_sum (map liveW (workers s)) <> 0).
    { pose proof (inv_wg I). lia. }
    assert (Hrecv : exists i, nth_error (workers s) i = Some Recv).
    { clear - Hidle Hlive. induction (workers s) as [|w ws IH]; simpl in *; [congruence|].
      destruct w; try (specialize (Hidle _ (or_introl eq_refl)); discriminate).
      - exists 0. reflexivity.
      - destruct IH as [i Hi]; auto. exists (S i). assumption. }
    destruct Hrecv as [i Hi].
    destruct (stepWorker Recv (mem s)) as [| |[w' m]] eqn:Hr.
    2: { pose proof (@stepWorker_safe Recv (mem s)) as Hp. simpl in Hr.
         destruct (dirQueue (mem s)); [destruct (closed (mem s))|]; discriminate. }
    2: { destruct (@worker_moves s i Recv I Hi) as [s' Hs]; [congruence|].
         exists (TWorker i), s'. split; [eapply thread_worker; eauto | assumption]. }
    apply stepWorker_blocked in Hr.
    destruct Hr as [(_ & Hq & Hcl)|Hr]; [|discriminate].
    assert (Hst : closer s <> CNotStarted).
    { intros E. apply (inv_closer I) in E. rewrite Hc in E. discriminate. }
    assert (Hce : closer s <> CEnd).
    { intros E. apply (inv_closed I) in E. congruence. }
    destruct (@closer_moves s I) as [s' Hs].
    + destruct (closer s) eqn:Ec; simpl; try congruence.
      * pose proof (inv_pending I) as Hp. rewrite Hq, Hh0, Hc in Hp. simpl in Hp.
        rewrite Hp. simpl. discriminate.
      * rewrite Hcl. discriminate.
    + exists TCloser, s'. split; [right; left; reflexivity | assumption].
Qed.

Lemma pick_Some ts s s' :
  pick ts s = Some s' -> exists t, In t ts /\ step t s = Next s'.
Proof.
  induction ts as [|t ts IH]; simpl; [discriminate|].
  destruct (step t s) as [| |s1] eqn:E.
  - intros H. destruct (IH H) as (t' & ? & ?). eauto.
  - intros H. destruct (IH H) as (t' & ? & ?). eauto.
  - intros H. inversion H; subst. eauto.
Qed.

Lemma pick_moves ts s t s1 :
  In t ts -> step t s = Next s1 -> exists s', pick ts s = Some s'.
Proof.
  induction ts as [|t' ts IH]; simpl; [intros []|].
  intros [->|Hin] Hs.
  - rewrite Hs. eauto.
  - destruct (step t' s); eauto.
Qed.

Lemma exec_steps fuel s : steps s (exec fuel s).
Proof.
  revert s; induction fuel as [|fuel IH]; cbn [exec]; intros s; [apply steps_refl|].
  destruct (pick (threads s) s) as [s'|] eqn:E; [|apply steps_refl].
  apply pick_Some in E. destruct E as (t & _ & Hs).
  econstructor; eauto.
Qed.

Lemma step_workers_length t s s' :
  step t s = Next s' -> List.length (workers s') = List.length (workers s).
Proof.
  intros H. apply step_cases in H.
  destruct H as [(-> & c & m & Hs & ->) | [(-> & c & m & Hs & ->) | (i & w & w' & m & -> & Hw & Hs & ->)]];
    simpl; auto using length_setNth.
Qed.

Lemma exec_returns fuel s :
  inv s -> workers s <> [] -> weight s <= fuel ->
  exists a, caller (exec fuel s) = MRet a.
Proof.
  revert s; induction fuel as [|fuel IH]; intros s I Hne Hw.
  - destruct (caller s) eqn:Ec; eauto; exfalso.
    all: destruct (@progress s I Hne) as (t & s' & _ & Hs);
      [intros a; congruence | apply step_weight in Hs; lia].
  - cbn [exec]. destruct (caller s) eqn:Ec.
    7: { destruct (pick (threads s) s) as [s'|] eqn:E; [|eauto].
         apply pick_Some in E. destruct E as (t & _ & Hs).
         apply IH; eauto using inv_step.
         - apply step_workers_length in Hs. destruct (workers s'), (workers s);
             simpl in *; congruence.
         - apply step_weight in Hs. lia. }
    all: destruct (@progress s I Hne) as (t & s1 & Hin & Hs1); [intros a; congruence|];
      destruct (@pick_moves _ _ _ _ Hin Hs1) as [s' E]; rewrite E;
      apply pick_Some in E; destruct E as (t' & _ & Hs);
      apply IH; eauto using inv_step;
      [ apply step_workers_length in Hs; destruct (workers s'), (workers s);
          simpl in *; congruence
      | apply step_weight in Hs; lia ].
Qed.

(** With at least one worker the search can always run to its return. *)
Lemma returns_exists n :
  0 < n ->
  exists a, returns n a.
Proof.
  intros Hn.
  destruct (@exec_returns (weight (start n)) (start n)) as [a Ha].
  - apply inv_start.
  - destruct n; [lia | discriminate].
  - lia.
  - exists a, (exec (weight (start n)) (start n)). split; [apply exec_steps | assumption].
Qed.

(* ================================================================== *)
(** ** What has been recorded and what is still to do *)

Lemma todo_occ x s :
  occ x (todo s)
  = occ x (todoM (caller s)) + occ x (flat_map walkDir (dirQueue (mem s)))
    + list_sum (map (fun w => occ x (todoW w)) (workers s)).
Proof. unfold todo. rewrite !occ_app, (occ_flat_map x todoW). lia. Qed.

Lemma step_occ t s s' x :
  step t s = Next s' ->
  occ x (matched (mem s')) + occ x (todo s') <= occ x (matched (mem s)) + occ x (todo s)
  /\ ((found (mem s) < maxResults)%Z ->
      occ x (matched (mem s')) + occ x (todo s') = occ x (matched (mem s)) + occ x (todo s)).
Proof.
  intros H. apply step_cases in H. rewrite !todo_occ.
  destruct H as [(-> & c & m & Hs & ->) | [(-> & c & m & Hs & ->) | (i & w & w' & m & -> & Hw & Hs & ->)]];
    simpl.
  - destruct (stepMain_ctl _ _ Hs) as (_ & _ & _ & Hm & _).
    pose proof (stepMain_occ _ _ x Hs). rewrite Hm. split; [lia | intros; lia].
  - apply stepCloser_spec in Hs.
    destruct Hs as [(_ & _ & _ & ->) | (_ & _ & _ & ->)]; simpl; split; intros; lia.
  - destruct (stepWorker_occ _ _ x Hs) as [Hle Heq].
    pose proof (sum_setNth (fun w => occ x (todoW w)) (workers s) i w' Hw).
    split; [lia | intros Hlt; specialize (Heq Hlt); lia].
Qed.

Lemma todo_start n : todo (start n) = traversal.
Proof.
  unfold todo; simpl.
  assert (H : flat_map todoW (repeat Recv n) = []) by (induction n; simpl; auto).
  rewrite H, app_nil_r. reflexivity.
Qed.

(** Every recorded path is one of the traversal. *)
Lemma steps_sound n s x :
  steps (start n) s ->
  occ x (matched (mem s)) + occ x (todo s) <= occ x traversal.
Proof.
  intros H.
  enough (G : forall s0, steps s0 s ->
            occ x (matched (mem s)) + occ x (todo s)
            <= occ x (matched (mem s0)) + occ x (todo s0)).
  { specialize (G _ H). rewrite todo_start in G. simpl in G. exact G. }
  clear H. induction 1 as [s0|t s0 s1 s2 Hs _ IH]; [lia|].
  destruct (step_occ _ _ x Hs) as [Hle _]. lia.
Qed.

Lemma step_scanned_range t s s' :
  step t s = Next s' ->
  (- 2 ^ 63 <= scanned (mem s) < 2 ^ 63)%Z ->
  (- 2 ^ 63 <= scanned (mem s') < 2 ^ 63)%Z.
Proof.
  intros H. apply step_cases in H.
  destruct H as [(-> & c & m & Hs & ->) | [(-> & c & m & Hs & ->) | (i & w & w' & m & -> & Hw & Hs & ->)]];
    simpl.
  - destruct (stepMain_ctl _ _ Hs) as (_ & _ & _ & _ & -> & _). auto.
  - apply stepCloser_spec in Hs.
    destruct Hs as [(_ & _ & _ & ->) | (_ & _ & _ & ->)]; simpl; auto.
  - destruct (stepWorker_scan _ _ Hs) as [[-> | ->] _]; auto.
    intros _. apply wrap64_range.
Qed.

Lemma steps_scanned_range n s :
  steps (start n) s -> (- 2 ^ 63 <= scanned (mem s) < 2 ^ 63)%Z.
Proof.
  intros H.
  enough (G : forall s0, steps s0 s ->
            (- 2 ^ 63 <= scanned (mem s0) < 2 ^ 63)%Z ->
            (- 2 ^ 63 <= scanned (mem s) < 2 ^ 63)%Z).
  { apply (G _ H). simpl. lia. }
  clear H. induction 1; eauto using step_scanned_range.
Qed.

Lemma uncut_start n : uncut (start n).
Proof.
  constructor.
  - intros x. rewrite todo_start. reflexivity.
  - simpl. split; [lia|].
    assert (H : list_sum (map atFoundW (repeat Recv n)) = 0)
      by (induction n; simpl; auto).
    rewrite H. reflexivity.
  - unfold scanTodo; simpl.
    assert (H : list_sum (map scanW (repeat Recv n)) = 0)
      by (induction n; simpl; auto).
    rewrite H. exists 0%Z. lia.
Qed.

Lemma uncut_below s :
  (Z.of_nat (List.length traversal) < maxResults)%Z ->
  uncut s -> (0 <= found (mem s) < maxResults)%Z.
Proof.
  intros Hlen U. destruct (uncut_found U) as [H0 H1].
  assert (List.length (matched (mem s)) <= List.length traversal).
  { apply occ_length_le. intros x. pose proof (uncut_paths U x). lia. }
  lia.
Qed.

Lemma uncut_step t s s' :
  (Z.of_nat (List.length traversal) < maxResults)%Z ->
  uncut s -> step t s = Next s' -> uncut s'.
Proof.
  intros Hlen U H. pose proof (uncut_below Hlen U) as Hf.
  constructor.
  - intros x. destruct (step_occ _ _ x H) as [_ Heq].
    rewrite Heq by lia. apply (uncut_paths U).
  - destruct (uncut_found U) as [H0 H1].
    apply step_cases in H.
    destruct H as [(-> & c & m & Hs & ->) | [(-> & c & m & Hs & ->) | (i & w & w' & m & -> & Hw & Hs & ->)]];
      simpl.
    + destruct (stepMain_ctl _ _ Hs) as (_ & _ & _ & -> & _ & -> & _). auto.
    + apply stepCloser_spec in Hs.
      destruct Hs as [(_ & _ & _ & ->) | (_ & _ & _ & ->)]; simpl; auto.
    + destruct (stepWorker_found _ _ Hs Hf) as [Hpos Heq].
      pose proof (sum_setNth atFoundW (workers s) i w' Hw). lia.
  - pose proof (uncut_scans U) as [k Hk]. unfold scanTodo in *.
    apply step_cases in H.
    destruct H as [(-> & c & m & Hs & ->) | [(-> & c & m & Hs & ->) | (i & w & w' & m & -> & Hw & Hs & ->)]];
      simpl.
    + destruct (stepMain_ctl _ _ Hs) as (_ & _ & _ & _ & -> & _).
      pose proof (stepMain_scan _ _ Hs). exists k. lia.
    + apply stepCloser_spec in Hs.
      destruct Hs as [(_ & _ & _ & ->) | (_ & _ & _ & ->)]; simpl; exists k; lia.
    + destruct (stepWorker_scan _ _ Hs) as [_ Hc].
      destruct Hc as [k' Hk']; [lia|].
      pose proof (sum_setNth scanW (workers s) i w' Hw). exists (k + k')%Z. lia.
Qed.

Lemma uncut_steps n s :
  (Z.of_nat (List.length traversal) < maxResults)%Z ->
  steps (start n) s -> uncut s.
Proof.
  intros Hlen H.
  enough (G : forall s0, steps s0 s -> uncut s0 -> uncut s).
  { apply (G _ H), uncut_start. }
  clear H. induction 1; eauto using uncut_step.
Qed.

(** The answer is read off the memory of the state that returns. *)
Lemma answer_step t s s' :
  inv s ->
  (forall a, caller s = MRet a -> a = answerOf (mem s)) ->
  step t s = Next s' ->
  forall a, caller s' = MRet a -> a = answerOf (mem s').
Proof.
  intros I Ha H. apply step_cases in H.
  destruct H as [(-> & c & m & Hs & ->) | [(-> & c & m & Hs & ->) | (i & w & w' & m & -> & Hw & Hs & ->)]];
    simpl; intros a E.
  - subst c. destruct (caller s); simpl in Hs; unfold sendBlocking in Hs;
      repeat match type of Hs with
        | context [wgAdd ?c ?d] => destruct (wgAdd c d)
        | context [if ?c then _ else _] => destruct c
        | context [match rootList with _ => _ end] => destruct rootList
        end; try discriminate; inversion Hs; subst; try reflexivity.
    all: match goal with
         | H : seedNext ?es = MRet _ |- _ =>
             pose proof (seedNext_spec es) as Hk; rewrite H in Hk; contradiction
         end.
  - apply stepCloser_spec in Hs.
    destruct Hs as [(_ & _ & _ & ->) | (_ & _ & _ & ->)]; auto.
  - pose proof (inv_ret I E w (nth_error_In _ _ Hw)). subst w. discriminate.
Qed.

Lemma answer_steps n s a :
  steps (start n) s -> caller s = MRet a -> a = answerOf (mem s).
Proof.
  intros H.
  enough (G : forall s0, steps s0 s -> inv s0 ->
            (forall a, caller s0 = MRet a -> a = answerOf (mem s0)) ->
            forall a, caller s = MRet a -> a = answerOf (mem s)).
  { apply (G _ H); [apply inv_start | discriminate]. }
  clear. induction 1; intros; eauto using inv_step, answer_step.
Qed.

(** At the return nothing is left to do. *)
Lemma returned_done s a :
  inv s -> workers s <> [] -> caller s = MRet a ->
  todo s = [] /\ scanTodo s = 0 /\ list_sum (map atFoundW (workers s)) = 0.
Proof.
  intros I Hne E.
  pose proof (inv_ret I E) as Hall.
  assert (Hcl : closed (mem s) = true).
  { destruct (workers s) as [|w ws] eqn:Hws; [congruence|].
    assert (Hin : In w (workers s)) by (rewrite Hws; left; reflexivity).
    rewrite <- Hws in *.
    apply (inv_exited I) with (w := w); [assumption|].
    rewrite (Hall w Hin). reflexivity. }
  assert (Hp : pending (mem s) = 0%Z).
  { apply (inv_drained I). right. apply (inv_closed I). assumption. }
  destruct (inv_holds_zero I Hp) as (Hq & _ & _).
  unfold todo, scanTodo. rewrite E, Hq. simpl.
  assert (Hw : forall g : worker -> nat, g Exit = 0 -> list_sum (map g (workers s)) = 0).
  { intros g Hg. apply list_sum_zero. intros w Hin. rewrite (Hall w Hin). assumption. }
  repeat split.
  - clear - Hall. induction (workers s) as [|w ws IH]; simpl; [reflexivity|].
    rewrite (Hall w) by (left; reflexivity). simpl. apply IH.
    intros w0 Hw0. apply Hall. right. assumption.
  - apply Hw. reflexivity.
  - apply Hw. reflexivity.
Qed.

(* ================================================================== *)
(** ** [sort.Strings] depends only on the strings it is given *)

Lemma ascii_compare_refl a : Ascii.compare a a = Eq.
Proof. unfold Ascii.compare. apply N.compare_refl. Qed.

Lemma string_leb_trans a b c :
  String.leb a b = true -> String.leb b c = true -> String.leb a c = true.
Proof.
  unfold String.leb. revert b c.
  induction a as [|x a IH]; intros [|y b] [|z c]; simpl; try easy.
  destruct (Ascii.compare x y) eqn:Exy.
  - apply Ascii.compare_eq_iff in Exy. subst y.
    destruct (Ascii.compare x z) eqn:Exz; try easy. apply IH.
  - destruct (Ascii.compare y z) eqn:Eyz.
    + apply Ascii.compare_eq_iff in Eyz. subst z. rewrite Exy. easy.
    + unfold Ascii.compare in *. rewrite N.compare_lt_iff in *.
      assert (H : (N_of_ascii x < N_of_ascii z)%N) by lia.
      apply N.compare_lt_iff in H. rewrite H. easy.
    + easy.
  - easy.
Qed.

Lemma sorted_unique (l1 l2 : list string) :
  StronglySorted (fun x y => String.leb x y = true) l1 ->
  StronglySorted (fun x y => String.leb x y = true) l2 ->
  Permutation l1 l2 -> l1 = l2.
Proof.
  revert l2. induction l1 as [|a l1 IH]; intros l2 H1 H2 P.
  - apply Permutation_nil in P. congruence.
  - destruct l2 as [|b l2].
    + apply Permutation_sym, Permutation_nil in P. discriminate.
    + inversion H1 as [|? ? S1 F1]; inversion H2 as [|? ? S2 F2]; subst.
      assert (a = b).
      { assert (Ha : In a (b :: l2)) by (eapply Permutation_in; [exact P | left; reflexivity]).
        assert (Hb : In b (a :: l1))
          by (eapply Permutation_in; [apply Permutation_sym; exact P | left; reflexivity]).
        destruct Ha as [Ha|Ha]; [congruence|].
        destruct Hb as [Hb|Hb]; [congruence|].
        rewrite Forall_forall in F1, F2.
        apply String.leb_antisym; auto. }
      subst b. f_equal. apply IH; auto.
      eapply Permutation_cons_inv; eauto.
Qed.

Lemma Strings_sorted l :
  StronglySorted (fun x y => String.leb x y = true) (GoSort.Strings l).
Proof.
  unfold GoSort.Strings.
  apply Sorted_StronglySorted.
  - intros x y z. apply string_leb_trans.
  - apply GoSort.StringSort.Sorted_sort.
Qed.

Lemma Strings_perm l : Permutation l (GoSort.Strings l).
Proof. apply GoSort.StringSort.Permuted_sort. Qed.

Lemma Strings_Permutation l1 l2 :
  Permutation l1 l2 -> GoSort.Strings l1 = GoSort.Strings l2.
Proof.
  intros P. apply sorted_unique; try apply Strings_sorted.
  eapply Permutation_trans; [apply Permutation_sym, Strings_perm|].
  eapply Permutation_trans; [exact P | apply Strings_perm].
Qed.

Lemma Strings_In l x : In x (GoSort.Strings l) <-> In x l.
Proof.
  split; apply Permutation_in; [apply Permutation_sym|]; apply Strings_perm.
Qed.

Lemma Strings_length l : List.length (GoSort.Strings l) = List.length l.
Proof. symmetry. apply Permutation_length, Strings_perm. Qed.

(* ================================================================== *)
(** ** What a search returns *)

(** Every returned path is one of the traversal, and the error is the
    one of the read of the root. *)
Lemma returns_sound n a :
  returns n a ->
  (forall p, In p (matches a) -> In p traversal) /\ err a = rootErr.
Proof.
  intros (s & Hs & E). rewrite (answer_steps Hs E). simpl. split; [|reflexivity].
  intros p Hp. apply (proj1 (Strings_In _ _)) in Hp.
  apply (proj1 (occ_In _ _)) in Hp. apply occ_In.
  pose proof (steps_sound p Hs). lia.
Qed.

(** When the traversal records fewer than [maxResults] paths, the answer
    is the same in every run. *)
Lemma returns_uncut n a :
  0 < n ->
  (Z.of_nat (List.length traversal) < maxResults)%Z ->
  returns n a ->
  a = {| matches := GoSort.Strings traversal;
         scannedCount := wrap64 (Z.of_nat scans);
         err := rootErr |}.
Proof.
  intros Hn Hlen (s & Hs & E).
  rewrite (answer_steps Hs E). unfold answerOf.
  pose proof (inv_steps Hs (inv_start n)) as I.
  pose proof (uncut_steps Hlen Hs) as U.
  assert (Hne : workers s <> []).
  { intros Hw.
    assert (Hl : forall s0 s1, steps s0 s1 ->
              List.length (workers s1) = List.length (workers s0)).
    { induction 1 as [|? ? ? ? Hst _ IH]; [reflexivity|].
      rewrite IH. eapply step_workers_length; eauto. }
    specialize (Hl _ _ Hs). rewrite Hw in Hl. simpl in Hl.
    rewrite repeat_length in Hl. lia. }
  destruct (returned_done I Hne E) as (Ht & Hsc & _).
  f_equal.
  - apply Strings_Permutation, occ_Permutation. intros x.
    pose proof (uncut_paths U x) as Hx. rewrite Ht, occ_nil in Hx. lia.
  - pose proof (uncut_scans U) as Hc. rewrite Hsc in Hc.
    apply cong64_wrap in Hc. rewrite Z.add_0_r in Hc. rewrite <- Hc.
    symmetry. apply wrap64_small. eapply steps_scanned_range; eauto.
Qed.

(* ================================================================== *)
(** ** The traversal in terms of the tree *)

Lemma listed_pathOf trail dir es : listed trail dir es -> dir = pathOf trail.
Proof.
  induction 1; simpl; [reflexivity|]. subst. reflexivity.
Qed.

Lemma listed_unskipped trail dir es :
  listed trail dir es -> Forall (fun e => skipped e = false /\ IsDir e = true) trail.
Proof.
  induction 1; constructor; auto. split; auto.
  destruct e; simpl in *; [discriminate | reflexivity].
Qed.

Lemma In_walkEntries dir es p :
  In p (walkEntries dir es) <-> exists e, In e es /\ In p (walkEntry dir e).
Proof. unfold walkEntries. apply in_flat_map. Qed.

Lemma In_walkEntry dir e p :
  In p (walkEntry dir e) <->
  skipped e = false /\
  ((exists es, ReadDir e = Some es /\ In p (walkEntries (Join dir (Name e)) es))
   \/ (isMatch dir e = true /\ p = Join dir (Name e))).
Proof.
  rewrite walkEntry_eq. unfold subWalk, ownMatch, walkDir, childRef; simpl.
  destruct (skipped e); [simpl; split; [intros [] | intros [? _]; discriminate]|].
  rewrite in_app_iff.
  split.
  - intros [H|H]; split; auto.
    + left. destruct (ReadDir e) as [es|]; [eauto | destruct H].
    + right. destruct (isMatch dir e); [|destruct H].
      destruct H as [H|[]]. auto.
  - intros [_ [(es & E & H)|(E & ->)]].
    + left. rewrite E. assumption.
    + right. rewrite E. left. reflexivity.
Qed.

(** Everything below a listed directory is recorded for a visited
    entry that passes the match test. *)
Lemma walkEntry_visits e :
  forall trail dir es p,
    listed trail dir es -> In e es -> In p (walkEntry dir e) ->
    exists t' e', visits t' p e' /\ textMatches (Name e') p = true
                  /\ modeMatch e' = true.
Proof.
  induction e as [n|n|n es0 IH] using entry_tree_ind;
    intros trail dir es p L Hin Hp; apply In_walkEntry in Hp;
    destruct Hp as [Hsk [(es1 & E & Hp)|(Hm & ->)]];
    try discriminate.
  all: try (exists trail; eexists; split; [exists dir, es; eauto|];
            unfold isMatch, textMatch in Hm; apply andb_prop in Hm;
            unfold textMatches; tauto).
  simpl in E. inversion E; subst es1.
  apply In_walkEntries in Hp. destruct Hp as (e' & He' & Hp).
  rewrite Forall_forall in IH.
  eapply (IH e' He'); [ | exact He' | exact Hp].
  eapply listed_sub; eauto.
Qed.

Lemma sent_listed d es :
  In d sent -> dlist d = Some es -> exists trail, listed trail (dpath d) es.
Proof.
  unfold sent. intros [<-|Hd] E; simpl in *.
  - exists []. constructor. assumption.
  - destruct rootList as [top|] eqn:Er; [|destruct Hd].
    unfold seeds in Hd. apply in_map_iff in Hd.
    destruct Hd as (e & <- & He). apply filter_In in He.
    destruct He as [He Hf]. apply andb_prop in Hf. destruct Hf as [_ Hf].
    apply negb_true_iff in Hf. simpl in *.
    exists [e]. eapply listed_sub; eauto. constructor. assumption.
Qed.

Lemma traversal_visits p :
  In p traversal ->
  exists trail e, visits trail p e /\ textMatches (Name e) p = true
                  /\ modeMatch e = true.
Proof.
  unfold traversal. intros H. apply in_flat_map in H.
  destruct H as (d & Hd & Hp). unfold walkDir in Hp.
  destruct (dlist d) as [es|] eqn:E; [|destruct Hp].
  destruct (sent_listed Hd E) as [trail L].
  apply In_walkEntries in Hp. destruct Hp as (e & He & Hp).
  eapply walkEntry_visits; eauto.
Qed.

Lemma listed_traversal trail dir es :
  listed trail dir es -> incl (walkEntries dir es) traversal.
Proof.
  induction 1 as [es E|trail dir es e es' L IH He Hsk E].
  - intros p Hp. unfold traversal, sent. simpl. apply in_or_app. left.
    unfold walkDir. simpl. rewrite E. assumption.
  - intros p Hp. apply IH. apply In_walkEntries. exists e. split; [assumption|].
    apply In_walkEntry. split; [assumption|]. left. eauto.
Qed.

Lemma visits_traversal trail p e :
  visits trail p e -> textMatches (Name e) p = true -> modeMatch e = true ->
  In p traversal.
Proof.
  intros (dir & es & L & He & Hsk & ->) Ht Hm.
  apply (listed_traversal L). apply In_walkEntries. exists e. split; [assumption|].
  apply In_walkEntry. split; [assumption|]. right. split; [|reflexivity].
  unfold isMatch, textMatch. unfold textMatches in Ht. rewrite Ht, Hm. reflexivity.
Qed.

Lemma endState_steps n sched fuel s :
  endState n sched fuel = Some s -> steps (start n) s.
Proof.
  unfold endState. destruct (run sched (start n)) as [s1|] eqn:E; [|discriminate].
  simpl. intros H; inversion H; subst.
  eapply steps_trans; [eapply run_steps; eauto | apply exec_steps].
Qed.

Lemma outcome_returns n sched fuel a :
  outcome n sched fuel = Some a -> returns n a.
Proof.
  unfold outcome. destruct (endState n sched fuel) as [s|] eqn:E; [|discriminate].
  destruct (caller s) eqn:Ec; try discriminate.
  intros H; inversion H; subst.
  exists s. split; [eapply endState_steps; eauto | assumption].
Qed.

(* ================================================================== *)
(** ** The queue and the counters stay within their bounds *)

Lemma stepWorker_queue w m w' m' :
  stepWorker w m = Next (w', m') ->
  List.length (dirQueue m) <= queueCap ->
  List.length (dirQueue m') <= queueCap.
Proof.
  intros H Hq. worker_cases H; frame_mem; simpl in *;
    rewrite ?length_app; simpl;
    repeat match goal with
      | H : dirQueue _ = _ |- _ => rewrite H in *
      | H : (_ <? _)%nat = true |- _ => apply Nat.ltb_lt in H
      end; simpl in *; try lia.
Qed.

Lemma stepMain_queue c m c' m' :
  stepMain c m = Next (c', m') ->
  List.length (dirQueue m) <= queueCap ->
  List.length (dirQueue m') <= queueCap.
Proof.
  intros H Hq. main_cases H; simpl; rewrite ?length_app; simpl;
    repeat match goal with
      | H : (_ <? _)%nat = true |- _ => apply Nat.ltb_lt in H
      end; lia.
Qed.

Lemma step_queue t s s' :
  step t s = Next s' ->
  List.length (dirQueue (mem s)) <= queueCap ->
  List.length (dirQueue (mem s')) <= queueCap.
Proof.
  intros H. apply step_cases in H.
  destruct H as [(-> & c & m & Hs & ->) | [(-> & c & m & Hs & ->) | (i & w & w' & m & -> & Hw & Hs & ->)]];
    simpl.
  - eapply stepMain_queue; eauto.
  - apply stepCloser_spec in Hs.
    destruct Hs as [(_ & _ & _ & ->) | (_ & _ & _ & ->)]; simpl; auto.
  - eapply stepWorker_queue; eauto.
Qed.

Lemma steps_workers_length s s' :
  steps s s' -> List.length (workers s') = List.length (workers s).
Proof.
  induction 1 as [|? ? ? ? Hst _ IH]; [reflexivity|].
  rewrite IH. eapply step_workers_length; eauto.
Qed.

Lemma holdsW_le_2 ws : list_sum (map holdsW ws) <= 2 * List.length ws.
Proof.
  induction ws as [|w ws IH]; simpl; [lia|]. destruct w; simpl; lia.
Qed.

Lemma steps_bounds n s :
  steps (start n) s ->
  List.length (dirQueue (mem s)) <= queueCap
  /\ (0 <= pending (mem s) <= Z.of_nat (queueCap + 1 + 2 * n))%Z
  /\ (0 <= wg (mem s) <= Z.of_nat n)%Z.
Proof.
  intros Hs.
  assert (Hq : List.length (dirQueue (mem s)) <= queueCap).
  { enough (G : forall s0, steps s0 s ->
              List.length (dirQueue (mem s0)) <= queueCap ->
              List.length (dirQueue (mem s)) <= queueCap).
    { apply (G _ Hs). simpl. lia. }
    clear. induction 1; eauto using step_queue. }
  pose proof (inv_steps Hs (inv_start n)) as I.
  pose proof (steps_workers_length Hs) as Hl. simpl in Hl.
  rewrite repeat_length in Hl.
  pose proof (holdsW_le_2 (workers s)).
  assert (holdsM (caller s) <= 1) by (destruct (caller s); simpl; lia).
  assert (list_sum (map liveW (workers s)) <= List.length (workers s)).
  { clear. induction (workers s) as [|w ws IH]; simpl; [lia|].
    destruct w; simpl; lia. }
  rewrite (inv_pending I), (inv_wg I). repeat split; lia.
Qed.

(* ================================================================== *)
(** ** [found] counts the recorded paths *)

Lemma stepFrame_found_any f m a m' :
  stepFrame f m = (a, m') ->
  (0 <= found m)%Z -> (found m + 1 < 2 ^ 63)%Z ->
  (found m <= found m')%Z /\
  (Z.of_nat (List.length (matched m')) - found m' - Z.of_nat (atFoundA a)
   = Z.of_nat (List.length (matched m)) - found m - Z.of_nat (atFoundF f))%Z.
Proof.
  destruct f as [dir [|e rest]|[] dir e rest]; simpl;
    try destruct (maxResults <=? found m)%Z eqn:Hcap;
    intros H; frame_cases H; intros Hf0 Hf1; rewrite ?length_app; simpl;
    unfold AddInt64; rewrite ?wrap64_small; lia.
Qed.

Lemma stepWorker_found_any w m w' m' :
  stepWorker w m = Next (w', m') ->
  (0 <= found m)%Z -> (found m + 1 < 2 ^ 63)%Z ->
  (found m <= found m')%Z /\
  (Z.of_nat (List.length (matched m')) - found m' - Z.of_nat (atFoundW w')
   = Z.of_nat (List.length (matched m)) - found m - Z.of_nat (atFoundW w))%Z.
Proof.
  intros H Hf0 Hf1. worker_cases H;
    try match goal with
      | Hf : stepFrame _ _ = _ |- _ =>
          pose proof (stepFrame_found_any _ _ Hf Hf0 Hf1) as [Hpos Heq];
          pose proof (stepFrame_weight _ _ Hf) as Hsub;
          cbn beta iota in Hsub; try (subst f);
          revert Hpos Heq
      end;
    sum_simpl; intros; lia.
Qed.

Lemma counted_start n : counted (start n).
Proof.
  constructor.
  - intros x. rewrite todo_start. simpl. rewrite ?occ_nil. cbn. lia.
  - apply (uncut_found (uncut_start n)).
  - left. intros x. rewrite todo_start. reflexivity.
Qed.

Lemma counted_length s :
  counted s -> List.length (matched (mem s)) <= List.length traversal.
Proof.
  intros C. apply occ_length_le. intros x. pose proof (cnt_sound C x). lia.
Qed.

Lemma counted_step t s s' :
  (Z.of_nat (List.length traversal) < 2 ^ 62)%Z ->
  counted s -> step t s = Next s' -> counted s'.
Proof.
  intros Hlen C H.
  pose proof (counted_length C) as Hm.
  destruct (cnt_found C) as [H0 H1].
  assert (Hf1 : (found (mem s) + 1 < 2 ^ 63)%Z) by lia.
  assert (Hfound : (found (mem s) <= found (mem s'))%Z /\
            (found (mem s') + Z.of_nat (list_sum (map atFoundW (workers s')))
             = Z.of_nat (List.length (matched (mem s'))))%Z).
  { pose proof H as H'. apply step_cases in H'.
    destruct H' as [(-> & c & m & Hs & ->) | [(-> & c & m & Hs & ->) | (i & w & w' & m & -> & Hw & Hs & ->)]];
      simpl.
    - destruct (stepMain_ctl _ _ Hs) as (_ & _ & _ & -> & _ & -> & _). lia.
    - apply stepCloser_spec in Hs.
      destruct Hs as [(_ & _ & _ & ->) | (_ & _ & _ & ->)]; simpl; lia.
    - destruct (stepWorker_found_any _ _ Hs H0 Hf1) as [Hpos Heq].
      pose proof (sum_setNth atFoundW (workers s) i w' Hw). lia. }
  destruct Hfound as [Hmono Hcount].
  constructor.
  - intros x. destruct (step_occ _ _ x H) as [Hle _].
    pose proof (cnt_sound C x). lia.
  - split; [lia | assumption].
  - destruct (Z.ltb_spec (found (mem s)) maxResults) as [Hlt|Hge].
    + destruct (cnt_cut C) as [Hu|Hc]; [|lia].
      left. intros x. destruct (step_occ _ _ x H) as [_ Heq].
      rewrite (Heq Hlt). apply Hu.
    + right. lia.
Qed.

Lemma counted_steps n s :
  (Z.of_nat (List.length traversal) < 2 ^ 62)%Z ->
  steps (start n) s -> counted s.
Proof.
  intros Hlen H.
  enough (G : forall s0, steps s0 s -> counted s0 -> counted s).
  { apply (G _ H), counted_start. }
  clear H. induction 1; eauto using counted_step.
Qed.

Lemma steps_nonempty n s : 0 < n -> steps (start n) s -> workers s <> [].
Proof.
  intros Hn Hs Hw. pose proof (steps_workers_length Hs) as Hl.
  rewrite Hw in Hl. simpl in Hl. rewrite repeat_length in Hl. lia.
Qed.

(* ================================================================== *)
(** ** The number of steps of a search *)

Lemma wSub_entryCount e : 12 + wSub e = 12 * entryCount e.
Proof.
  induction e as [n|n|n es IH] using entry_tree_ind;
    cbn [wSub entryCount]; try lia.
  enough (list_sum (map (fun x => 12 + wSub x) es)
          = 12 * list_sum (map entryCount es)) by lia.
  induction IH as [|e es He _ IHes]; sums; [reflexivity|]. lia.
Qed.

Lemma wEntries_entryCount es : wEntries es = 12 * list_sum (map entryCount es).
Proof.
  unfold wEntries. induction es as [|e es IH]; sums; [reflexivity|].
  pose proof (wSub_entryCount e). lia.
Qed.

Lemma wSeeds_entryCount es : wSeeds es <= 12 * list_sum (map entryCount es) + 4.
Proof.
  unfold wSeeds. induction es as [|e es IH]; sums; [lia|].
  pose proof (wSub_entryCount e). lia.
Qed.

Lemma weight_start n : weight (start n) <= 24 * treeCount + 2 * n + 12.
Proof.
  unfold weight, treeCount.
  cbn [start caller closer mem dirQueue workers wM wC].
  assert (H : list_sum (map wW (repeat Recv n)) = 2 * n).
  { induction n; cbn [repeat]; sums; cbn [wW]; lia. }
  rewrite H. sums. destruct rootList as [es|]; cbn [wList].
  - pose proof (wEntries_entryCount es). pose proof (wSeeds_entryCount es). lia.
  - unfold wSeeds. sums. lia.
Qed.

(* ================================================================== *)
(** ** The state in which the caller has returned *)

Lemma returned_final s a :
  inv s -> workers s <> [] -> caller s = MRet a ->
  closed (mem s) = true /\ dirQueue (mem s) = [] /\ pending (mem s) = 0%Z
  /\ wg (mem s) = 0%Z /\ closer s = CEnd
  /\ (forall w, In w (workers s) -> w = Exit)
  /\ (forall t, step t s = Blocked).
Proof.
  intros I Hne E.
  pose proof (inv_ret I E) as Hall.
  assert (Hcl : closed (mem s) = true).
  { destruct (workers s) as [|w ws] eqn:Hws; [congruence|].
    assert (Hin : In w (workers s)) by (rewrite Hws; left; reflexivity).
    rewrite <- Hws in *.
    apply (inv_exited I) with (w := w); [assumption|].
    rewrite (Hall w Hin). reflexivity. }
  assert (Hce : closer s = CEnd) by (apply (inv_closed I); assumption).
  assert (Hp : pending (mem s) = 0%Z) by (apply (inv_drained I); auto).
  destruct (inv_holds_zero I Hp) as (Hq & _ & _).
  assert (Hwg : wg (mem s) = 0%Z).
  { rewrite (inv_wg I).
    assert (list_sum (map liveW (workers s)) = 0)
      by (apply list_sum_zero; intros w Hw; rewrite (Hall w Hw); reflexivity).
    lia. }
  repeat split; auto.
  intros [| |i]; simpl.
  - rewrite E. reflexivity.
  - rewrite Hce. reflexivity.
  - destruct (nth_error (workers s) i) as [w|] eqn:Hw; [|reflexivity].
    rewrite (Hall w (nth_error_In _ _ Hw)). reflexivity.
Qed.

(* ================================================================== *)
(** ** A directory that cannot be read counts as empty *)

Lemma skipped_emptied e : skipped (emptied e) = skipped e.
Proof. destruct e as [n|n [es|]]; reflexivity. Qed.

Lemma isMatch_emptied dir e : isMatch dir (emptied e) = isMatch dir e.
Proof.
  destruct e as [n|n [es|]]; unfold isMatch, textMatch, modeMatch; reflexivity.
Qed.

Lemma Name_emptied e : Name (emptied e) = Name e.
Proof. destruct e as [n|n [es|]]; reflexivity. Qed.

Lemma walkEntry_emptied e : forall dir, walkEntry dir (emptied e) = walkEntry dir e.
Proof.
  induction e as [n|n|n es IH] using entry_tree_ind; intros dir;
    rewrite !walkEntry_eq, skipped_emptied;
    unfold ownMatch; rewrite isMatch_emptied, Name_emptied;
    unfold subWalk, walkDir, childRef; cbn [dlist dpath emptied ReadDir Name];
    try reflexivity.
  destruct (skipped (Folder n (Some es))); [reflexivity|].
  f_equal. unfold walkEntries.
  induction IH as [|e es He _ IHes]; simpl; [reflexivity|].
  rewrite He, IHes. reflexivity.
Qed.

Lemma scanEntry_emptied e : scanEntry (emptied e) = scanEntry e.
Proof.
  induction e as [n|n|n es IH] using entry_tree_ind;
    rewrite !scanEntry_eq, skipped_emptied; unfold subScan;
    cbn [emptied ReadDir]; try reflexivity.
  destruct (skipped (Folder n (Some es))); [reflexivity|].
  f_equal. unfold scanEntries.
  induction IH as [|e es He _ IHes]; simpl; [reflexivity|].
  rewrite He. unfold scanEntries in IHes. simpl in IHes. lia.
Qed.

Lemma walkEntries_emptied dir es :
  walkEntries dir (map emptied es) = walkEntries dir es.
Proof.
  unfold walkEntries. induction es as [|e es IH]; simpl; [reflexivity|].
  rewrite walkEntry_emptied, IH. reflexivity.
Qed.

Lemma scanEntries_emptied es : scanEntries (map emptied es) = scanEntries es.
Proof.
  unfold scanEntries. induction es as [|e es IH]; simpl; [reflexivity|].
  rewrite scanEntry_emptied. simpl in IH. lia.
Qed.

Lemma walkDir_childRef_emptied dir e :
  walkDir (childRef dir (emptied e)) = walkDir (childRef dir e).
Proof.
  unfold walkDir, childRef; cbn [dlist dpath]. rewrite Name_emptied.
  destruct e as [n|n [es|]]; cbn [emptied ReadDir]; try reflexivity.
  apply walkEntries_emptied.
Qed.

Lemma scanDir_childRef_emptied dir e :
  scanDir (childRef dir (emptied e)) = scanDir (childRef dir e).
Proof.
  unfold scanDir, childRef; cbn [dlist dpath].
  destruct e as [n|n [es|]]; cbn [emptied ReadDir]; try reflexivity.
  apply scanEntries_emptied.
Qed.

Lemma seeds_emptied es :
  flat_map walkDir (seeds (map emptied es)) = flat_map walkDir (seeds es)
  /\ list_sum (map scanDir (seeds (map emptied es)))
     = list_sum (map scanDir (seeds es)).
Proof.
  unfold seeds. induction es as [|e es [IH1 IH2]]; cbn [map filter]; [split; reflexivity|].
  rewrite skipped_emptied.
  assert (Hd : IsDir (emptied e) = IsDir e) by (destruct e as [n|n [l|]]; reflexivity).
  rewrite Hd. destruct (IsDir e && negb (skipped e)); [|split; assumption].
  cbn [map flat_map]. rewrite walkDir_childRef_emptied, scanDir_childRef_emptied.
  rewrite !list_sum_cons_eq, IH1, IH2. split; reflexivity.
Qed.

(* ================================================================== *)
(** ** A query with an upper-case letter *)

Lemma lowerByte_not_upper c : isUpper (lowerByte c) = false.
Proof.
  destruct c as [[] [] [] [] [] [] [] []]; reflexivity.
Qed.

Lemma ToLower_not_upper s c :
  In c (list_ascii_of_string (ToLower s)) -> isUpper c = false.
Proof.
  induction s as [|x s IH]; simpl; [intros []|].
  intros [<-|H]; [apply lowerByte_not_upper | auto].
Qed.

Lemma prefix_In q s c :
  String.prefix q s = true ->
  In c (list_ascii_of_string q) -> In c (list_ascii_of_string s).
Proof.
  revert q; induction s as [|y s IH]; intros [|x q]; simpl.
  - intros _ [].
  - discriminate.
  - intros _ [].
  - destruct (Ascii.ascii_dec x y) as [->|]; [|discriminate].
    intros Hp [<-|Hc]; eauto.
Qed.

Lemma Contains_In s q c :
  Contains s q = true ->
  In c (list_ascii_of_string q) -> In c (list_ascii_of_string s).
Proof.
  induction s as [|y s IH]; cbn [Contains]; intros H Hc.
  - rewrite orb_false_r in H. eapply prefix_In in H; eauto.
  - apply orb_prop in H. destruct H as [H|H].
    + eapply prefix_In in H; eauto.
    + right. auto.
Qed.

Lemma Contains_ToLower_upper s q :
  hasUpper q = true -> Contains (ToLower s) q = false.
Proof.
  intros Hu. destruct (Contains (ToLower s) q) eqn:E; [|reflexivity].
  unfold hasUpper in Hu. apply existsb_exists in Hu.
  destruct Hu as (c & Hc & Hup).
  pose proof (ToLower_not_upper s c (Contains_In _ _ c E Hc)). congruence.
Qed.

Lemma walkEntry_upper e :
  hasUpper query = true -> forall dir, walkEntry dir e = [].
Proof.
  intros Hu.
  assert (Hm : forall dir e0, ownMatch dir e0 = []).
  { intros dir e0. unfold ownMatch, isMatch, textMatch.
    rewrite !Contains_ToLower_upper by assumption. reflexivity. }
  induction e as [n|n|n es IH] using entry_tree_ind; intros dir;
    rewrite walkEntry_eq, Hm; unfold subWalk, walkDir, childRef;
    cbn [dlist dpath ReadDir Name];
    destruct (skipped _); try reflexivity.
  rewrite app_nil_r. unfold walkEntries.
  induction IH as [|e es He _ IHes]; simpl; [reflexivity|].
  rewrite He, IHes. reflexivity.
Qed.

Lemma traversal_upper : hasUpper query = true -> traversal = [].
Proof.
  intros Hu. unfold traversal.
  induction sent as [|d ds IH]; simpl; [reflexivity|].
  rewrite IH, app_nil_r. unfold walkDir. destruct (dlist d) as [es|]; [|reflexivity].
  unfold walkEntries. induction es as [|e es IHes]; simpl; [reflexivity|].
  rewrite walkEntry_upper, IHes by assumption. reflexivity.
Qed.

(* ================================================================== *)
(** ** A worker that records one file after the other *)

Lemma setNth_setNth {A} (l : list A) i x y :
  setNth i x (setNth i y l) = setNth i x l.
Proof.
  revert i; induction l as [|a l IH]; intros [|i]; simpl; auto.
  rewrite IH. reflexivity.
Qed.

Lemma setNth_same {A} (l : list A) i x :
  nth_error l i = Some x -> setNth i x l = l.
Proof.
  revert i; induction l as [|a l IH]; intros [|i] H; simpl in *;
    try discriminate; auto.
  - inversion H. reflexivity.
  - rewrite IH; auto.
Qed.

Lemma step_worker_at i s w w' m' :
  nth_error (workers s) i = Some w ->
  stepWorker w (mem s) = Next (w', m') ->
  step (TWorker i) s
  = Next {| mem := m'; caller := caller s; closer := closer s;
            workers := setNth i w' (workers s) |}.
Proof. intros Hw Hs. simpl. rewrite Hw, Hs. reflexivity. Qed.

Lemma afterRun_steps sched s : runs sched s = true -> steps s (afterRun sched s).
Proof.
  unfold runs, afterRun. destruct (run sched s) as [s'|] eqn:E; [|discriminate].
  intros _. eapply run_steps; eauto.
Qed.

Lemma isRet_MRet c : isRet c = true -> exists a, c = MRet a.
Proof. destruct c; try discriminate. eauto. Qed.

Lemma recorded_nil i dir rest s :
  nth_error (workers s) i = Some (Run (Head dir rest)) ->
  recorded i dir [] rest s = s.
Proof.
  intros H. unfold recorded. simpl. rewrite !Z.add_0_r, app_nil_r, (setNth_same _ _ H).
  destruct s as [[] ? ? ?]; reflexivity.
Qed.

Lemma record_one i dir e rest s :
  nth_error (workers s) i = Some (Run (Head dir (e :: rest))) ->
  IsDir e = false -> isMatch dir e = true ->
  (0 <= found (mem s) < maxResults)%Z ->
  (0 <= scanned (mem s))%Z -> (scanned (mem s) + 1 < 2 ^ 63)%Z ->
  steps s (recorded i dir [e] rest s).
Proof.
  intros Hw Hd Hm Hf Hs0 Hs1.
  assert (Hsk : skipped e = false) by (unfold skipped; rewrite Hd; reflexivity).
  assert (Hcap : (maxResults <=? found (mem s))%Z = false) by (apply Z.leb_gt; lia).
  (* the cap test *)
  eapply steps_next.
  { eapply step_worker_at; [exact Hw|]. simpl. rewrite Hcap. reflexivity. }
  (* the scan counter and the tests *)
  eapply steps_next.
  { eapply step_worker_at; [eapply nth_error_setNth_same; eauto|].
    simpl. unfold classify, matchNext. rewrite Hsk, Hd, Hm. reflexivity. }
  (* the append *)
  eapply steps_next.
  { eapply step_worker_at; [simpl; eapply nth_error_setNth_same;
                            eapply nth_error_setNth_same; eauto|].
    simpl. reflexivity. }
  (* the found counter *)
  eapply steps_next.
  { eapply step_worker_at; [simpl; eapply nth_error_setNth_same;
                            eapply nth_error_setNth_same;
                            eapply nth_error_setNth_same; eauto|].
    simpl. reflexivity. }
  simpl. rewrite !setNth_setNth. unfold recorded, AddInt64.
  rewrite !wrap64_small by (unfold maxResults in *; lia).
  simpl. apply steps_refl.
Qed.

Lemma recorded_cons i dir e files rest s :
  recorded i dir files rest (recorded i dir [e] (files ++ rest) s)
  = recorded i dir (e :: files) rest s.
Proof.
  unfold recorded. simpl. rewrite setNth_setNth, <- app_assoc. simpl.
  f_equal. f_equal; lia.
Qed.

Lemma record_all i dir files rest :
  forall s,
    nth_error (workers s) i = Some (Run (Head dir (files ++ rest))) ->
    forallb (fun e => negb (IsDir e) && isMatch dir e) files = true ->
    (0 <= found (mem s))%Z ->
    (found (mem s) + Z.of_nat (List.length files) <= maxResults)%Z ->
    (0 <= scanned (mem s))%Z ->
    (scanned (mem s) + Z.of_nat (List.length files) < 2 ^ 63)%Z ->
    steps s (recorded i dir files rest s).
Proof.
  induction files as [|e files IH]; intros s Hw Hall Hf0 Hf1 Hs0 Hs1.
  - rewrite recorded_nil by assumption. apply steps_refl.
  - simpl in Hall. apply andb_prop in Hall. destruct Hall as [He Hall].
    apply andb_prop in He. destruct He as [Hd Hm]. apply negb_true_iff in Hd.
    simpl List.length in *. rewrite Nat2Z.inj_succ in *.
    rewrite <- recorded_cons.
    eapply steps_trans.
    + apply (@record_one i dir e (files ++ rest) s Hw Hd Hm);
        unfold maxResults in *; lia.
    + apply IH; simpl; try assumption; try lia.
      eapply nth_error_setNth_same; eauto.
Qed.

Lemma returned_answer n s :
  steps (start n) s -> isRet (caller s) = true ->
  exists a, returns n a /\ caller s = MRet a
            /\ matches a = GoSort.Strings (matched (mem s))
            /\ scannedCount a = scanned (mem s).
Proof.
  intros Hs Hr. destruct (isRet_MRet _ Hr) as [a Ha].
  exists a. split; [exists s; auto|]. split; [assumption|].
  rewrite (answer_steps Hs Ha). split; reflexivity.
Qed.

(* ================================================================== *)
(** ** The scan counter *)

Lemma scannedF_matchNext dir e rest : scannedF (matchNext dir e rest) <= 1.
Proof. unfold matchNext. destruct (isMatch dir e); simpl; lia. Qed.

Lemma scannedF_callInline dir e calls :
  list_sum (map scannedF (callInline dir e calls)) = list_sum (map scannedF calls).
Proof. unfold callInline. destruct (ReadDir e); reflexivity. Qed.

Lemma stepFrame_meter f m a m' :
  stepFrame f m = (a, m') ->
  (0 <= scanned m)%Z -> (scanned m + 1 < 2 ^ 63)%Z ->
  (scanned m <= scanned m')%Z
  /\ (scanned m' + Z.of_nat (scanA a) <= scanned m + Z.of_nat (scanF f))%Z
  /\ (Z.of_nat (List.length (matched m') + scannedA a) - scanned m'
      <= Z.of_nat (List.length (matched m) + scannedF f) - scanned m)%Z.
Proof.
  destruct f as [dir [|e rest]|[] dir e rest]; simpl;
    try destruct (maxResults <=? found m)%Z eqn:Hcap;
    intros H; frame_cases H; intros H0 H1;
    cbn [scannedA scannedF]; rewrite ?length_app; simpl;
    unfold AddInt64; rewrite ?wrap64_small; lia.
Qed.

Lemma stepWorker_meter w m w' m' :
  stepWorker w m = Next (w', m') ->
  (0 <= scanned m)%Z -> (scanned m + 1 < 2 ^ 63)%Z ->
  (scanned m <= scanned m')%Z
  /\ (scanned m' + Z.of_nat (list_sum (map scanDir (dirQueue m')) + scanW w')
      <= scanned m + Z.of_nat (list_sum (map scanDir (dirQueue m)) + scanW w))%Z
  /\ (Z.of_nat (List.length (matched m') + scannedW w') - scanned m'
      <= Z.of_nat (List.length (matched m) + scannedW w) - scanned m)%Z.
Proof.
  intros H H0 H1. worker_cases H;
    try match goal with
      | Hf : stepFrame _ _ = _ |- _ =>
          pose proof (stepFrame_meter _ _ Hf H0 H1) as (Hmono & Hup & Hlow);
          pose proof (stepFrame_weight _ _ Hf) as Hsub;
          cbn beta iota in Hsub; try (subst f);
          destruct (stepFrame_mem _ _ Hf) as (_ & _ & Hq1 & _);
          revert Hmono Hup Hlow
      end;
    cbn [scannedW scannedA scannedF];
    sum_simpl;
    repeat match goal with
      | H : dirQueue _ = _ |- _ => rewrite H
      | H : dlist _ = Some _ |- _ => rewrite (scanDir_Some _ H)
      | H : dlist _ = None |- _ => rewrite (scanDir_None _ H)
      end; sum_simpl;
    rewrite ?scannedF_callInline; sums;
    repeat match goal with
      | |- context [scannedF (matchNext ?d ?e ?r)] =>
          generalize (scannedF_matchNext d e r);
          generalize (scannedF (matchNext d e r)); intros ? ?
      end;
    cbn [scannedF]; intros; lia.
Qed.

Lemma metered_start n : metered (start n).
Proof.
  assert (H : list_sum (map scanW (repeat Recv n)) = 0)
    by (induction n; simpl; auto).
  assert (H' : list_sum (map scannedW (repeat Recv n)) = 0)
    by (induction n; simpl; auto).
  constructor; unfold scanTodo; simpl; rewrite ?H, ?H'; simpl; lia.
Qed.

Lemma metered_step t s s' :
  (Z.of_nat scans < 2 ^ 62)%Z ->
  metered s -> step t s = Next s' -> metered s'.
Proof.
  intros Hlen [Hup Hlow] H. unfold scanTodo in *.
  assert (H0 : (0 <= scanned (mem s))%Z) by lia.
  assert (H1 : (scanned (mem s) + 1 < 2 ^ 63)%Z) by lia.
  apply step_cases in H.
  destruct H as [(-> & c & m & Hs & ->) | [(-> & c & m & Hs & ->) | (i & w & w' & m & -> & Hw & Hs & ->)]];
    constructor; unfold scanTodo; simpl.
  - destruct (stepMain_ctl _ _ Hs) as (_ & _ & _ & _ & -> & _).
    pose proof (stepMain_scan _ _ Hs). lia.
  - destruct (stepMain_ctl _ _ Hs) as (_ & _ & _ & -> & -> & _). lia.
  - apply stepCloser_spec in Hs.
    destruct Hs as [(_ & _ & _ & ->) | (_ & _ & _ & ->)]; simpl; lia.
  - apply stepCloser_spec in Hs.
    destruct Hs as [(_ & _ & _ & ->) | (_ & _ & _ & ->)]; simpl; lia.
  - destruct (stepWorker_meter _ _ Hs H0 H1) as (_ & Hu & _).
    pose proof (sum_setNth scanW (workers s) i w' Hw). lia.
  - destruct (stepWorker_meter _ _ Hs H0 H1) as (_ & _ & Hl).
    pose proof (sum_setNth scannedW (workers s) i w' Hw). lia.
Qed.

Lemma metered_steps n s :
  (Z.of_nat scans < 2 ^ 62)%Z ->
  steps (start n) s -> metered s.
Proof.
  intros Hlen H.
  enough (G : forall s0, steps s0 s -> metered s0 -> metered s).
  { apply (G _ H), metered_start. }
  clear H. induction 1; eauto using metered_step.
Qed.

(* ================================================================== *)
(** ** The calls of [walkInline] are nested in the tree *)

Lemma heights_cons e es : heights (e :: es) = Nat.max (height e) (heights es).
Proof. reflexivity. Qed.

Lemma ReadDir_height e es : ReadDir e = Some es -> 1 + heights es = height e.
Proof. destruct e as [n|n [l|]]; simpl; intros H; inversion H; reflexivity. Qed.

Lemma depth_ReadDir e : depth (ReadDir e) <= height e.
Proof. destruct e as [n|n [l|]]; simpl; unfold heights; lia. Qed.

Lemma entries_matchNext dir e rest :
  heights (entriesF (matchNext dir e rest)) <= heights (e :: rest).
Proof.
  unfold matchNext. destruct (isMatch dir e); cbn [entriesF];
    rewrite ?heights_cons; lia.
Qed.

Lemma stepFrame_tall f m a m' :
  stepFrame f m = (a, m') ->
  match a with
  | Continue f' => heights (entriesF f') <= heights (entriesF f)
  | _ => True
  end.
Proof.
  destruct f as [dir [|e rest]|[] dir e rest]; simpl;
    try destruct (maxResults <=? found m)%Z eqn:Hcap;
    intros H; inversion H; subst; clear H; try exact I;
    unfold classify, matchNext; split_ifs; cbn [entriesF];
    rewrite ?heights_cons; lia.
Qed.

Lemma stacked_length h calls : stacked h calls -> List.length calls <= h.
Proof. destruct calls; simpl; lia. Qed.

Lemma stacked_push h dir e rest calls :
  heights (e :: rest) + S (List.length calls) <= h ->
  stacked h calls ->
  stacked h (callInline dir e (matchNext dir e rest :: calls)).
Proof.
  intros Hh Hs. pose proof (entries_matchNext dir e rest) as Hm.
  rewrite heights_cons in *.
  unfold callInline. destruct (ReadDir e) as [es|] eqn:E.
  - apply ReadDir_height in E. cbn [stacked entriesF List.length].
    repeat split; try assumption; lia.
  - cbn [stacked List.length]. split; [lia | assumption].
Qed.

Lemma stepWorker_tall h w m w' m' :
  stepWorker w m = Next (w', m') ->
  tallW h w ->
  (forall d, In d (dirQueue m) -> depth (dlist d) <= h) ->
  tallW h w' /\ (forall d, In d (dirQueue m') -> depth (dlist d) <= h).
Proof.
  intros H Hw Hq. worker_cases H;
    try match goal with
      | Hf : stepFrame _ _ = _ |- _ =>
          pose proof (stepFrame_tall _ _ Hf) as Ht;
          pose proof (stepFrame_weight _ _ Hf) as Hsub;
          cbn beta iota in Hsub; try (subst f);
          destruct (stepFrame_mem _ _ Hf) as (_ & _ & Hq1 & _);
          try rewrite Hq1
      end;
    cbn [tallW dirQueue setQueue setPending setWg entriesF] in *.
  all: try rewrite Hq1.
  all: try (split; [exact I | assumption]).
  all: try (split; [exact I | ]; intros d Hd; rewrite Hq0 in *; auto; fail).
  - split; [apply Hq; left; reflexivity | intros d0 Hd; apply Hq; right; exact Hd].
  - rewrite Hl in Hw. split; assumption.
  - split; [lia | assumption].
  - split; assumption.
  - split.
    + pose proof (entries_matchNext dir e rest). lia.
    + intros d Hd. apply in_app_or in Hd. destruct Hd as [Hd | [<- | []]]; auto.
      cbn [childRef dlist]. pose proof (depth_ReadDir e).
      rewrite heights_cons in Hw. lia.
  - split; [|assumption]. split; [assumption|].
    unfold callInline. destruct (ReadDir e) as [es|] eqn:E; [|exact I].
    apply ReadDir_height in E. cbn [stacked entriesF List.length]. split; [lia | exact I].
  - split; [|assumption]. pose proof (entries_matchNext dir e rest). lia.
  - split; [|assumption]. destruct Hw as [Hw [Hs1 Hs2]].
    split; [assumption|]. cbn [stacked List.length] in *. split; [lia | assumption].
  - split; [|assumption]. destruct Hw as [Hw [Hs1 Hs2]]. split; assumption.
  - split; [|assumption]. destruct Hw as [Hw [Hs1 Hs2]]. split; [assumption|].
    cbn [entriesF List.length] in Hs1. apply stacked_push; assumption.
Qed.

Lemma tallM_seedNext h es : heights es <= h -> tallM h (seedNext es).
Proof.
  induction es as [|e es IH]; intros H; cbn [seedNext]; [exact I|].
  destruct (IsDir e && negb (skipped e)); [exact H|].
  apply IH. rewrite heights_cons in H. lia.
Qed.

Lemma stepMain_tall h c m c' m' :
  stepMain c m = Next (c', m') ->
  tallM h c ->
  (forall d, In d (dirQueue m) -> depth (dlist d) <= h) ->
  tallM h c' /\ (forall d, In d (dirQueue m') -> depth (dlist d) <= h).
Proof.
  intros H Hc Hq. main_cases H;
    cbn [tallM dirQueue setQueue setPending] in *;
    try (split; [first [exact I | assumption] | assumption]).
  - split.
    + destruct rootList as [es|]; [apply tallM_seedNext; exact Hc | exact I].
    + intros d Hd. apply in_app_or in Hd. destruct Hd as [Hd | [<- | []]]; auto.
  - rewrite heights_cons in Hc. split.
    + apply tallM_seedNext. lia.
    + intros d Hd. apply in_app_or in Hd. destruct Hd as [Hd | [<- | []]]; auto.
      cbn [childRef dlist]. pose proof (depth_ReadDir e). lia.
Qed.

Lemma tall_start n : tall (depth rootList) (start n).
Proof.
  constructor; simpl.
  - apply Nat.le_refl.
  - intros d [].
  - intros w Hw. apply repeat_spec in Hw. subst. exact I.
Qed.

Lemma tall_step h t s s' : tall h s -> step t s = Next s' -> tall h s'.
Proof.
  intros [Hc Hq Hw] H. apply step_cases in H.
  destruct H as [(-> & c & m & Hs & ->) | [(-> & c & m & Hs & ->) | (i & w & w' & m & -> & Hi & Hs & ->)]].
  - destruct (@stepMain_tall h _ _ _ _ Hs Hc Hq) as [Hc' Hq'].
    constructor; simpl; assumption.
  - apply stepCloser_spec in Hs.
    destruct Hs as [(_ & _ & _ & ->) | (_ & _ & _ & ->)]; constructor; simpl; assumption.
  - apply nth_error_In in Hi as Hin.
    destruct (@stepWorker_tall h _ _ _ _ Hs (Hw _ Hin) Hq) as [Hw' Hq'].
    constructor; simpl; try assumption.
    intros y Hy. apply In_setNth in Hy. destruct Hy as [-> | Hy]; auto.
Qed.

Lemma tall_steps n s : steps (start n) s -> tall (depth rootList) s.
Proof.
  intros H.
  enough (G : forall s0, steps s0 s -> tall (depth rootList) s0 -> tall (depth rootList) s).
  { apply (G _ H), tall_start. }
  clear H. induction 1; eauto using tall_step.
Qed.

(* ================================================================== *)
(** ** How far [found] can pass the cap *)

Lemma aheadF_le f : aheadF f <= 1.
Proof. destruct f; simpl; lia. Qed.

Lemma aheadF_sum calls : list_sum (map aheadF calls) <= List.length calls.
Proof.
  induction calls as [|f calls IH]; simpl; [lia|].
  pose proof (aheadF_le f). lia.
Qed.

Lemma aheadW_le h w : tallW h w -> aheadW w <= 1 + h.
Proof.
  destruct w as [ | d | f | dir e rest | calls dir e rest | | | ]; simpl;
    intros H; try lia.
  - pose proof (aheadF_le f). lia.
  - destruct H as [He Hs]. apply stacked_length in Hs.
    pose proof (aheadF_sum calls). rewrite heights_cons in He. lia.
Qed.

Lemma aheadW_sum h ws :
  (forall w, In w ws -> tallW h w) ->
  list_sum (map aheadW ws) <= List.length ws * (1 + h).
Proof.
  induction ws as [|w ws IH]; intros H; simpl; [lia|].
  pose proof (aheadW_le h w (H w (or_introl eq_refl))).
  assert (list_sum (map aheadW ws) <= List.length ws * (1 + h)).
  { apply IH. intros x Hx. apply H. right. exact Hx. }
  lia.
Qed.

Lemma aheadF_matchNext dir e rest : aheadF (matchNext dir e rest) <= 1.
Proof. apply aheadF_le. Qed.

Lemma aheadF_callInline dir e calls :
  list_sum (map aheadF (callInline dir e calls)) = list_sum (map aheadF calls).
Proof. unfold callInline. destruct (ReadDir e); reflexivity. Qed.

Lemma stepFrame_ahead f m a m' :
  stepFrame f m = (a, m') ->
  (0 <= found m)%Z -> (found m + 1 < 2 ^ 63)%Z ->
  (found m' + Z.of_nat (aheadA a) <= found m + Z.of_nat (aheadF f))%Z
  \/ ((found m < maxResults)%Z /\ found m' = found m).
Proof.
  destruct f as [dir [|e rest]|[] dir e rest]; simpl;
    try destruct (maxResults <=? found m)%Z eqn:Hcap;
    intros H; frame_cases H; intros H0 H1;
    cbn [aheadA aheadF]; unfold AddInt64; rewrite ?wrap64_small;
    try apply Z.leb_gt in Hcap; lia.
Qed.

Lemma stepWorker_ahead w m w' m' :
  stepWorker w m = Next (w', m') ->
  (0 <= found m)%Z -> (found m + 1 < 2 ^ 63)%Z ->
  (found m' + Z.of_nat (aheadW w') <= found m + Z.of_nat (aheadW w))%Z
  \/ ((found m < maxResults)%Z /\ found m' = found m).
Proof.
  intros H H0 H1. worker_cases H;
    try match goal with
      | Hf : stepFrame _ _ = _ |- _ =>
          pose proof (stepFrame_ahead _ _ Hf H0 H1) as Ha;
          pose proof (stepFrame_weight _ _ Hf) as Hsub;
          cbn beta iota in Hsub; try (subst f);
          revert Ha
      end;
    cbn [aheadW aheadA aheadF found setQueue setPending setWg];
    sums; rewrite ?aheadF_callInline; sums;
    repeat match goal with
      | |- context [aheadF (matchNext ?d ?e ?r)] =>
          generalize (aheadF_matchNext d e r);
          generalize (aheadF (matchNext d e r)); intros ? ?
      end;
    cbn [aheadF]; intros; lia.
Qed.

Lemma capped_start n h : capped n h (start n).
Proof.
  unfold capped. cbn [start mem found workers].
  assert (H : list_sum (map aheadW (repeat Recv n)) = 0)
    by (induction n; simpl; auto).
  rewrite H. unfold maxResults. lia.
Qed.

Lemma capped_step n h t s s' :
  (Z.of_nat (List.length traversal) < 2 ^ 62)%Z ->
  counted s -> tall h s' -> List.length (workers s') = n ->
  capped n h s -> step t s = Next s' -> capped n h s'.
Proof.
  intros Hlen C T Hn Hc H. unfold capped in *.
  pose proof (counted_length C) as Hm.
  destruct (cnt_found C) as [H0 H1].
  assert (Hf1 : (found (mem s) + 1 < 2 ^ 63)%Z) by lia.
  pose proof (aheadW_sum h (workers s') (tall_workers T)) as Hsum.
  rewrite Hn in Hsum. revert Hsum Hc.
  generalize (n * (1 + h)). intros bound Hsum Hc.
  apply step_cases in H.
  destruct H as [(-> & c & m & Hs & ->) | [(-> & c & m & Hs & ->) | (i & w & w' & m & -> & Hw & Hs & ->)]];
    cbn [mem workers caller closer] in *.
  - destruct (stepMain_ctl _ _ Hs) as (_ & _ & _ & _ & _ & -> & _). lia.
  - apply stepCloser_spec in Hs.
    destruct Hs as [(_ & _ & _ & ->) | (_ & _ & _ & ->)];
      cbn [found setClosed]; assumption.
  - pose proof (sum_setNth aheadW (workers s) i w' Hw).
    destruct (stepWorker_ahead _ _ Hs H0 Hf1) as [Hle | [Hlt Heq]]; lia.
Qed.

Lemma capped_steps n s :
  (Z.of_nat (List.length traversal) < 2 ^ 62)%Z ->
  steps (start n) s -> capped n (depth rootList) s.
Proof.
  intros Hlen H.
  enough (G : forall s0, steps s0 s -> steps (start n) s0 ->
                         capped n (depth rootList) s0 ->
                         capped n (depth rootList) s).
  { apply (G _ H); [apply steps_refl | apply capped_start]. }
  clear H. induction 1 as [|t s0 s1 s2 Hst Hss IH]; intros Hr Hc; [assumption|].
  assert (Hr1 : steps (start n) s1).
  { eapply steps_trans; [exact Hr|]. eapply steps_next; [exact Hst | apply steps_refl]. }
  apply IH; [exact Hr1|].
  eapply capped_step; try eassumption.
  - exact (counted_steps Hlen Hr).
  - exact (tall_steps Hr1).
  - rewrite (steps_workers_length Hr1). simpl. apply repeat_length.
Qed.

(* ================================================================== *)
(** ** The entries scanned and the entries of the tree *)

Lemma scanEntry_entryCount e : scanEntry e <= entryCount e.
Proof.
  induction e as [n|n|n es IH] using entry_tree_ind;
    cbn [scanEntry entryCount]; destruct (skipped _); try lia.
  enough (list_sum (map scanEntry es) <= list_sum (map entryCount es)) by lia.
  induction IH as [|e es He _ IHes]; sums; lia.
Qed.

Lemma scanEntries_entryCount es :
  scanEntries es <= list_sum (map entryCount es).
Proof.
  unfold scanEntries. induction es as [|e es IH]; sums; [lia|].
  pose proof (scanEntry_entryCount e). lia.
Qed.

Lemma subScan_entryCount e : subScan e <= entryCount e.
Proof.
  destruct e as [n|n [es|]]; cbn [subScan ReadDir entryCount]; try lia.
  pose proof (scanEntries_entryCount es). lia.
Qed.

Lemma seeds_entryCount es :
  list_sum (map scanDir (seeds es)) <= list_sum (map entryCount es).
Proof.
  unfold seeds. induction es as [|e es IH]; cbn [filter map]; sums; [lia|].
  destruct (IsDir e && negb (skipped e)); sums;
    rewrite ?scanDir_childRef; pose proof (subScan_entryCount e); lia.
Qed.

Lemma scans_treeCount : scans <= 2 * treeCount.
Proof.
  unfold scans, sent, treeCount. destruct rootList as [es|]; sums;
    cbn [scanDir dlist]; [|lia].
  pose proof (scanEntries_entryCount es). pose proof (seeds_entryCount es). lia.
Qed.

End Search.

(* ================================================================== *)
(** ** The error of a search *)

(** C7.  With at least one worker [parallelWalk] returns, and in every
    run the returned error is non-nil exactly when [os.ReadDir(root)]
    fails; then no path is returned and the scanned count is zero.  When
    the root can be read the error is nil whatever its entries are, also
    when directories below it cannot be read. *)
Theorem C7_error_iff_root_unreadable root rootList query mode skip n :
  0 < n ->
  (exists a, returns root rootList query mode skip n a)
  /\ forall a, returns root rootList query mode skip n a ->
       (err a <> None <-> rootList = None)
       /\ (rootList = None -> matches a = [] /\ scannedCount a = 0%Z)
       /\ (forall topEntries, rootList = Some topEntries -> err a = None).
Proof.
  intros Hn. split; [apply returns_exists; assumption|].
  intros a Ha.
  destruct (returns_sound Ha) as [_ He]. rewrite He. unfold rootErr.
  repeat split.
  - destruct rootList; [intros H; contradiction H; reflexivity | reflexivity].
  - intros ->. discriminate.
  - subst rootList.
    assert (Hu := @returns_uncut root None query mode skip n a Hn).
    rewrite Hu; [reflexivity | reflexivity | assumption].
  - subst rootList.
    assert (Hu := @returns_uncut root None query mode skip n a Hn).
    rewrite Hu; [reflexivity | reflexivity | assumption].
  - intros es ->. reflexivity.
Qed.

Lemma C7_witness :
  0 < numWorkers
  /\ returns "root" None "abc" ModeBoth true numWorkers
       {| matches := []; scannedCount := 0; err := Some (ReadDirError "root") |}
  /\ (Some (ReadDirError "root") <> None <-> @None (list entry) = None).
Proof.
  assert (Hn : 0 < numWorkers) by (unfold numWorkers; lia).
  assert (Hr : returns "root" None "abc" ModeBoth true numWorkers
                 {| matches := []; scannedCount := 0;
                    err := Some (ReadDirError "root") |}).
  { apply (@outcome_returns "root" None "abc" ModeBoth true numWorkers [] 100).
    vm_compute. reflexivity. }
  split; [exact Hn|]. split; [exact Hr|].
  exact (proj1 (proj2 (@C7_error_iff_root_unreadable "root" None "abc" ModeBoth true
                         numWorkers Hn) _ Hr)).
Defined.

(* ================================================================== *)
(** ** The queue is closed only when nothing is pending *)

(** C9.  In every state of every run: the [pending] counter is the
    number of directories in the queue plus the units the goroutines
    hold for the directories they are processing or about to send;
    while the queue is closed the counter is zero, the queue is empty
    and no worker holds a directory; the step that closes the queue is
    taken at counter zero; once a worker has left its loop, no directory
    is queued or in process; and no step panics (no send on the closed
    channel, no negative counter). *)
Theorem C9_closed_only_when_drained root rootList query mode skip n s :
  steps root rootList query mode skip (start n) s ->
  pending (mem s)
  = Z.of_nat (List.length (dirQueue (mem s)) + holdsM (caller s)
              + list_sum (map holdsW (workers s)))
  /\ (closed (mem s) = true ->
      pending (mem s) = 0%Z /\ dirQueue (mem s) = []
      /\ forall w, In w (workers s) -> holdsW w = 0)
  /\ (forall s', step root rootList query mode skip TCloser s = Next s' ->
      closed (mem s) = false -> closed (mem s') = true ->
      pending (mem s) = 0%Z)
  /\ (forall w, In w (workers s) -> exited w = true ->
      dirQueue (mem s) = [] /\ forall w', In w' (workers s) -> holdsW w' = 0)
  /\ (forall t, step root rootList query mode skip t s <> Panic).
Proof.
  intros Hs.
  pose proof (inv_steps Hs (inv_start n)) as I.
  assert (Hclosed : closed (mem s) = true ->
            pending (mem s) = 0%Z /\ dirQueue (mem s) = []
            /\ forall w, In w (workers s) -> holdsW w = 0).
  { intros Hc.
    assert (Hp : pending (mem s) = 0%Z).
    { apply (inv_drained I). right. apply (inv_closed I). assumption. }
    destruct (inv_holds_zero I Hp) as (Hq & _ & Hw). auto. }
  split; [apply (inv_pending I)|].
  split; [exact Hclosed|].
  split.
  { intros s' Hstep Hc Hc'.
    apply (inv_drained I).
    simpl in Hstep.
    destruct (stepCloser (closer s) (mem s)) as [| |[c m]] eqn:E; try discriminate.
    apply stepCloser_spec in E.
    destruct E as [(_ & _ & H0 & ->) | (E & _)]; [|left; assumption].
    inversion Hstep; subst s'. simpl in Hc'. congruence. }
  split.
  { intros w Hw He. apply Hclosed. eapply (inv_exited I); eauto. }
  intros t. apply step_no_panic. assumption.
Qed.

Lemma C9_witness :
  let s := exec "root" (Some scenario) "abc" ModeBoth true 40 (start numWorkers) in
  steps "root" (Some scenario) "abc" ModeBoth true (start numWorkers) s
  /\ pending (mem s) = 2%Z
  /\ closed (mem s) = false.
Proof.
  intros s.
  assert (Hs : steps "root" (Some scenario) "abc" ModeBoth true (start numWorkers) s)
    by apply exec_steps.
  pose proof (@C9_closed_only_when_drained _ _ _ _ _ _ _ Hs) as H.
  split; [exact Hs|]. split.
  - rewrite (proj1 H). vm_compute. reflexivity.
  - vm_compute. reflexivity.
Defined.

(* ================================================================== *)
(** ** Paths below the first level are recorded twice *)

Lemma below_cap root rootList query mode skip n a l k :
  0 < n ->
  traversal root rootList query mode skip = l ->
  scans root rootList skip = k ->
  (Z.of_nat (List.length l) <? maxResults)%Z = true ->
  returns root rootList query mode skip n a ->
  a = {| matches := GoSort.Strings l;
         scannedCount := wrap64 (Z.of_nat k);
         err := rootErr root rootList |}.
Proof.
  intros Hn <- <- Hlen Ha. apply Z.ltb_lt in Hlen.
  exact (@returns_uncut root rootList query mode skip n a Hn Hlen Ha).
Qed.

(** C1.  On [root/abc/report.txt], query "abc": the search returns, and
    every run returns [root/abc/report.txt] twice: the directory
    [root/abc] is sent to the queue by the caller and again by the
    worker that lists the root, and both copies are processed. *)
Theorem C1_subdirectory_paths_twice :
  (exists a, returns "root" (Some nested) "abc" ModeBoth true numWorkers a)
  /\ forall a, returns "root" (Some nested) "abc" ModeBoth true numWorkers a ->
       matches a = ["root/abc"; "root/abc/report.txt"; "root/abc/report.txt"]
       /\ ~ NoDup (matches a).
Proof.
  assert (Hn : 0 < numWorkers) by (unfold numWorkers; lia).
  split; [apply returns_exists; exact Hn|].
  intros a Ha.
  rewrite (@below_cap "root" (Some nested) "abc" ModeBoth true numWorkers a
             ["root/abc/report.txt"; "root/abc"; "root/abc/report.txt"] 3 Hn
             eq_refl eq_refl eq_refl Ha).
  split; [reflexivity|].
  change (~ NoDup ["root/abc"; "root/abc/report.txt"; "root/abc/report.txt"]).
  intros H. inversion H as [|? ? _ Hrest]. inversion Hrest as [|? ? Hnotin _].
  apply Hnotin. left. reflexivity.
Qed.

(* ================================================================== *)
(** ** The scenario of the specification *)

(** C2, as stated, fails: the result is not the set
    [{root/abc, root/ABC123}]. *)
Lemma C2_counterexample :
  ~ (forall a, returns "root" (Some scenario) "abc" ModeBoth true numWorkers a ->
       forall p, In p (matches a) <-> (p = "root/abc" \/ p = "root/ABC123")).
Proof.
  intros H.
  assert (Hr : returns "root" (Some scenario) "abc" ModeBoth true numWorkers
                 {| matches := ["root/ABC123"; "root/abc"; "root/abc/report.txt";
                                "root/abc/report.txt"];
                    scannedCount := 6; err := None |}).
  { apply (@outcome_returns "root" (Some scenario) "abc" ModeBoth true numWorkers [] 200).
    vm_compute. reflexivity. }
  destruct (proj1 (H _ Hr "root/abc/report.txt")) as [E|E]; try discriminate.
  simpl. auto.
Qed.

(** C2, amended.  On the tree of the scenario the search returns, and
    every run returns a list in increasing order whose elements are
    [root/ABC123], [root/abc] and [root/abc/report.txt]: the full path
    of [report.txt] contains "abc". *)
Theorem C2_scenario_result :
  (exists a, returns "root" (Some scenario) "abc" ModeBoth true numWorkers a)
  /\ forall a, returns "root" (Some scenario) "abc" ModeBoth true numWorkers a ->
       StronglySorted (fun x y => String.leb x y = true) (matches a)
       /\ forall p, In p (matches a) <->
                    (p = "root/ABC123" \/ p = "root/abc" \/ p = "root/abc/report.txt").
Proof.
  assert (Hn : 0 < numWorkers) by (unfold numWorkers; lia).
  split; [apply returns_exists; exact Hn|].
  intros a Ha.
  rewrite (@below_cap "root" (Some scenario) "abc" ModeBoth true numWorkers a
             ["root/ABC123"; "root/abc/report.txt"; "root/abc"; "root/abc/report.txt"]
             6 Hn eq_refl eq_refl eq_refl Ha).
  split; [apply Strings_sorted|].
  intros p. change (matches _) with
    ["root/ABC123"; "root/abc"; "root/abc/report.txt"; "root/abc/report.txt"].
  simpl. intuition congruence.
Qed.

(* ================================================================== *)
(** ** Skipped directories *)

Lemma skipped_false_kept e :
  skipped true e = false -> IsDir e = true -> keptName (Name e).
Proof.
  unfold skipped, keptName. intros H Hd. rewrite Hd in H. simpl in H.
  apply orb_false_iff in H. exact H.
Qed.

(** C3, as stated, fails: a file whose name begins with '.' or is in
    the skip-set is returned. *)
Lemma C3_counterexample :
  ~ (forall a, returns "root" (Some dotfile) "n" ModeBoth true numWorkers a ->
       forall p, In p (matches a) ->
       forall seg, In seg (GoPath.split p) -> keptName seg).
Proof.
  intros H.
  assert (Hr : returns "root" (Some dotfile) "n" ModeBoth true numWorkers
                 {| matches := ["root/.env"; "root/bin"];
                    scannedCount := 2; err := None |}).
  { apply (@outcome_returns "root" (Some dotfile) "n" ModeBoth true numWorkers [] 200).
    vm_compute. reflexivity. }
  destruct (H _ Hr "root/.env" (or_introl eq_refl) ".env") as [_ E].
  - vm_compute. auto.
  - discriminate.
Qed.

(** C3, amended.  With [skipSystemDirs] set, every returned path is the
    root joined with the names of entries that lead from the root to a
    visited entry, each an entry of the directory before it; every
    directory on the way has a name that, in lower case, is not in the
    skip-set and does not begin with '.', and so has the last entry when
    it is a directory.  (The name of a returned file and the segments of
    the root itself are not restricted.) *)
Theorem C3_no_path_through_skipped_directory root rootList query mode n a p :
  returns root rootList query mode true n a ->
  In p (matches a) ->
  exists trail e,
    visits root rootList true trail p e
    /\ p = Join (pathOf root trail) (Name e)
    /\ Forall (fun d => IsDir d = true /\ keptName (Name d)) trail
    /\ (IsDir e = true -> keptName (Name e)).
Proof.
  intros Ha Hp.
  destruct (returns_sound Ha) as [Hin _].
  destruct (traversal_visits _ _ _ _ _ _ (Hin p Hp)) as (trail & e & Hv & _ & _).
  exists trail, e. split; [exact Hv|].
  destruct Hv as (dir & es & L & He & Hsk & ->).
  rewrite (listed_pathOf L). split; [reflexivity|]. split.
  - pose proof (listed_unskipped L) as F.
    eapply Forall_impl; [|exact F].
    intros d [H1 H2]. split; [assumption | apply skipped_false_kept; assumption].
  - intros Hd. apply skipped_false_kept; assumption.
Qed.

Lemma C3_witness :
  returns "root" (Some scenario) "abc" ModeBoth true numWorkers
    {| matches := ["root/ABC123"; "root/abc"; "root/abc/report.txt";
                   "root/abc/report.txt"];
       scannedCount := 6; err := None |}
  /\ exists trail e,
       visits "root" (Some scenario) true trail "root/abc/report.txt" e
       /\ "root/abc/report.txt" = Join (pathOf "root" trail) (Name e)
       /\ Forall (fun d => IsDir d = true /\ keptName (Name d)) trail
       /\ (IsDir e = true -> keptName (Name e)).
Proof.
  assert (Hr : returns "root" (Some scenario) "abc" ModeBoth true numWorkers
                 {| matches := ["root/ABC123"; "root/abc"; "root/abc/report.txt";
                                "root/abc/report.txt"];
                    scannedCount := 6; err := None |}).
  { apply (@outcome_returns "root" (Some scenario) "abc" ModeBoth true numWorkers [] 200).
    vm_compute. reflexivity. }
  split; [exact Hr|].
  apply (@C3_no_path_through_skipped_directory _ _ _ _ _ _ _ Hr).
  simpl. auto.
Defined.

(* ================================================================== *)
(** ** Substring matching *)

(** The run on [deep] in which the caller sends the root and [d],
    worker 0 lists the root and sends [d] again, workers 1 and 2 each
    take one copy of [d], worker 1 records [f0000] .. [f4999], then
    worker 2 records the same 5000 files; [found] is then at the cap and
    both stop before [f5000]. *)
Lemma deep_double_run :
  exists s,
    steps "root" (Some deep) "f" ModeBoth true (start numWorkers) s
    /\ isRet (caller s) = true
    /\ Z.of_nat (List.length (matched (mem s))) = 10000%Z
    /\ existsb (String.eqb "root/d/f5000") (matched (mem s)) = false.
Proof.
  pose (files := map File (firstn (N.to_nat 5000) (names4 "f"))).
  pose (s1 := afterRun "root" (Some deep) "f" ModeBoth true
                (repeat TMain 5 ++ repeat (TWorker 0) 6
                 ++ repeat (TWorker 1) 2 ++ repeat (TWorker 2) 2)
                (start numWorkers)).
  pose (s2 := recorded 1 "root/d" files [File "f5000"] s1).
  pose (s3 := recorded 2 "root/d" files [File "f5000"] s2).
  pose (s4 := exec "root" (Some deep) "f" ModeBoth true 300 s3).
  assert (H1 : steps "root" (Some deep) "f" ModeBoth true (start numWorkers) s1).
  { apply afterRun_steps. vm_compute. reflexivity. }
  assert (H2 : steps "root" (Some deep) "f" ModeBoth true s1 s2).
  { apply record_all.
    - reflexivity.
    - vm_compute. reflexivity.
    - vm_compute. discriminate.
    - vm_compute. discriminate.
    - vm_compute. discriminate.
    - vm_compute. reflexivity. }
  assert (H3 : steps "root" (Some deep) "f" ModeBoth true s2 s3).
  { apply record_all.
    - reflexivity.
    - vm_compute. reflexivity.
    - vm_compute. discriminate.
    - vm_compute. discriminate.
    - vm_compute. discriminate.
    - vm_compute. reflexivity. }
  exists s4.
  split.
  { eapply steps_trans; [exact H1|]. eapply steps_trans; [exact H2|].
    eapply steps_trans; [exact H3 | apply exec_steps]. }
  repeat split; vm_compute; reflexivity.
Qed.

Lemma existsb_eqb_In p l : existsb (String.eqb p) l = true <-> In p l.
Proof.
  rewrite existsb_exists. split.
  - intros (x & Hx & E). apply String.eqb_eq in E. subst. assumption.
  - intros H. exists p. split; [assumption | apply String.eqb_refl].
Qed.

(** C5.  Completeness fails below the cap.  In [root/d] with the files
    [f0000] .. [f5000] and the query [f], 5001 entries match, which is
    below [maxResults]; [root/d/f5000] is visited and its name contains
    the query; yet a run with mode [Both] returns 10000 paths without
    it: [root/d] is walked twice, each of [f0000] .. [f4999] is recorded
    twice, and [found] reaches the cap before [f5000]. *)
Theorem C5_complete_fails_below_cap :
  exists a,
    returns "root" (Some deep) "f" ModeBoth true numWorkers a
    /\ Z.of_nat (List.length (walkEntries "f" ModeBoth true "root" deep)) = 5001%Z
    /\ (5001 < maxResults)%Z
    /\ visits "root" (Some deep) true
         [Folder "d" (Some (map File (firstn (N.to_nat 5001) (names4 "f"))))]
         "root/d/f5000" (File "f5000")
    /\ Contains (ToLower (Name (File "f5000"))) "f" = true
    /\ ~ In "root/d/f5000" (matches a)
    /\ Z.of_nat (List.length (matches a)) = 10000%Z.
Proof.
  destruct deep_double_run as (s & Hs & Hr & Hl & Hx).
  destruct (returned_answer Hs Hr) as (a & Ha & _ & Hm & _).
  exists a. split; [exact Ha|].
  split; [vm_compute; reflexivity|].
  split; [vm_compute; reflexivity|].
  split.
  { exists "root/d", (map File (firstn (N.to_nat 5001) (names4 "f"))).
    split.
    - apply (@listed_sub "root" (Some deep) true [] "root" deep
               (Folder "d" (Some (map File (firstn (N.to_nat 5001) (names4 "f")))))
               (map File (firstn (N.to_nat 5001) (names4 "f")))).
      + apply listed_root. reflexivity.
      + left. reflexivity.
      + reflexivity.
      + reflexivity.
    - split; [|split; reflexivity].
      apply in_map. apply existsb_eqb_In. vm_compute. reflexivity. }
  split; [reflexivity|].
  rewrite Hm. split.
  - intros Hin. apply (proj1 (Strings_In _ _)) in Hin.
    apply existsb_eqb_In in Hin. congruence.
  - rewrite Strings_length. exact Hl.
Qed.

(** X22.  With mode [Both]: every returned path is the path of a visited
    entry whose name or whose full path, in lower case, contains the
    query; and when the traversal records fewer than [maxResults]
    matches (the value [found] reaches, in which a match below a
    first-level directory counts twice), every visited entry whose name
    in lower case contains the query is returned.  Visited are the
    entries of the directories that can be read and are not skipped. *)
Theorem X22_both_sound_and_complete_uncut root rootList query skip n a :
  0 < n ->
  returns root rootList query ModeBoth skip n a ->
  (forall p, In p (matches a) ->
     exists trail e, visits root rootList skip trail p e
                     /\ textMatches query (Name e) p = true)
  /\ ((Z.of_nat (List.length (traversal root rootList query ModeBoth skip))
       < maxResults)%Z ->
      forall trail p e,
        visits root rootList skip trail p e ->
        Contains (ToLower (Name e)) query = true ->
        In p (matches a)).
Proof.
  intros Hn Ha. split.
  - intros p Hp. destruct (returns_sound Ha) as [Hin _].
    destruct (traversal_visits _ _ _ _ _ _ (Hin p Hp)) as (trail & e & Hv & Ht & _).
    eauto.
  - intros Hlen trail p e Hv Hc.
    rewrite (@returns_uncut _ _ _ _ _ _ _ Hn Hlen Ha). simpl.
    apply Strings_In.
    eapply visits_traversal; [exact Hv | | reflexivity].
    unfold textMatches. rewrite Hc. reflexivity.
Qed.

Lemma X22_witness :
  let a := {| matches := ["root/ABC123"; "root/abc"; "root/abc/report.txt";
                          "root/abc/report.txt"];
              scannedCount := 6; err := None |} in
  0 < numWorkers
  /\ returns "root" (Some scenario) "abc" ModeBoth true numWorkers a
  /\ (Z.of_nat (List.length (traversal "root" (Some scenario) "abc" ModeBoth true))
      < maxResults)%Z
  /\ (forall p, In p (matches a) ->
        exists trail e, visits "root" (Some scenario) true trail p e
                        /\ textMatches "abc" (Name e) p = true)
  /\ (forall trail p e,
        visits "root" (Some scenario) true trail p e ->
        Contains (ToLower (Name e)) "abc" = true ->
        In p (matches a)).
Proof.
  intros a.
  assert (Hn : 0 < numWorkers) by (unfold numWorkers; lia).
  assert (Hr : returns "root" (Some scenario) "abc" ModeBoth true numWorkers a).
  { apply (@outcome_returns "root" (Some scenario) "abc" ModeBoth true numWorkers [] 200).
    vm_compute. reflexivity. }
  assert (Hlen : (Z.of_nat (List.length (traversal "root" (Some scenario) "abc"
                                           ModeBoth true)) < maxResults)%Z).
  { vm_compute. reflexivity. }
  pose proof (@X22_both_sound_and_complete_uncut _ _ _ _ _ _ Hn Hr) as [H1 H2].
  split; [exact Hn|]. split; [exact Hr|]. split; [exact Hlen|].
  split; [exact H1 | exact (H2 Hlen)].
Defined.

(* ================================================================== *)
(** ** The empty query *)




(* ================================================================== *)
(** ** Reading the result of a computed run *)

Lemma check_outcome (o : option answer) (P : answer -> bool) :
  match o with Some a => P a | None => false end = true ->
  exists a, o = Some a /\ P a = true.
Proof. destruct o as [a|]; [eauto | discriminate]. Qed.

Lemma check_endState (o : option state) (P : state -> answer -> bool) :
  match o with
  | Some s => match caller s with MRet a => P s a | _ => false end
  | None => false
  end = true ->
  exists s a, o = Some s /\ caller s = MRet a /\ P s a = true.
Proof.
  destruct o as [s|]; [|discriminate].
  destruct (caller s) eqn:E; try discriminate. eauto.
Qed.

(* ================================================================== *)
(** ** Long runs on the two large trees *)

(** On [crowded]: the caller sends the root and [d] and starts the
    closing goroutine, worker 0 takes the root and sends [d] again; then
    worker 0 records [f0000] .. [f9998]; then it passes the cap test for
    [f9999], workers 1 and 2 take the two [d] and pass the cap test for
    [d/f], and the search runs to its end (the schedule [race], then
    whoever can move). *)
Lemma crowded_race_run :
  exists s,
    steps "root" (Some crowded) "f" ModeBoth true (start numWorkers) s
    /\ isRet (caller s) = true
    /\ found (mem s) = 10002%Z
    /\ scanned (mem s) = 10003%Z
    /\ Z.of_nat (List.length (matched (mem s))) = 10002%Z.
Proof.
  pose (s1 := afterRun "root" (Some crowded) "f" ModeBoth true
                (repeat TMain 5 ++ repeat (TWorker 0) 6) (start numWorkers)).
  pose (s2 := recorded 0 "root" (map File (removelast (names4 "f")))
                [File "f9999"] s1).
  pose (s3 := exec "root" (Some crowded) "f" ModeBoth true 200
                (afterRun "root" (Some crowded) "f" ModeBoth true
                   (repeat (TWorker 0) 2 ++ repeat (TWorker 1) 4
                    ++ repeat (TWorker 2) 4) s2)).
  assert (H1 : steps "root" (Some crowded) "f" ModeBoth true (start numWorkers) s1).
  { apply afterRun_steps. vm_compute. reflexivity. }
  assert (H2 : steps "root" (Some crowded) "f" ModeBoth true s1 s2).
  { apply record_all.
    - reflexivity.
    - vm_compute. reflexivity.
    - vm_compute. discriminate.
    - vm_compute. discriminate.
    - vm_compute. discriminate.
    - vm_compute. reflexivity. }
  assert (H3 : steps "root" (Some crowded) "f" ModeBoth true s2 s3).
  { eapply steps_trans; [|apply exec_steps].
    apply afterRun_steps. vm_compute. reflexivity. }
  exists s3.
  split; [eapply steps_trans; [exact H1|]; eapply steps_trans; eassumption|].
  repeat split; vm_compute; reflexivity.
Qed.

(** On [crowded] again: after the same start worker 0 records all of
    [f0000] .. [f9999] before any other worker moves; the two [d] are
    then taken from the queue at the cap and not read. *)
Lemma crowded_plain_run :
  exists s,
    steps "root" (Some crowded) "f" ModeBoth true (start numWorkers) s
    /\ isRet (caller s) = true
    /\ scanned (mem s) = 10001%Z.
Proof.
  pose (s1 := afterRun "root" (Some crowded) "f" ModeBoth true
                (repeat TMain 5 ++ repeat (TWorker 0) 6) (start numWorkers)).
  pose (s2 := recorded 0 "root" (map File (names4 "f")) [] s1).
  pose (s3 := exec "root" (Some crowded) "f" ModeBoth true 300 s2).
  assert (H1 : steps "root" (Some crowded) "f" ModeBoth true (start numWorkers) s1).
  { apply afterRun_steps. vm_compute. reflexivity. }
  assert (H2 : steps "root" (Some crowded) "f" ModeBoth true s1 s2).
  { apply record_all.
    - reflexivity.
    - vm_compute. reflexivity.
    - vm_compute. discriminate.
    - vm_compute. discriminate.
    - vm_compute. discriminate.
    - vm_compute. reflexivity. }
  exists s3.
  split; [eapply steps_trans; [exact H1|]; eapply steps_trans;
          [exact H2 | apply exec_steps]|].
  split; vm_compute; reflexivity.
Qed.

(** On [mixed] with mode [Both]: worker 0 takes the root and records
    the 10000 files; at [fz] the cap is reached. *)
Lemma mixed_both_run :
  exists s,
    steps "root" (Some mixed) "f" ModeBoth true (start numWorkers) s
    /\ isRet (caller s) = true
    /\ existsb (String.eqb "root/fz") (matched (mem s)) = false.
Proof.
  pose (s1 := afterRun "root" (Some mixed) "f" ModeBoth true
                (repeat TMain 5 ++ repeat (TWorker 0) 2) (start numWorkers)).
  pose (s2 := recorded 0 "root" (map File (names4 "f"))
                [Folder "fz" (Some [])] s1).
  pose (s3 := exec "root" (Some mixed) "f" ModeBoth true 300 s2).
  assert (H1 : steps "root" (Some mixed) "f" ModeBoth true (start numWorkers) s1).
  { apply afterRun_steps. vm_compute. reflexivity. }
  assert (H2 : steps "root" (Some mixed) "f" ModeBoth true s1 s2).
  { apply record_all.
    - reflexivity.
    - vm_compute. reflexivity.
    - vm_compute. discriminate.
    - vm_compute. discriminate.
    - vm_compute. discriminate.
    - vm_compute. reflexivity. }
  exists s3.
  split; [eapply steps_trans; [exact H1|]; eapply steps_trans;
          [exact H2 | apply exec_steps]|].
  split; vm_compute; reflexivity.
Qed.

(* ================================================================== *)
(** ** The three modes *)

Lemma walkEntry_modes query skip e :
  forall dir x,
    occ x (walkEntry query ModeBoth skip dir e)
    = occ x (walkEntry query ModeFiles skip dir e)
      + occ x (walkEntry query ModeFolders skip dir e).
Proof.
  induction e as [n|n|n es IH] using entry_tree_ind; intros dir x;
    rewrite !walkEntry_eq; unfold subWalk, walkDir, childRef, ownMatch, isMatch;
    cbn [dlist dpath ReadDir Name IsDir modeMatch negb];
    destruct (skipped skip _); rewrite ?occ_nil; try reflexivity;
    rewrite ?andb_true_r, ?andb_false_r, ?occ_app, ?occ_nil.
  - destruct (textMatch query dir (File n)); rewrite ?occ_nil; lia.
  - destruct (textMatch query dir (Folder n None)); rewrite ?occ_nil; lia.
  - assert (H : occ x (walkEntries query ModeBoth skip (Join dir n) es)
                = occ x (walkEntries query ModeFiles skip (Join dir n) es)
                  + occ x (walkEntries query ModeFolders skip (Join dir n) es)).
    { unfold walkEntries. rewrite !occ_flat_map.
      induction IH as [|e es He _ IHes]; simpl; [reflexivity|].
      rewrite He, IHes. lia. }
    rewrite H.
    destruct (textMatch query dir (Folder n (Some es))); rewrite ?occ_nil; lia.
Qed.

Lemma traversal_modes root rootList query skip x :
  occ x (traversal root rootList query ModeBoth skip)
  = occ x (traversal root rootList query ModeFiles skip)
    + occ x (traversal root rootList query ModeFolders skip).
Proof.
  unfold traversal. rewrite !occ_flat_map.
  induction (sent root rootList skip) as [|d ds IH]; simpl; [reflexivity|].
  rewrite IH.
  assert (H : occ x (walkDir query ModeBoth skip d)
              = occ x (walkDir query ModeFiles skip d)
                + occ x (walkDir query ModeFolders skip d)).
  { unfold walkDir. destruct (dlist d) as [es|]; [|reflexivity].
    unfold walkEntries. rewrite !occ_flat_map.
    induction es as [|e es IHes]; simpl; [reflexivity|].
    rewrite walkEntry_modes, IHes. lia. }
  lia.
Qed.

(** C6, as stated, fails on the 10000 files and the directory [fz]:
    with mode [Both] the cap is reached on the files and [root/fz] is
    not returned; with mode [Folders] it is. *)
Lemma C6_counterexample :
  ~ (forall aB aF aD,
       returns "root" (Some mixed) "f" ModeBoth true numWorkers aB ->
       returns "root" (Some mixed) "f" ModeFiles true numWorkers aF ->
       returns "root" (Some mixed) "f" ModeFolders true numWorkers aD ->
       forall p, In p (matches aB) <-> In p (matches aF) \/ In p (matches aD)).
Proof.
  intros H.
  assert (Hn : 0 < numWorkers) by (unfold numWorkers; lia).
  destruct mixed_both_run as (s & Hs & Hr & HB).
  destruct (returned_answer Hs Hr) as (aB & EB & _ & HmB & _).
  destruct (@returns_exists "root" (Some mixed) "f" ModeFiles true numWorkers Hn)
    as [aF HF].
  destruct (@returns_exists "root" (Some mixed) "f" ModeFolders true numWorkers Hn)
    as [aD ED].
  assert (HD : In "root/fz" (matches aD)).
  { rewrite (@returns_uncut "root" (Some mixed) "f" ModeFolders true numWorkers aD Hn);
      [|vm_compute; reflexivity | exact ED].
    cbn [matches]. apply Strings_In. apply existsb_eqb_In.
    vm_compute. reflexivity. }
  assert (Hin : In "root/fz" (matches aB)).
  { apply (H aB aF aD EB HF ED). right. assumption. }
  rewrite HmB in Hin. apply (proj1 (Strings_In _ _)) in Hin.
  apply existsb_eqb_In in Hin. congruence.
Qed.

(** C6, amended.  With mode [Files] every returned path is the path of
    a visited entry that is not a directory; with mode [Folders], of one
    that is a directory; and when the traversal with mode [Both] records
    fewer than [maxResults] matches, a path is returned with mode [Both]
    exactly when it is returned with mode [Files] or with mode
    [Folders]. *)
Theorem C6_mode_partition root rootList query skip n aB aF aD :
  0 < n ->
  returns root rootList query ModeBoth skip n aB ->
  returns root rootList query ModeFiles skip n aF ->
  returns root rootList query ModeFolders skip n aD ->
  (forall p, In p (matches aF) ->
     exists trail e, visits root rootList skip trail p e /\ IsDir e = false)
  /\ (forall p, In p (matches aD) ->
        exists trail e, visits root rootList skip trail p e /\ IsDir e = true)
  /\ ((Z.of_nat (List.length (traversal root rootList query ModeBoth skip))
       < maxResults)%Z ->
      forall p, In p (matches aB) <-> In p (matches aF) \/ In p (matches aD)).
Proof.
  intros Hn HB HF HD. split; [|split].
  - intros p Hp. destruct (returns_sound HF) as [Hin _].
    destruct (traversal_visits _ _ _ _ _ _ (Hin p Hp)) as (trail & e & Hv & _ & Hm).
    exists trail, e. split; [assumption|]. simpl in Hm.
    apply negb_true_iff in Hm. assumption.
  - intros p Hp. destruct (returns_sound HD) as [Hin _].
    destruct (traversal_visits _ _ _ _ _ _ (Hin p Hp)) as (trail & e & Hv & _ & Hm).
    exists trail, e. split; assumption.
  - intros Hlen p.
    pose proof (traversal_modes root rootList query skip) as Hocc.
    assert (HlF : List.length (traversal root rootList query ModeFiles skip)
                  <= List.length (traversal root rootList query ModeBoth skip)).
    { apply occ_length_le. intros x. rewrite (Hocc x). lia. }
    assert (HlD : List.length (traversal root rootList query ModeFolders skip)
                  <= List.length (traversal root rootList query ModeBoth skip)).
    { apply occ_length_le. intros x. rewrite (Hocc x). lia. }
    assert (HcF : (Z.of_nat (List.length (traversal root rootList query ModeFiles skip))
                   < maxResults)%Z) by lia.
    assert (HcD : (Z.of_nat (List.length (traversal root rootList query ModeFolders skip))
                   < maxResults)%Z) by lia.
    rewrite (@returns_uncut _ _ _ _ _ _ _ Hn Hlen HB).
    rewrite (@returns_uncut _ _ _ _ _ _ _ Hn HcF HF).
    rewrite (@returns_uncut _ _ _ _ _ _ _ Hn HcD HD).
    simpl. rewrite !Strings_In, !occ_In, (Hocc p). lia.
Qed.

Lemma C6_witness :
  let aB := {| matches := ["root/ABC123"; "root/abc"; "root/abc/report.txt";
                           "root/abc/report.txt"];
               scannedCount := 6; err := None |} in
  let aF := {| matches := ["root/abc/report.txt"; "root/abc/report.txt"];
               scannedCount := 6; err := None |} in
  let aD := {| matches := ["root/ABC123"; "root/abc"];
               scannedCount := 6; err := None |} in
  0 < numWorkers
  /\ returns "root" (Some scenario) "abc" ModeBoth true numWorkers aB
  /\ returns "root" (Some scenario) "abc" ModeFiles true numWorkers aF
  /\ returns "root" (Some scenario) "abc" ModeFolders true numWorkers aD
  /\ forall p, In p (matches aB) <-> In p (matches aF) \/ In p (matches aD).
Proof.
  intros aB aF aD.
  assert (Hn : 0 < numWorkers) by (unfold numWorkers; lia).
  assert (HB : returns "root" (Some scenario) "abc" ModeBoth true numWorkers aB).
  { apply (@outcome_returns "root" (Some scenario) "abc" ModeBoth true numWorkers [] 200).
    vm_compute. reflexivity. }
  assert (HF : returns "root" (Some scenario) "abc" ModeFiles true numWorkers aF).
  { apply (@outcome_returns "root" (Some scenario) "abc" ModeFiles true numWorkers [] 200).
    vm_compute. reflexivity. }
  assert (HD : returns "root" (Some scenario) "abc" ModeFolders true numWorkers aD).
  { apply (@outcome_returns "root" (Some scenario) "abc" ModeFolders true numWorkers [] 200).
    vm_compute. reflexivity. }
  assert (Hlen : (Z.of_nat (List.length (traversal "root" (Some scenario) "abc"
                                           ModeBoth true)) < maxResults)%Z).
  { vm_compute. reflexivity. }
  split; [exact Hn|]. split; [exact HB|]. split; [exact HF|]. split; [exact HD|].
  exact (proj2 (proj2 (@C6_mode_partition _ _ _ _ _ _ _ _ Hn HB HF HD)) Hlen).
Defined.

(* ================================================================== *)
(** ** The cap *)

(** C4.  On the directory [d] holding [f] next to the files [f0000] ..
    [f9999] (10001 entries that match "f"), in the run [race] three
    workers pass the test [found >= maxResults] at [found = 9999] and
    each then records a path: the counter [found] reaches 10002 and
    10002 paths are returned. *)
Theorem C4_cap_exceeded :
  exists s a,
    steps "root" (Some crowded) "f" ModeBoth true (start numWorkers) s
    /\ caller s = MRet a
    /\ found (mem s) = 10002%Z
    /\ Z.of_nat (List.length (matches a)) = 10002%Z
    /\ (maxResults < Z.of_nat (List.length (matches a)))%Z.
Proof.
  destruct crowded_race_run as (s & Hs & Hr & Hf & _ & Hl).
  destruct (returned_answer Hs Hr) as (a & _ & Ha & Hm & _).
  exists s, a.
  assert (Hlen : Z.of_nat (List.length (matches a)) = 10002%Z).
  { rewrite Hm, Strings_length. exact Hl. }
  repeat split; try assumption.
  rewrite Hlen. reflexivity.
Qed.

(* ================================================================== *)
(** ** Runs of the same search *)

(** C8, as stated, fails on the same tree: the run [race] returns 10002
    paths, the run in which worker 0 does everything returns 10000. *)
Lemma C8_counterexample :
  ~ (forall a1 a2,
       returns "root" (Some crowded) "f" ModeBoth true numWorkers a1 ->
       returns "root" (Some crowded) "f" ModeBoth true numWorkers a2 ->
       matches a1 = matches a2 /\ scannedCount a1 = scannedCount a2).
Proof.
  intros H.
  destruct crowded_race_run as (s1 & Hs1 & Hr1 & _ & Hsc1 & _).
  destruct crowded_plain_run as (s2 & Hs2 & Hr2 & Hsc2).
  destruct (returned_answer Hs1 Hr1) as (a1 & E1 & _ & _ & Hc1).
  destruct (returned_answer Hs2 Hr2) as (a2 & E2 & _ & _ & Hc2).
  destruct (H a1 a2 E1 E2) as [_ Heq]. lia.
Qed.

(** C8, amended.  When the traversal records fewer than [maxResults]
    matches, any two runs of the search on the same snapshot, with any
    numbers of workers from 1 on, return the same sorted paths, the same
    scanned count and the same error. *)
Theorem C8_same_answer_below_cap root rootList query mode skip n1 n2 a1 a2 :
  0 < n1 -> 0 < n2 ->
  (Z.of_nat (List.length (traversal root rootList query mode skip)) < maxResults)%Z ->
  returns root rootList query mode skip n1 a1 ->
  returns root rootList query mode skip n2 a2 ->
  a1 = a2.
Proof.
  intros Hn1 Hn2 Hlen H1 H2.
  rewrite (@returns_uncut _ _ _ _ _ _ _ Hn1 Hlen H1).
  rewrite (@returns_uncut _ _ _ _ _ _ _ Hn2 Hlen H2).
  reflexivity.
Qed.

Lemma C8_witness :
  let a := {| matches := ["root/ABC123"; "root/abc"; "root/abc/report.txt";
                          "root/abc/report.txt"];
              scannedCount := 6; err := None |} in
  0 < 1 /\ 0 < 64
  /\ returns "root" (Some scenario) "abc" ModeBoth true 1 a
  /\ returns "root" (Some scenario) "abc" ModeBoth true 64 a
  /\ a = a.
Proof.
  intros a.
  assert (Hn1 : 0 < 1) by lia.
  assert (Hn2 : 0 < 64) by lia.
  assert (H1 : returns "root" (Some scenario) "abc" ModeBoth true 1 a).
  { apply (@outcome_returns "root" (Some scenario) "abc" ModeBoth true 1 [] 200).
    vm_compute. reflexivity. }
  assert (H2 : returns "root" (Some scenario) "abc" ModeBoth true 64
                 a).
  { apply (@outcome_returns "root" (Some scenario) "abc" ModeBoth true 64
             ([TMain; TMain; TWorker 63; TMain; TMain; TWorker 7; TWorker 63]) 200).
    vm_compute. reflexivity. }
  assert (Hlen : (Z.of_nat (List.length (traversal "root" (Some scenario) "abc"
                                           ModeBoth true)) < maxResults)%Z).
  { vm_compute. reflexivity. }
  split; [exact Hn1|]. split; [exact Hn2|]. split; [exact H1|]. split; [exact H2|].
  exact (@C8_same_answer_below_cap _ _ _ _ _ _ _ _ _ Hn1 Hn2 Hlen H1 H2).
Defined.

(* ================================================================== *)
(** * Further properties of [parallelWalk] *)

(** ** Runs end, and end cleanly *)

(** X1. No run of the search is longer than
    [24 * (entries of the tree) + 2 * (workers) + 12] steps of its
    goroutines, whatever the scheduler does: the search cannot go on for
    ever. *)
Theorem X1_run_length_bounded root rootList query mode skip n sched s :
  run root rootList query mode skip sched (start n) = Some s ->
  List.length sched <= 24 * treeCount rootList + 2 * n + 12.
Proof.
  intros H. apply run_length in H.
  pose proof (weight_start rootList n). lia.
Qed.

Lemma X1_witness :
  let sched := [TMain; TMain; TWorker 0; TWorker 0; TMain] in
  run "root" (Some scenario) "abc" ModeBoth true sched (start 2)
  = Some (afterRun "root" (Some scenario) "abc" ModeBoth true sched (start 2))
  /\ List.length sched <= 24 * treeCount (Some scenario) + 2 * 2 + 12.
Proof.
  intros sched.
  assert (H : run "root" (Some scenario) "abc" ModeBoth true sched (start 2)
              = Some (afterRun "root" (Some scenario) "abc" ModeBoth true sched
                        (start 2))) by reflexivity.
  split; [exact H | exact (X1_run_length_bounded _ _ _ _ _ _ _ H)].
Defined.

(** X2. The search cannot deadlock: in every state of a run with at
    least one worker in which the caller has not returned, some
    goroutine can take a step. *)
Theorem X2_some_goroutine_can_move root rootList query mode skip n s :
  0 < n ->
  steps root rootList query mode skip (start n) s ->
  (forall a, caller s <> MRet a) ->
  exists t s',
    In t (threads s) /\ step root rootList query mode skip t s = Next s'.
Proof.
  intros Hn Hs Hc.
  apply progress.
  - exact (inv_steps Hs (inv_start n)).
  - exact (steps_nonempty Hn Hs).
  - exact Hc.
Qed.

Lemma X2_witness :
  0 < 1
  /\ steps "root" (Some scenario) "abc" ModeBoth true (start 1) (start 1)
  /\ (forall a, caller (start 1) <> MRet a)
  /\ exists t s',
       In t (threads (start 1))
       /\ step "root" (Some scenario) "abc" ModeBoth true t (start 1) = Next s'.
Proof.
  assert (Hn : 0 < 1) by lia.
  assert (Hs : steps "root" (Some scenario) "abc" ModeBoth true (start 1) (start 1))
    by apply steps_refl.
  assert (Hc : forall a, caller (start 1) <> MRet a) by (intros a; discriminate).
  split; [exact Hn|]. split; [exact Hs|]. split; [exact Hc|].
  exact (X2_some_goroutine_can_move Hn Hs Hc).
Defined.

(** X3. No step of a run panics: no goroutine sends on the closed
    channel, the channel is not closed twice, and neither wait group
    counter goes below zero. *)
Theorem X3_no_step_panics root rootList query mode skip n s t :
  steps root rootList query mode skip (start n) s ->
  step root rootList query mode skip t s <> Panic.
Proof.
  intros Hs. apply step_no_panic. exact (inv_steps Hs (inv_start n)).
Qed.

Lemma X3_witness :
  let s := exec "root" (Some scenario) "abc" ModeBoth true 40 (start numWorkers) in
  steps "root" (Some scenario) "abc" ModeBoth true (start numWorkers) s
  /\ step "root" (Some scenario) "abc" ModeBoth true (TWorker 3) s <> Panic.
Proof.
  intros s.
  assert (Hs : steps "root" (Some scenario) "abc" ModeBoth true (start numWorkers) s)
    by apply exec_steps.
  split; [exact Hs | exact (X3_no_step_panics (TWorker 3) Hs)].
Defined.

(** X4. When the caller returns nothing is left behind: the channel is
    closed and empty, both wait group counters are zero, every worker
    and the closing goroutine have ended, and no goroutine can take a
    further step. *)
Theorem X4_nothing_left_at_return root rootList query mode skip n s a :
  0 < n ->
  steps root rootList query mode skip (start n) s ->
  caller s = MRet a ->
  closed (mem s) = true /\ dirQueue (mem s) = [] /\ pending (mem s) = 0%Z
  /\ wg (mem s) = 0%Z /\ closer s = CEnd
  /\ (forall w, In w (workers s) -> w = Exit)
  /\ (forall t, step root rootList query mode skip t s = Blocked).
Proof.
  intros Hn Hs E.
  eapply returned_final.
  - exact (inv_steps Hs (inv_start n)).
  - exact (steps_nonempty Hn Hs).
  - exact E.
Qed.

Lemma X4_witness :
  let s := exec "root" (Some scenario) "abc" ModeBoth true 200 (start 2) in
  0 < 2
  /\ steps "root" (Some scenario) "abc" ModeBoth true (start 2) s
  /\ isRet (caller s) = true
  /\ closed (mem s) = true /\ dirQueue (mem s) = [] /\ pending (mem s) = 0%Z
  /\ wg (mem s) = 0%Z /\ closer s = CEnd
  /\ (forall w, In w (workers s) -> w = Exit)
  /\ (forall t, step "root" (Some scenario) "abc" ModeBoth true t s = Blocked).
Proof.
  intros s.
  assert (Hn : 0 < 2) by lia.
  assert (Hs : steps "root" (Some scenario) "abc" ModeBoth true (start 2) s)
    by apply exec_steps.
  assert (Hr : isRet (caller s) = true) by (vm_compute; reflexivity).
  split; [exact Hn|]. split; [exact Hs|]. split; [exact Hr|].
  destruct (caller s) as [| | | | | |a] eqn:E; try discriminate Hr.
  exact (X4_nothing_left_at_return Hn Hs E).
Defined.

(** X5. In every state of a run the channel holds at most its 4096
    places, [pending] lies between 0 and [4096 + 1 + 2 * workers], and
    [wg] between 0 and the number of workers. *)
Theorem X5_queue_and_counters_bounded root rootList query mode skip n s :
  steps root rootList query mode skip (start n) s ->
  List.length (dirQueue (mem s)) <= queueCap
  /\ (0 <= pending (mem s) <= Z.of_nat (queueCap + 1 + 2 * n))%Z
  /\ (0 <= wg (mem s) <= Z.of_nat n)%Z.
Proof.
  apply steps_bounds.
Qed.

Lemma X5_witness :
  let s := exec "root" (Some scenario) "abc" ModeBoth true 40 (start numWorkers) in
  steps "root" (Some scenario) "abc" ModeBoth true (start numWorkers) s
  /\ List.length (dirQueue (mem s)) <= queueCap
  /\ (0 <= pending (mem s) <= Z.of_nat (queueCap + 1 + 2 * numWorkers))%Z
  /\ (0 <= wg (mem s) <= Z.of_nat numWorkers)%Z.
Proof.
  intros s.
  assert (Hs : steps "root" (Some scenario) "abc" ModeBoth true (start numWorkers) s)
    by apply exec_steps.
  split; [exact Hs | exact (X5_queue_and_counters_bounded Hs)].
Defined.

(* ================================================================== *)
(** ** The returned list *)

(** X6. The list a search returns is in increasing order of its paths,
    compared byte by byte, in every run. *)
Theorem X6_result_sorted root rootList query mode skip n a :
  returns root rootList query mode skip n a ->
  StronglySorted (fun x y => String.leb x y = true) (matches a).
Proof.
  intros (s & Hs & E).
  rewrite (answer_steps Hs E). cbn [answerOf matches].
  apply Strings_sorted.
Qed.

Lemma X6_witness :
  let a := {| matches := ["root/ABC123"; "root/abc"; "root/abc/report.txt";
                          "root/abc/report.txt"];
              scannedCount := 6; err := None |} in
  returns "root" (Some scenario) "abc" ModeBoth true numWorkers a
  /\ StronglySorted (fun x y => String.leb x y = true) (matches a).
Proof.
  intros a.
  assert (Hr : returns "root" (Some scenario) "abc" ModeBoth true numWorkers a).
  { apply (@outcome_returns "root" (Some scenario) "abc" ModeBoth true numWorkers [] 200).
    vm_compute. reflexivity. }
  split; [exact Hr | exact (X6_result_sorted Hr)].
Defined.

(** X7. The number of returned paths: never more than the complete
    traversal records, and never fewer than the smaller of that number
    and the cap of 10000. *)
Theorem X7_result_size root rootList query mode skip n a :
  0 < n ->
  (Z.of_nat (List.length (traversal root rootList query mode skip)) < 2 ^ 62)%Z ->
  returns root rootList query mode skip n a ->
  Nat.min (List.length (traversal root rootList query mode skip))
          (Z.to_nat maxResults)
  <= List.length (matches a)
  /\ List.length (matches a)
     <= List.length (traversal root rootList query mode skip).
Proof.
  intros Hn Hlen (s & Hs & E).
  pose proof (counted_steps Hlen Hs) as C.
  pose proof (inv_steps Hs (inv_start n)) as I.
  pose proof (steps_nonempty Hn Hs) as Hne.
  destruct (@returned_done root rootList query mode skip s a I Hne E) as (Ht & _ & Hf).
  rewrite (answer_steps Hs E). cbn [answerOf matches].
  rewrite Strings_length.
  split; [|exact (counted_length C)].
  destruct (cnt_cut C) as [Hall | Hcap].
  - assert (Hp : Permutation (matched (mem s))
                   (traversal root rootList query mode skip)).
    { apply occ_Permutation. intros x. specialize (Hall x).
      rewrite Ht in Hall. unfold occ in Hall at 2. simpl in Hall. lia. }
    rewrite (Permutation_length Hp). apply Nat.le_min_l.
  - destruct (cnt_found C) as [_ Hfound]. rewrite Hf in Hfound.
    unfold maxResults in *.
    etransitivity; [apply Nat.le_min_r|]. lia.
Qed.

Lemma X7_witness :
  let a := {| matches := ["root/ABC123"; "root/abc"; "root/abc/report.txt";
                          "root/abc/report.txt"];
              scannedCount := 6; err := None |} in
  let l := traversal "root" (Some scenario) "abc" ModeBoth true in
  0 < numWorkers
  /\ (Z.of_nat (List.length l) < 2 ^ 62)%Z
  /\ returns "root" (Some scenario) "abc" ModeBoth true numWorkers a
  /\ Nat.min (List.length l) (Z.to_nat maxResults) <= List.length (matches a)
  /\ List.length (matches a) <= List.length l.
Proof.
  intros a l.
  assert (Hn : 0 < numWorkers) by (unfold numWorkers; lia).
  assert (Hlen : (Z.of_nat (List.length l) < 2 ^ 62)%Z) by (vm_compute; reflexivity).
  assert (Hr : returns "root" (Some scenario) "abc" ModeBoth true numWorkers a).
  { apply (@outcome_returns "root" (Some scenario) "abc" ModeBoth true numWorkers [] 200).
    vm_compute. reflexivity. }
  split; [exact Hn|]. split; [exact Hlen|]. split; [exact Hr|].
  exact (X7_result_size Hn Hlen Hr).
Defined.

(* ================================================================== *)
(** ** Directories that cannot be read, and the case of the query *)

(** X8. Below the root a directory that cannot be read counts as an
    empty one: when the cap is not reached, the search returns on a tree
    what it returns on the same tree with every unreadable directory
    replaced by an empty directory. *)
Theorem X8_unreadable_directory_as_empty root es query mode skip n a a' :
  0 < n ->
  (Z.of_nat (List.length (traversal root (Some es) query mode skip))
   < maxResults)%Z ->
  returns root (Some es) query mode skip n a ->
  returns root (Some (map emptied es)) query mode skip n a' ->
  a = a'.
Proof.
  intros Hn Hlen Hr Hr'.
  assert (Ht : traversal root (Some (map emptied es)) query mode skip
               = traversal root (Some es) query mode skip).
  { unfold traversal, sent. cbn [flat_map walkDir dlist dpath].
    rewrite walkEntries_emptied.
    rewrite (proj1 (seeds_emptied root query mode skip es)). reflexivity. }
  assert (Hsc : scans root (Some (map emptied es)) skip
                = scans root (Some es) skip).
  { unfold scans, sent. rewrite !map_cons, !list_sum_cons_eq.
    cbn [scanDir dlist]. rewrite scanEntries_emptied.
    f_equal. exact (proj2 (seeds_emptied root query mode skip es)). }
  rewrite (returns_uncut Hn Hlen Hr).
  rewrite <- Ht in Hlen.
  rewrite (returns_uncut Hn Hlen Hr').
  rewrite Ht, Hsc. reflexivity.
Qed.

Lemma X8_witness :
  let a := {| matches := ["root/abc"; "root/abcd"; "root/abcd/abc.txt";
                          "root/abcd/abc.txt"];
              scannedCount := 4; err := None |} in
  0 < numWorkers
  /\ (Z.of_nat (List.length (traversal "root" (Some locked) "abc" ModeBoth true))
      < maxResults)%Z
  /\ returns "root" (Some locked) "abc" ModeBoth true numWorkers a
  /\ returns "root" (Some (map emptied locked)) "abc" ModeBoth true numWorkers a
  /\ a = a.
Proof.
  intros a.
  assert (Hn : 0 < numWorkers) by (unfold numWorkers; lia).
  assert (Hlen : (Z.of_nat (List.length (traversal "root" (Some locked) "abc"
                                           ModeBoth true)) < maxResults)%Z)
    by (vm_compute; reflexivity).
  assert (Hr : returns "root" (Some locked) "abc" ModeBoth true numWorkers a).
  { apply (@outcome_returns "root" (Some locked) "abc" ModeBoth true numWorkers [] 200).
    vm_compute. reflexivity. }
  assert (Hr' : returns "root" (Some (map emptied locked)) "abc" ModeBoth true
                  numWorkers a).
  { apply (@outcome_returns "root" (Some (map emptied locked)) "abc" ModeBoth true
             numWorkers [] 200).
    vm_compute. reflexivity. }
  split; [exact Hn|]. split; [exact Hlen|]. split; [exact Hr|]. split; [exact Hr'|].
  exact (X8_unreadable_directory_as_empty Hn Hlen Hr Hr').
Defined.

(** X9. [parallelWalk] lowers the names and paths but not the query: a
    query that holds an upper-case ASCII letter matches nothing, and the
    returned list is empty in every run. *)
Theorem X9_upper_case_query_finds_nothing root rootList query mode skip n a :
  hasUpper query = true ->
  returns root rootList query mode skip n a ->
  matches a = [].
Proof.
  intros Hu Hr.
  destruct (returns_sound Hr) as [Hin _].
  rewrite (@traversal_upper root rootList query mode skip Hu) in Hin.
  destruct (matches a) as [|p l]; [reflexivity|].
  destruct (Hin p (or_introl eq_refl)).
Qed.

Lemma X9_witness :
  let a := {| matches := []; scannedCount := 6; err := None |} in
  hasUpper "ABC" = true
  /\ returns "root" (Some scenario) "ABC" ModeBoth true numWorkers a
  /\ matches a = [].
Proof.
  intros a.
  assert (Hu : hasUpper "ABC" = true) by reflexivity.
  assert (Hr : returns "root" (Some scenario) "ABC" ModeBoth true numWorkers a).
  { apply (@outcome_returns "root" (Some scenario) "ABC" ModeBoth true numWorkers [] 200).
    vm_compute. reflexivity. }
  split; [exact Hu|]. split; [exact Hr|].
  exact (X9_upper_case_query_finds_nothing Hu Hr).
Defined.

(* ================================================================== *)
(** ** The cap and the scan counter *)

(** X20. The cap of 10000 can be passed (each worker tests it before it
    scans an entry and records the entry later), but only by what the
    workers hold at that moment: a search with [n] workers on a tree
    with [h] levels of directories below the root returns at most
    [10000 - 1 + n * (1 + h)] paths. *)
Theorem X20_cap_passed_by_bounded_amount root rootList query mode skip n a :
  0 < n ->
  (Z.of_nat (List.length (traversal root rootList query mode skip)) < 2 ^ 62)%Z ->
  returns root rootList query mode skip n a ->
  (Z.of_nat (List.length (matches a))
   <= maxResults - 1 + Z.of_nat (n * (1 + depth rootList)))%Z.
Proof.
  intros Hn Hlen (s & Hs & E).
  pose proof (counted_steps Hlen Hs) as C.
  pose proof (capped_steps Hlen Hs) as K.
  pose proof (inv_steps Hs (inv_start n)) as I.
  pose proof (steps_nonempty Hn Hs) as Hne.
  destruct (@returned_done root rootList query mode skip s a I Hne E) as (_ & _ & Hf).
  rewrite (answer_steps Hs E). cbn [answerOf matches].
  rewrite Strings_length.
  destruct (cnt_found C) as [_ Hfound]. rewrite Hf in Hfound.
  unfold capped in K. lia.
Qed.

Lemma X20_witness :
  let a := {| matches := ["root/ABC123"; "root/abc"; "root/abc/report.txt";
                          "root/abc/report.txt"];
              scannedCount := 6; err := None |} in
  0 < numWorkers
  /\ (Z.of_nat (List.length (traversal "root" (Some scenario) "abc" ModeBoth true))
      < 2 ^ 62)%Z
  /\ returns "root" (Some scenario) "abc" ModeBoth true numWorkers a
  /\ (Z.of_nat (List.length (matches a))
      <= maxResults - 1 + Z.of_nat (numWorkers * (1 + depth (Some scenario))))%Z.
Proof.
  intros a.
  assert (Hn : 0 < numWorkers) by (unfold numWorkers; lia).
  assert (Hlen : (Z.of_nat (List.length (traversal "root" (Some scenario) "abc"
                                           ModeBoth true)) < 2 ^ 62)%Z)
    by (vm_compute; reflexivity).
  assert (Hr : returns "root" (Some scenario) "abc" ModeBoth true numWorkers a).
  { apply (@outcome_returns "root" (Some scenario) "abc" ModeBoth true numWorkers [] 200).
    vm_compute. reflexivity. }
  split; [exact Hn|]. split; [exact Hlen|]. split; [exact Hr|].
  exact (X20_cap_passed_by_bounded_amount Hn Hlen Hr).
Defined.

(** X21. The returned scan count is at least the number of returned
    paths and at most the number of entries the complete traversal
    scans, which is at most twice the number of entries of the tree
    (the directories of the first level are walked twice). *)
Theorem X21_scanned_count_bounds root rootList query mode skip n a :
  (Z.of_nat (scans root rootList skip) < 2 ^ 62)%Z ->
  returns root rootList query mode skip n a ->
  (Z.of_nat (List.length (matches a)) <= scannedCount a)%Z
  /\ (scannedCount a <= Z.of_nat (scans root rootList skip))%Z
  /\ scans root rootList skip <= 2 * treeCount rootList.
Proof.
  intros Hlen (s & Hs & E).
  pose proof (@metered_steps root rootList query mode skip n s Hlen Hs) as [Hup Hlow].
  rewrite (answer_steps Hs E). cbn [answerOf matches scannedCount].
  rewrite Strings_length.
  split; [lia|]. split; [lia|]. apply scans_treeCount.
Qed.

Lemma X21_witness :
  let a := {| matches := ["root/ABC123"; "root/abc"; "root/abc/report.txt";
                          "root/abc/report.txt"];
              scannedCount := 6; err := None |} in
  (Z.of_nat (scans "root" (Some scenario) true) < 2 ^ 62)%Z
  /\ returns "root" (Some scenario) "abc" ModeBoth true numWorkers a
  /\ (Z.of_nat (List.length (matches a)) <= scannedCount a)%Z
  /\ (scannedCount a <= Z.of_nat (scans "root" (Some scenario) true))%Z
  /\ scans "root" (Some scenario) true <= 2 * treeCount (Some scenario).
Proof.
  intros a.
  assert (Hlen : (Z.of_nat (scans "root" (Some scenario) true) < 2 ^ 62)%Z)
    by (vm_compute; reflexivity).
  assert (Hr : returns "root" (Some scenario) "abc" ModeBoth true numWorkers a).
  { apply (@outcome_returns "root" (Some scenario) "abc" ModeBoth true numWorkers [] 200).
    vm_compute. reflexivity. }
  split; [exact Hlen|]. split; [exact Hr|].
  exact (X21_scanned_count_bounds Hlen Hr).
Defined.

(* ================================================================== *)
(** * The terminal interface: [Update], [runSearch], [SearchMode.String] *)

Ltac update_unfold :=
  unfold Update, thenFocused, updateFocused, keyLeftRight, keyTab, keyF2,
    setStatus, setMode.

Ltac split_conds :=
  repeat match goal with
    | |- context [if ?b then _ else _] => destruct b eqn:?
    | |- context [match listSelected ?W ?r with _ => _ end] =>
        destruct (listSelected W r) eqn:?
    end;
  cbn [newModel command opened focus mode skipSystemDirs searching
       queryInput rootInput].

Ltac key_eqs :=
  repeat match goal with
    | H : (_ || _)%bool = true |- _ => apply orb_true_iff in H; destruct H
    | H : (_ || _)%bool = false |- _ => apply orb_false_iff in H; destruct H
    | H : String.eqb _ _ = true |- _ => apply String.eqb_eq in H
    | H : String.eqb _ _ = false |- _ => apply String.eqb_neq in H
    | H : negb _ = true |- _ => apply negb_true_iff in H
    | H : negb _ = false |- _ => apply negb_false_iff in H
    | H : (_ =? _)%Z = true |- _ => apply Z.eqb_eq in H
    | H : (_ =? _)%Z = false |- _ => apply Z.eqb_neq in H
    end.

(** What [Update] does to the focus, the mode and the skip flag. *)
Lemma update_focus W goos (m : fileSearchModel W) ms :
  focus (newModel (Update goos m ms))
  = match ms with
    | KeyMsg key =>
        if String.eqb key "tab" then Z.rem (wrap64 (focus m + 1)) 4 else focus m
    | _ => focus m
    end.
Proof.
  destruct ms as [key| | |]; update_unfold; split_conds; try reflexivity;
    key_eqs; subst; congruence.
Qed.

Lemma update_mode W goos (m : fileSearchModel W) ms :
  mode (newModel (Update goos m ms))
  = match ms with
    | KeyMsg key =>
        if (focus m =? FocusMode)%Z then
          if String.eqb key "left" then Z.rem (wrap64 (mode m + 2)) 3
          else if String.eqb key "right" then Z.rem (wrap64 (mode m + 1)) 3
          else mode m
        else mode m
    | _ => mode m
    end.
Proof.
  destruct ms as [key| | |]; update_unfold; split_conds; try reflexivity;
    key_eqs; subst; congruence.
Qed.

Lemma update_skip W goos (m : fileSearchModel W) ms :
  skipSystemDirs (newModel (Update goos m ms))
  = match ms with
    | KeyMsg key =>
        if String.eqb key "f2" then negb (skipSystemDirs m) else skipSystemDirs m
    | _ => skipSystemDirs m
    end.
Proof.
  destruct ms as [key| | |]; update_unfold; split_conds; try reflexivity;
    key_eqs; subst; congruence.
Qed.

Lemma next_of_four f :
  (0 <= f < 4)%Z -> Z.rem (wrap64 (f + 1)) 4 = ((f + 1) mod 4)%Z.
Proof.
  intros H.
  assert (E : f = 0%Z \/ f = 1%Z \/ f = 2%Z \/ f = 3%Z) by lia.
  destruct E as [-> | [-> | [-> | ->]]]; reflexivity.
Qed.

Lemma next_of_three k v :
  (0 <= v < 3)%Z -> (k = 1 \/ k = 2)%Z ->
  Z.rem (wrap64 (v + k)) 3 = ((v + k) mod 3)%Z.
Proof.
  intros H Hk.
  assert (E : v = 0%Z \/ v = 1%Z \/ v = 2%Z) by lia.
  destruct Hk as [-> | ->]; destruct E as [-> | [-> | ->]]; reflexivity.
Qed.

Lemma afterKeys_cons W goos (m : fileSearchModel W) key keys :
  afterKeys goos m (key :: keys)
  = afterKeys goos (newModel (Update goos m (KeyMsg key))) keys.
Proof. reflexivity. Qed.

Lemma afterKeys_reachable W goos (m : fileSearchModel W) keys :
  reachable goos m -> reachable goos (afterKeys goos m keys).
Proof.
  revert m. induction keys as [|key keys IH]; intros m H; [exact H|].
  rewrite afterKeys_cons. apply IH. apply reach_update. exact H.
Qed.

Lemma in_range_step W goos (m : fileSearchModel W) ms :
  (0 <= focus m < 4)%Z /\ (0 <= mode m < 3)%Z ->
  (0 <= focus (newModel (Update goos m ms)) < 4)%Z
  /\ (0 <= mode (newModel (Update goos m ms)) < 3)%Z.
Proof.
  intros [Hf Hm]. rewrite update_focus, update_mode.
  pose proof (next_of_four Hf) as E4.
  pose proof (next_of_three Hm (or_introl eq_refl)) as E1.
  pose proof (next_of_three Hm (or_intror eq_refl)) as E2.
  pose proof (Z.mod_pos_bound (focus m + 1) 4 eq_refl).
  pose proof (Z.mod_pos_bound (mode m + 1) 3 eq_refl).
  pose proof (Z.mod_pos_bound (mode m + 2) 3 eq_refl).
  destruct ms as [key| | |]; split; try assumption;
    repeat match goal with
      | |- context [if ?b then _ else _] => destruct b
      end; try assumption; lia.
Qed.

Lemma reachable_range W goos (m : fileSearchModel W) :
  reachable goos m -> (0 <= focus m < 4)%Z /\ (0 <= mode m < 3)%Z.
Proof.
  induction 1 as [|m ms _ IH].
  - cbn. unfold FocusQuery. lia.
  - apply in_range_step. exact IH.
Qed.

Lemma ToLower_empty s : ToLower s = "" -> s = "".
Proof. destruct s; [reflexivity | discriminate]. Qed.

Lemma hasUpper_ToLower s : hasUpper (ToLower s) = false.
Proof.
  unfold hasUpper. destruct (existsb _ _) eqn:E; [|reflexivity].
  apply existsb_exists in E. destruct E as (c & Hc & Hu).
  rewrite (ToLower_not_upper s c Hc) in Hu. discriminate.
Qed.

(** ** The focus and the mode *)

(** X10. In every model the program can reach the focus is one of the
    four fields and the mode one of the three modes: [SearchMode.String]
    never indexes outside its array of names, and [mode] is one of the
    constants [parallelWalk] distinguishes. *)
Theorem X10_focus_and_mode_in_range W goos (m : fileSearchModel W) :
  reachable goos m ->
  (0 <= focus m < 4)%Z /\ (0 <= mode m < 3)%Z
  /\ modeString (mode m) <> None /\ modeOf (mode m) <> None.
Proof.
  intros H. destruct (reachable_range H) as [Hf Hm].
  split; [exact Hf|]. split; [exact Hm|].
  assert (E : mode m = 0%Z \/ mode m = 1%Z \/ mode m = 2%Z) by lia.
  destruct E as [-> | [-> | ->]]; split; discriminate.
Qed.

Lemma X10_witness :
  let m := afterKeys "linux" (initialModel plainWidgets)
             ["tab"; "tab"; "left"; "left"; "tab"; "tab"; "tab"] in
  reachable "linux" m
  /\ (0 <= focus m < 4)%Z /\ (0 <= mode m < 3)%Z
  /\ modeString (mode m) <> None /\ modeOf (mode m) <> None.
Proof.
  intros m.
  assert (H : reachable "linux" m).
  { apply afterKeys_reachable. apply reach_initial. }
  split; [exact H | exact (X10_focus_and_mode_in_range H)].
Defined.

(** X11. [k] tab keys move the focus [k] fields on, round the four
    fields; four of them bring it back to where it was. *)
Theorem X11_tabs_cycle_the_focus W goos (m : fileSearchModel W) k :
  (0 <= focus m < 4)%Z ->
  focus (afterKeys goos m (repeat "tab" k)) = ((focus m + Z.of_nat k) mod 4)%Z
  /\ focus (afterKeys goos m (repeat "tab" 4)) = focus m.
Proof.
  assert (G : forall k (m : fileSearchModel W),
             (0 <= focus m < 4)%Z ->
             focus (afterKeys goos m (repeat "tab" k))
             = ((focus m + Z.of_nat k) mod 4)%Z).
  { clear. intros k. induction k as [|k IH]; intros m Hf.
    - cbn. rewrite Z.add_0_r, Z.mod_small; [reflexivity | exact Hf].
    - cbn [repeat]. rewrite afterKeys_cons.
      assert (E : focus (newModel (Update goos m (KeyMsg "tab")))
                  = ((focus m + 1) mod 4)%Z).
      { rewrite update_focus. cbn. apply next_of_four. exact Hf. }
      rewrite IH; rewrite E.
      + rewrite Zplus_mod_idemp_l. f_equal. lia.
      + apply Z.mod_pos_bound. reflexivity. }
  intros Hf. split; [apply G; exact Hf|].
  rewrite G by exact Hf.
  change (Z.of_nat 4) with (1 * 4)%Z.
  rewrite Z.mod_add by discriminate. apply Z.mod_small. exact Hf.
Qed.

Lemma X11_witness :
  let m := initialModel plainWidgets in
  (0 <= focus m < 4)%Z
  /\ focus (afterKeys "linux" m (repeat "tab" 3)) = ((focus m + Z.of_nat 3) mod 4)%Z
  /\ focus (afterKeys "linux" m (repeat "tab" 4)) = focus m.
Proof.
  intros m.
  assert (Hf : (0 <= focus m < 4)%Z) by (cbn; unfold FocusQuery; lia).
  split; [exact Hf | exact (X11_tabs_cycle_the_focus "linux" m 3 Hf)].
Defined.

(** X12. The mode changes only by the left or right key while the focus
    is on the mode field; no other message, and no key in another
    field, changes it. *)
Theorem X12_mode_changes_only_by_arrows W goos (m : fileSearchModel W) ms :
  mode (newModel (Update goos m ms)) <> mode m ->
  focus m = FocusMode /\ (ms = KeyMsg "left" \/ ms = KeyMsg "right").
Proof.
  rewrite update_mode. intros H.
  destruct ms as [key| | |]; try congruence.
  destruct (focus m =? FocusMode)%Z eqn:Ef; [|congruence].
  apply Z.eqb_eq in Ef. split; [exact Ef|].
  destruct (String.eqb key "left") eqn:El.
  - apply String.eqb_eq in El. left. congruence.
  - destruct (String.eqb key "right") eqn:Er; [|congruence].
    apply String.eqb_eq in Er. right. congruence.
Qed.

Lemma X12_witness :
  let m := afterKeys "linux" (initialModel plainWidgets) ["tab"; "tab"] in
  mode (newModel (Update "linux" m (KeyMsg "right"))) <> mode m
  /\ focus m = FocusMode
  /\ (KeyMsg "right" = KeyMsg "left" \/ KeyMsg "right" = KeyMsg "right").
Proof.
  intros m.
  assert (H : mode (newModel (Update "linux" m (KeyMsg "right"))) <> mode m)
    by (vm_compute; discriminate).
  split; [exact H | exact (X12_mode_changes_only_by_arrows "linux" m _ H)].
Defined.

(** X13. On the mode field the left and the right key undo each other,
    three right keys (or three left keys) go round the three modes, and
    a left key is two right keys. *)
Theorem X13_left_and_right_are_inverse W goos (m : fileSearchModel W) :
  (0 <= mode m < 3)%Z ->
  focus m = FocusMode ->
  mode (afterKeys goos m ["left"; "right"]) = mode m
  /\ mode (afterKeys goos m ["right"; "left"]) = mode m
  /\ mode (afterKeys goos m ["right"; "right"; "right"]) = mode m
  /\ mode (afterKeys goos m ["left"; "left"; "left"]) = mode m
  /\ mode (afterKeys goos m ["left"]) = mode (afterKeys goos m ["right"; "right"]).
Proof.
  intros Hm Hf.
  assert (E : mode m = 0%Z \/ mode m = 1%Z \/ mode m = 2%Z) by lia.
  unfold afterKeys. cbn [fold_left].
  repeat (rewrite update_mode; rewrite ?update_focus; cbn [String.eqb Ascii.eqb Bool.eqb]).
  rewrite Hf. cbn [Z.eqb FocusMode Pos.eqb].
  destruct E as [-> | [-> | ->]]; repeat split; reflexivity.
Qed.

Lemma X13_witness :
  let m := afterKeys "linux" (initialModel plainWidgets) ["tab"; "tab"; "right"] in
  (0 <= mode m < 3)%Z
  /\ focus m = FocusMode
  /\ mode (afterKeys "linux" m ["left"; "right"]) = mode m
  /\ mode (afterKeys "linux" m ["right"; "left"]) = mode m
  /\ mode (afterKeys "linux" m ["right"; "right"; "right"]) = mode m
  /\ mode (afterKeys "linux" m ["left"; "left"; "left"]) = mode m
  /\ mode (afterKeys "linux" m ["left"])
     = mode (afterKeys "linux" m ["right"; "right"]).
Proof.
  intros m.
  assert (Hm : (0 <= mode m < 3)%Z) by (vm_compute; split; [discriminate | reflexivity]).
  assert (Hf : focus m = FocusMode) by reflexivity.
  split; [exact Hm|]. split; [exact Hf|].
  exact (X13_left_and_right_are_inverse "linux" m Hm Hf).
Defined.

(** ** Starting a search *)

Lemma runSearch_setStatus W goos (m : fileSearchModel W) st b :
  runSearch goos (setStatus st b m) = runSearch goos m.
Proof. reflexivity. Qed.

Lemma ofWidget_search w c : ofWidget w = CmdSearch c -> False.
Proof. destruct w; discriminate. Qed.

Lemma search_started W goos (m : fileSearchModel W) ms c :
  command (Update goos m ms) = CmdSearch c ->
  ms = KeyMsg "enter" /\ focus m <> FocusResults
  /\ inValue W (queryInput m) <> "" /\ c = runSearch goos m.
Proof.
  destruct ms as [key| | |]; unfold Update, thenFocused, updateFocused;
    split_conds; intros H; try discriminate H;
    try (destruct (ofWidget_search _ H)).
  injection H as <-. key_eqs. subst key.
  rewrite runSearch_setStatus. repeat split; assumption.
Qed.

(** X14. A search is started by exactly one kind of message: the enter
    key while the focus is not on the results and the query field is not
    empty.  The call is then the one [runSearch] builds from the model
    as it is; whether a search is already running plays no part. *)
Theorem X14_search_started_iff W goos (m : fileSearchModel W) ms c :
  command (Update goos m ms) = CmdSearch c <->
  ms = KeyMsg "enter" /\ focus m <> FocusResults
  /\ inValue W (queryInput m) <> "" /\ c = runSearch goos m.
Proof.
  split; [apply search_started|].
  intros (-> & Hf & Hq & ->).
  apply Z.eqb_neq in Hf. apply String.eqb_neq in Hq.
  cbn. rewrite Hf, Hq. reflexivity.
Qed.

(** X15. The call a reachable model makes: the query is in lower case
    and not empty, the root is not empty (an empty root field stands for
    the root of the file system), and the mode is one of the three
    modes. *)
Theorem X15_search_call_well_formed W goos (m : fileSearchModel W) ms c :
  reachable goos m ->
  command (Update goos m ms) = CmdSearch c ->
  hasUpper (callQuery c) = false /\ callQuery c <> ""
  /\ callRoot c <> "" /\ modeOf (callMode c) <> None
  /\ callQuery c = ToLower (inValue W (queryInput m))
  /\ callSkip c = skipSystemDirs m.
Proof.
  intros Hr H.
  apply search_started in H. destruct H as (_ & _ & Hq & ->).
  cbn [runSearch callQuery callRoot callMode callSkip].
  split; [apply hasUpper_ToLower|].
  split; [intros E; apply ToLower_empty in E; contradiction|].
  split.
  - destruct (String.eqb (inValue W (rootInput m)) "") eqn:E.
    + unfold getRootPath. destruct (String.eqb goos "windows"); discriminate.
    + apply String.eqb_neq in E. exact E.
  - split; [|split; reflexivity].
    destruct (reachable_range Hr) as [_ Hm].
    assert (E : mode m = 0%Z \/ mode m = 1%Z \/ mode m = 2%Z) by lia.
    destruct E as [-> | [-> | ->]]; discriminate.
Qed.

Lemma X15_witness :
  let m := afterKeys "linux" (initialModel plainWidgets)
             ["R"; "e"; "p"; "tab"; "tab"; "right"; "f2"] in
  let c := {| callRoot := "/"; callQuery := "rep"; callMode := 1;
              callSkip := false |} in
  reachable "linux" m
  /\ command (Update "linux" m (KeyMsg "enter")) = CmdSearch c
  /\ hasUpper (callQuery c) = false /\ callQuery c <> ""
  /\ callRoot c <> "" /\ modeOf (callMode c) <> None
  /\ callQuery c = ToLower (inValue plainWidgets (queryInput m))
  /\ callSkip c = skipSystemDirs m.
Proof.
  intros m c.
  assert (Hr : reachable "linux" m).
  { apply afterKeys_reachable. apply reach_initial. }
  assert (H : command (Update "linux" m (KeyMsg "enter")) = CmdSearch c)
    by reflexivity.
  split; [exact Hr|]. split; [exact H|].
  exact (X15_search_call_well_formed (KeyMsg "enter") Hr H).
Defined.

(** ** Flags, quitting and opening a result *)

(** X16. The flag [searching] is set exactly when a search is started,
    and cleared exactly by the result of a search, also by a result that
    carries an error; every other message leaves it as it is. *)
Theorem X16_searching_flag W goos (m : fileSearchModel W) ms :
  searching (newModel (Update goos m ms))
  = match ms with
    | ResultMsg _ _ _ _ => false
    | _ =>
        match command (Update goos m ms) with
        | CmdSearch _ => true
        | _ => searching m
        end
    end.
Proof.
  destruct ms as [key| | |]; update_unfold; split_conds;
    repeat match goal with
      | |- context [ofWidget ?w] => destruct w; cbn [ofWidget]
      end; reflexivity.
Qed.

(** X17.  The keys ctrl+c and esc quit in every model, before the
    key reaches a component, and leave the model as it is.  [Update]
    itself quits on nothing else: for any other message the command is
    [tea.Quit] only when a component returned it for that message (as
    the list of results does for the key q). *)
Theorem X17_quit_keys_and_components W goos (m : fileSearchModel W) ms :
  (ms = KeyMsg "ctrl+c" \/ ms = KeyMsg "esc" ->
   Update goos m ms = {| newModel := m; command := CmdQuit; opened := None |})
  /\ (command (Update goos m ms) = CmdQuit ->
      (ms = KeyMsg "ctrl+c" \/ ms = KeyMsg "esc")
      \/ (focus (newModel (Update goos m ms)) = FocusQuery
          /\ exists i, inCmd W i ms = WQuit)
      \/ (focus (newModel (Update goos m ms)) = FocusRoot
          /\ exists i, inCmd W i ms = WQuit)
      \/ (focus (newModel (Update goos m ms)) = FocusResults
          /\ exists l, listCmd W l ms = WQuit)
      \/ (ms = TickMsg /\ exists s, spinCmd W s = WQuit)).
Proof.
  split.
  - intros [-> | ->]; reflexivity.
  - destruct ms as [key| | |]; update_unfold; split_conds; intros H;
      try discriminate H;
      try (left; key_eqs; subst; auto; fail);
      right;
      match type of H with
      | ofWidget ?w = CmdQuit =>
          let E := fresh "E" in
          destruct w eqn:E; try discriminate H; clear H
      end;
      key_eqs;
      first
        [ left; split; [assumption | eexists; exact E]
        | right; left; split; [assumption | eexists; exact E]
        | right; right; left; split; [assumption | eexists; exact E]
        | right; right; right; split; [reflexivity | eexists; exact E] ].
Qed.

(** X18. The skip flag changes exactly on the key f2, which negates it:
    no other message changes it, and two f2 keys restore it. *)
Theorem X18_skip_flag_toggles_on_f2 W goos (m : fileSearchModel W) ms :
  (skipSystemDirs (newModel (Update goos m ms)) <> skipSystemDirs m
   <-> ms = KeyMsg "f2")
  /\ skipSystemDirs (afterKeys goos m ["f2"; "f2"]) = skipSystemDirs m.
Proof.
  split; [split|].
  - rewrite update_skip. destruct ms as [key| | |]; try congruence.
    destruct (String.eqb key "f2") eqn:E; [|congruence].
    apply String.eqb_eq in E. congruence.
  - intros ->. rewrite update_skip. cbn.
    destruct (skipSystemDirs m); discriminate.
  - unfold afterKeys. cbn [fold_left]. rewrite !update_skip. cbn.
    apply negb_involutive.
Qed.

Lemma opened_thenFocused W (m : fileSearchModel W) ms op :
  opened (thenFocused m ms op) = op.
Proof.
  unfold thenFocused. destruct (updateFocused m ms). reflexivity.
Qed.

(** X19. [openExplorer] is called exactly on the enter key while the
    focus is on the results and an item is selected, and with the path
    of that item. *)
Theorem X19_explorer_opened_iff W goos (m : fileSearchModel W) ms p :
  opened (Update goos m ms) = Some p <->
  ms = KeyMsg "enter" /\ focus m = FocusResults
  /\ listSelected W (results m) = Some p.
Proof.
  split.
  - destruct ms as [key| | |]; update_unfold; split_conds; intros H;
      try discriminate H;
      injection H as <-; key_eqs; subst key; repeat split; congruence.
  - intros (-> & Hf & Hs). apply Z.eqb_eq in Hf.
    cbn. rewrite Hf, Hs. apply opened_thenFocused.
Qed.
